(** * pixi-dashed-line: the dash tracer of [src/lib/index.ts]

    A shallow embedding of the [DashLine] class and the properties its
    specification states about it.

    Numbers.  A JavaScript [number] is modelled by a real number: rounding,
    overflow and signed zeros are abstracted away, and every arithmetic
    operator is the exact one.  The single place of [lineTo] where a finite
    input can produce [NaN] is the remainder [%] by a zero period; there the
    result is an [option R], [None] standing for [NaN], whose comparisons
    are all false as in JavaScript.

    The drawing surface.  The [Graphics] object the tracer is bound to is an
    external collaborator; it is modelled by the log of the calls the tracer
    makes on it, oldest first.

    Loops.  The segmentation loop [while (remaining > 0)] has no bound in
    the source.  It is modelled by a function with a fuel argument that
    answers [None] when the fuel runs out before the loop ends. *)

From Stdlib Require Import Reals Lra Lia List ZArith Bool Arith.
From Stdlib Require Import Zfloor.
Import ListNotations.

Open Scope R_scope.

(** ** JavaScript numbers *)

Module JS.

(** [Math.trunc] on the quotient, as [%] uses it. *)
Definition trunc (x : R) : Z :=
  if Rle_dec 0 x then Zfloor x else Zceil x.

(** [a % b]: the remainder has the sign of the dividend; [NaN] when the
    divisor is zero. *)
Definition rem (a b : R) : option R :=
  if Req_dec_T b 0 then None else Some (a - b * IZR (trunc (a / b))).

(** [p < v] where [p] may be [NaN]. *)
Definition ltb (p : option R) (v : R) : bool :=
  match p with
  | Some q => if Rlt_dec q v then true else false
  | None => false
  end.

(** The value of a number that is known not to be [NaN]. *)
Definition val (p : option R) : R :=
  match p with Some q => q | None => 0 end.

(** [x === y] on numbers. *)
Definition eqb (x y : R) : bool :=
  if Req_dec_T x y then true else false.

(** [Math.atan2(y, x)]. *)
Definition atan2 (y x : R) : R :=
  if Rlt_dec 0 x then atan (y / x)
  else if Rlt_dec x 0 then
    (if Rle_dec 0 y then atan (y / x) + PI else atan (y / x) - PI)
  else if Rlt_dec 0 y then PI / 2
  else if Rlt_dec y 0 then - (PI / 2)
  else 0.

(** [array.reduce((a, b) => a + b)] without an initial value: a
    [TypeError] on the empty array. *)
Definition reduce_sum (l : list R) : option R :=
  match l with
  | [] => None
  | a :: rest => Some (fold_left Rplus rest a)
  end.

End JS.

(** ** The phase lookup of [lineTo]

    [[
    const place = (this.lineLength + this.options.offset) % (this.dashSize * this.scale)
    let dashIndex = 0, dashStart = 0, dashX = 0
    for (let i = 0; i < this.dash.length; i++) {
        const dashSize = this.dash[i] * this.scale
        if (place < dashX + dashSize) { dashIndex = i; dashStart = place - dashX; break }
        else { dashX += dashSize }
    }
    ]] *)

(** The [for] loop from index [i] on, [rest] being [dash.slice(i)]. *)
Fixpoint locate_from (scale : R) (place : option R) (rest : list R)
    (i : nat) (dashX : R) : nat * R :=
  match rest with
  | [] => (0%nat, 0)
  | len :: rest' =>
      let dashSize := len * scale in
      if JS.ltb place (dashX + dashSize)
      then (i, JS.val place - dashX)
      else locate_from scale place rest' (S i) (dashX + dashSize)
  end.

Definition place_of (dashSize scale lineLength offset : R) : option R :=
  JS.rem (lineLength + offset) (dashSize * scale).

(** [(dashIndex, dashStart)] as the loop leaves them. *)
Definition locate (dash : list R) (dashSize scale lineLength offset : R)
    : nat * R :=
  locate_from scale (place_of dashSize scale lineLength offset) dash 0%nat 0.

(** The sum [reduce] computes, for a pattern given as head and tail. *)
Definition period (dash : list R) : R :=
  JS.val (JS.reduce_sum dash).

(** The length of one period on the path. *)
Definition scaled_period (dash : list R) (scale : R) : R :=
  period dash * scale.

(** Where segment [i] starts inside one scaled period. *)
Definition seg_start (dash : list R) (scale : R) (i : nat) : R :=
  fold_right Rplus 0 (map (fun len => len * scale) (firstn i dash)).

Definition all_positive (dash : list R) : Prop :=
  Forall (fun len => 0 < len) dash.

(** ** The drawing surface and the tracer's data *)

Record Point := mkPoint { px : R; py : R }.

(** pixi's affine [Matrix]; [apply] maps [(x, y)] to
    [(a*x + c*y + tx, b*x + d*y + ty)]. *)
Record Matrix := mkMatrix { ma : R; mb : R; mc : R; md : R; mtx : R; mty : R }.

Definition Matrix_apply (m : Matrix) (p : Point) : Point :=
  mkPoint (ma m * px p + mc m * py p + mtx m)
          (mb m * px p + md m * py p + mty m).

(** The operations [adjustStrokeStyle] applies to a fresh [Matrix]. *)
Inductive MatOp :=
| Rotate (angle : R)
| Scale (sx sy : R)
| Translate (tx ty : R).

Inductive Cap := CapButt | CapRound | CapSquare.
Inductive Join := JoinBevel | JoinMiter | JoinRound.

Record StrokeStyle := mkStroke {
  ss_width : R;
  ss_color : R;
  ss_alpha : R;
  ss_texture : bool;
  ss_cap : option Cap;
  ss_join : option Join;
  ss_alignment : R
}.

(** One call on the bound [Graphics].  [GStrokeMatrix m] is the call
    [graphics.stroke(strokeStyle)] of [adjustStrokeStyle]: the surface's
    current style with its pattern matrix replaced by [m]. *)
Inductive GfxCall :=
| GMoveTo (x y : R)
| GLineTo (x y : R)
| GClosePath
| GStroke (style : StrokeStyle)
| GStrokeMatrix (m : list MatOp).

(** [DashLineOptions]: every key may be absent. *)
Record DashLineOptions := mkOptions {
  o_dash : option (list R);
  o_width : option R;
  o_color : option R;
  o_alpha : option R;
  o_scale : option R;
  o_useTexture : option bool;
  o_cap : option Cap;
  o_join : option Join;
  o_alignment : option R;
  o_offset : option R
}.

(** The options merged over [dashLineOptionsDefault]. *)
Record MergedOptions := mkMerged {
  opt_dash : list R;
  opt_width : R;
  opt_color : R;
  opt_alpha : R;
  opt_scale : R;
  opt_useTexture : bool;
  opt_cap : option Cap;
  opt_join : option Join;
  opt_alignment : R;
  opt_offset : R
}.

Definition or_default {A : Type} (o : option A) (dflt : A) : A :=
  match o with Some a => a | None => dflt end.

Definition mergeOptions (o : DashLineOptions) : MergedOptions :=
  {| opt_dash := or_default (o_dash o) [10; 5];
     opt_width := or_default (o_width o) 1;
     opt_color := or_default (o_color o) 16777215;
     opt_alpha := or_default (o_alpha o) 1;
     opt_scale := or_default (o_scale o) 1;
     opt_useTexture := or_default (o_useTexture o) false;
     opt_cap := o_cap o;
     opt_join := o_join o;
     opt_alignment := or_default (o_alignment o) (1 / 2);
     opt_offset := or_default (o_offset o) 0 |}.

Definition noOptions : DashLineOptions :=
  mkOptions None None None None None None None None None None.

(** The fields of a [DashLine].  [lineLength] is initialised to [0] by its
    field declaration, so the [lineLength === undefined] guard of [lineTo]
    never fires and is not modelled. *)
Record DashLine := mkDashLine {
  graphics : list GfxCall;
  lineLength : R;
  cursor : Point;
  scale : R;
  activeTexture : bool;
  start : Point;
  dashSize : R;
  dash : list R;
  useTexture : bool;
  options : MergedOptions
}.

Inductive JsError := TypeError.

(** How a call completes: normally with a value, or by throwing. *)
Inductive Completion (A : Type) :=
| Normal (a : A)
| Throw (e : JsError).
Arguments Normal {A} a.
Arguments Throw {A} e.

(** ** Construction *)

(** The part of [setStrokeStyle] that runs inside the constructor: all of
    it in vector mode, nothing in texture mode, where the body is suspended
    at [await DashLine.getTexture]. *)
Definition setStrokeStyle_sync (d : DashLine) : DashLine :=
  let o := options d in
  if useTexture d then d
  else
    mkDashLine
      (graphics d ++
        [GStroke (mkStroke (opt_width o * opt_scale o) (opt_color o)
                    (opt_alpha o) false (opt_cap o) (opt_join o)
                    (opt_alignment o))])
      (lineLength d) (cursor d) (opt_scale o) (activeTexture d) (start d)
      (dashSize d) (dash d) (useTexture d) o.

(** The rest of [setStrokeStyle] in texture mode, once [getTexture] has
    answered; [texture] tells whether it answered with a texture. *)
Definition setStrokeStyle_resume (texture : bool) (d : DashLine) : DashLine :=
  let o := options d in
  mkDashLine
    (if texture
     then graphics d ++
            [GStroke (mkStroke (opt_width o * opt_scale o) (opt_color o)
                        (opt_alpha o) true None None (opt_alignment o))]
     else graphics d)
    (lineLength d) (cursor d) (opt_scale o)
    (if texture then true else activeTexture d) (start d)
    (dashSize d) (dash d) (useTexture d) o.

Definition constructor (g : list GfxCall) (o : DashLineOptions)
    : Completion DashLine :=
  let m := mergeOptions o in
  match JS.reduce_sum (opt_dash m) with
  | None => Throw TypeError
  | Some total =>
      Normal (setStrokeStyle_sync
                (mkDashLine g 0 (mkPoint 0 0) 1 false (mkPoint 0 0)
                   total (opt_dash m) (opt_useTexture m) m))
  end.

Definition distance (x1 y1 x2 y2 : R) : R :=
  sqrt ((x2 - x1) ^ 2 + (y2 - y1) ^ 2).

Definition moveTo (x y : R) (d : DashLine) : DashLine :=
  mkDashLine (graphics d ++ [GMoveTo x y]) 0 (mkPoint x y) (scale d)
    (activeTexture d) (mkPoint x y) (dashSize d) (dash d) (useTexture d)
    (options d).

(** ** The segmentation loop of [lineTo] *)

(** What one iteration of [while (remaining > 0)] did. *)
Inductive Outcome :=
| Advance
| SeamDraw (p : Point)
| SeamStop.

(** One iteration: the [dashIndex] it ran with, the [dist] it computed,
    the end of the stride [(x0 + cos*dist, y0 + sin*dist)] and how it left. *)
Record Stride := mkStride {
  s_index : nat;
  s_dist : R;
  s_end : Point;
  s_out : Outcome
}.

(** The calls an iteration makes on the surface. *)
Definition stride_calls (s : Stride) : list GfxCall :=
  match s_out s with
  | Advance =>
      if Nat.odd (s_index s)
      then [GMoveTo (px (s_end s)) (py (s_end s))]
      else [GLineTo (px (s_end s)) (py (s_end s))]
  | SeamDraw p => [GLineTo (px p) (py p)]
  | SeamStop => []
  end.

Section Walk.

(** The values the loop reads and never writes.  The pattern is never
    empty on a constructed tracer, so [dash[dashIndex]] and the last entry
    always exist; the defaults of [nth] and [last] below are never read
    there. *)
Variable dash_ : list R.
Variable scale_ : R.
Variables cos_ sin_ : R.
Variable closed : bool.
Variable start_ : Point.

Definition next_index (dashIndex : nat) : nat :=
  if Nat.eqb (S dashIndex) (length dash_) then 0%nat else S dashIndex.

Definition stride_size (dashIndex : nat) (dashStart : R) : R :=
  nth dashIndex dash_ 0 * scale_ - dashStart.

Definition stride_dist (remaining dashSize : R) : R :=
  if Rlt_dec dashSize remaining then dashSize else remaining.

(** The test [closed && remainingDistance <= dist]. *)
Definition at_seam (ex ey dist : R) : bool :=
  closed &&
  (if Rle_dec (distance ex ey (px start_) (py start_)) dist
   then true else false).

Fixpoint walk (fuel : nat) (x0 y0 remaining : R) (dashIndex : nat)
    (dashStart : R) : option (list Stride) :=
  if Rlt_dec 0 remaining then
    match fuel with
    | O => None
    | S fuel' =>
        let dashSize := stride_size dashIndex dashStart in
        let dist := stride_dist remaining dashSize in
        let ex := x0 + cos_ * dist in
        let ey := y0 + sin_ * dist in
        if at_seam ex ey dist then
          if Nat.even dashIndex then
            let lastDash :=
              distance x0 y0 (px start_) (py start_)
              - last dash_ 0 * scale_ in
            Some [mkStride dashIndex dist (mkPoint ex ey)
                    (SeamDraw (mkPoint (x0 + cos_ * lastDash)
                                       (y0 + sin_ * lastDash)))]
          else Some [mkStride dashIndex dist (mkPoint ex ey) SeamStop]
        else
          option_map
            (cons (mkStride dashIndex dist (mkPoint ex ey) Advance))
            (walk fuel' ex ey (remaining - dist) (next_index dashIndex) 0)
    end
  else Some [].

End Walk.

(** ** [lineTo], [closePath] and the composers *)

(** [closePath && x === this.start.x && y === this.start.y]. *)
Definition is_closed (closePath : bool) (x y : R) (d : DashLine) : bool :=
  closePath && JS.eqb x (px (start d)) && JS.eqb y (py (start d)).

(** [adjustStrokeStyle(angle)]: the single call it makes on the surface. *)
Definition adjustStrokeStyle (angle : R) (d : DashLine) : GfxCall :=
  let textureStart := - (lineLength d + opt_offset (options d)) in
  GStrokeMatrix
    ((if Req_dec_T angle 0 then [] else [Rotate angle]) ++
     (if Req_dec_T (scale d) 1 then [] else [Scale (scale d) (scale d)]) ++
     [Translate (px (cursor d) + textureStart * cos angle)
                (py (cursor d) + textureStart * sin angle)]).

(** The calls of the texture branch. *)
Definition texture_calls (x y : R) (closePath : bool) (d : DashLine)
    : list GfxCall :=
  let length := distance (px (cursor d)) (py (cursor d)) x y in
  let angle := JS.atan2 (y - py (cursor d)) (x - px (cursor d)) in
  [GMoveTo (px (cursor d)) (py (cursor d)); adjustStrokeStyle angle d] ++
  (if is_closed closePath x y d && Nat.even (List.length (dash d)) then
     let gap := Rmin (last (dash d) 0) length in
     [GLineTo (x - cos angle * gap) (y - sin angle * gap); GClosePath]
   else [GLineTo x y]).

(** The phase lookup at the start of the vector branch. *)
Definition lookup (d : DashLine) : nat * R :=
  locate (dash d) (dashSize d) (scale d) (lineLength d)
    (opt_offset (options d)).

(** The iterations of the vector branch, [None] when the fuel does not
    suffice. *)
Definition lineTo_strides (fuel : nat) (x y : R) (closePath : bool)
    (d : DashLine) : option (list Stride) :=
  let length := distance (px (cursor d)) (py (cursor d)) x y in
  let angle := JS.atan2 (y - py (cursor d)) (x - px (cursor d)) in
  let ph := lookup d in
  walk (dash d) (scale d) (cos angle) (sin angle)
    (is_closed closePath x y d) (start d)
    fuel (px (cursor d)) (py (cursor d)) length (fst ph) (snd ph).

(** The last two statements of [lineTo], after the surface received
    [calls]. *)
Definition advance (calls : list GfxCall) (x y : R) (d : DashLine)
    : DashLine :=
  mkDashLine (graphics d ++ calls)
    (lineLength d + distance (px (cursor d)) (py (cursor d)) x y)
    (mkPoint x y) (scale d) (activeTexture d) (start d) (dashSize d)
    (dash d) (useTexture d) (options d).

Definition lineTo (fuel : nat) (x y : R) (closePath : bool) (d : DashLine)
    : option DashLine :=
  if useTexture d then
    Some (advance (texture_calls x y closePath d) x y d)
  else
    match lineTo_strides fuel x y closePath d with
    | Some strides => Some (advance (flat_map stride_calls strides) x y d)
    | None => None
    end.

Definition closePath (fuel : nat) (d : DashLine) : option DashLine :=
  lineTo fuel (px (start d)) (py (start d)) true d.

(** A call a composer makes on the tracer. *)
Inductive TracerCall :=
| CMoveTo (x y : R)
| CLineTo (x y : R) (closePath : bool).

Definition run_call (fuel : nat) (c : TracerCall) (d : DashLine)
    : option DashLine :=
  match c with
  | CMoveTo x y => Some (moveTo x y d)
  | CLineTo x y cp => lineTo fuel x y cp d
  end.

Fixpoint run_calls (fuel : nat) (cs : list TracerCall) (d : DashLine)
    : option DashLine :=
  match cs with
  | [] => Some d
  | c :: cs' =>
      match run_call fuel c d with
      | Some d' => run_calls fuel cs' d'
      | None => None
      end
  end.

(** [circle]: the first sampled point, moved by the matrix when there is
    one. *)
Definition circle_first (x y radius : R) (matrix : option Matrix) : Point :=
  let first := mkPoint (x + cos 0 * radius) (y + sin 0 * radius) in
  match matrix with
  | Some m => Matrix_apply m first
  | None => first
  end.

(** The [for (let i = 1; i < points + 1; i++)] loop of [circle] with
    [todo] iterations left. *)
Fixpoint circle_loop (x y radius interval : R) (points : nat)
    (first : Point) (todo i : nat) (angle : R) : list TracerCall :=
  match todo with
  | O => []
  | S todo' =>
      let next :=
        if Nat.eqb i points then first
        else mkPoint (x + cos angle * radius) (y + sin angle * radius) in
      CLineTo (px next) (py next) false ::
      circle_loop x y radius interval points first todo' (S i)
        (angle + interval)
  end.

(** The calls [circle(x, y, radius, points, matrix)] makes on the tracer,
    for a whole number of [points]. *)
Definition circle_calls (x y radius : R) (points : nat)
    (matrix : option Matrix) : list TracerCall :=
  let interval := (PI * 2) / INR points in
  let first := circle_first x y radius matrix in
  CMoveTo (px first) (py first) ::
  circle_loop x y radius interval points first points 1%nat (0 + interval).

Definition circle (fuel : nat) (x y radius : R) (points : nat)
    (matrix : option Matrix) (d : DashLine) : option DashLine :=
  run_calls fuel (circle_calls x y radius points matrix) d.

(** The calls [rect(x, y, width, height, matrix)] makes on the tracer. *)
Definition rect_calls (x y width height : R) (matrix : option Matrix)
    : list TracerCall :=
  let tr := fun p => match matrix with
                     | Some m => Matrix_apply m p
                     | None => p
                     end in
  let p0 := tr (mkPoint x y) in
  let p1 := tr (mkPoint (x + width) y) in
  let p2 := tr (mkPoint (x + width) (y + height)) in
  let p3 := tr (mkPoint x (y + height)) in
  [CMoveTo (px p0) (py p0);
   CLineTo (px p1) (py p1) false;
   CLineTo (px p2) (py p2) false;
   CLineTo (px p3) (py p3) false;
   CLineTo (px p0) (py p0) true].

Definition rect (fuel : nat) (x y width height : R)
    (matrix : option Matrix) (d : DashLine) : option DashLine :=
  run_calls fuel (rect_calls x y width height matrix) d.

(** ** Strides along the path *)

(** The stretch of travelled distance one iteration covers, with the
    [dashIndex] it ran with. *)
Record Span := mkSpan { sp_from : R; sp_to : R; sp_index : nat }.

(** The stretches a call's iterations cover, the first one starting at the
    distance [from] travelled before the call. *)
Fixpoint spans (from : R) (strides : list Stride) : list Span :=
  match strides with
  | [] => []
  | s :: rest =>
      mkSpan from (from + s_dist s) (s_index s)
      :: spans (from + s_dist s) rest
  end.

(** The [dashIndex] of the first stretch that holds the distance [t]. *)
Fixpoint index_at (sps : list Span) (t : R) : option nat :=
  match sps with
  | [] => None
  | sp :: rest =>
      if Rle_dec (sp_from sp) t then
        if Rlt_dec t (sp_to sp) then Some (sp_index sp)
        else index_at rest t
      else index_at rest t
  end.

(** Whether the surface draws at distance [t]: even entries of the pattern
    are dashes, odd ones gaps. *)
Definition drawn_at (sps : list Span) (t : R) : option bool :=
  option_map Nat.even (index_at sps t).

(** A chain of [lineTo] calls without the closing flag, within one
    subpath: the stretches of all its iterations and the tracer it
    leaves. *)
Fixpoint chain (fuel : nat) (targets : list Point) (d : DashLine)
    : option (list Span * DashLine) :=
  match targets with
  | [] => Some ([], d)
  | p :: rest =>
      match lineTo_strides fuel (px p) (py p) false d,
            lineTo fuel (px p) (py p) false d with
      | Some strides, Some d' =>
          match chain fuel rest d' with
          | Some (sps, d'') => Some (spans (lineLength d) strides ++ sps, d'')
          | None => None
          end
      | _, _ => None
      end
  end.

(** The length of the polyline through [targets], from [from] on. *)
Fixpoint path_length (from : Point) (targets : list Point) : R :=
  match targets with
  | [] => 0
  | p :: rest =>
      distance (px from) (py from) (px p) (py p) + path_length p rest
  end.

(** The lookup the tracer would make had it travelled [t]. *)
Definition phase (d : DashLine) (t : R) : nat * R :=
  locate (dash d) (dashSize d) (scale d) t (opt_offset (options d)).

(** The corners of the rectangle [rect(x, y, width, height)], in the order
    [rect] visits them after its [moveTo(x, y)]. *)
Definition rect_corners (x y width height : R) : list Point :=
  [mkPoint (x + width) y; mkPoint (x + width) (y + height);
   mkPoint x (y + height); mkPoint x y].

(** Phase continuity on a rectangle: with enough fuel, the four sides
    drawn as a chain after [moveTo(x, y)] and one straight line of the
    rectangle's perimeter both return, both have travelled the perimeter,
    and at every distance along it the surface draws for the one exactly
    when it draws for the other. *)
Definition phase_continuous (d : DashLine) (x y width height : R) : Prop :=
  let perimeter := 2 * (Rabs width + Rabs height) in
  exists bound, forall fuel, (bound <= fuel)%nat ->
    exists sides d4 line d1,
      chain fuel (rect_corners x y width height) (moveTo x y d)
        = Some (sides, d4) /\
      chain fuel [mkPoint (x + perimeter) y] (moveTo x y d)
        = Some (line, d1) /\
      lineLength d4 = perimeter /\ lineLength d1 = perimeter /\
      forall t, 0 <= t < perimeter ->
        drawn_at sides t = drawn_at line t /\ drawn_at line t <> None.

(** ** What the iterations of a call log *)

(** The indexes of consecutive strides: each the cyclic successor of the
    one before, the first being [i]. *)
Fixpoint cyclic_from (dash : list R) (i : nat) (strides : list Stride)
    : Prop :=
  match strides with
  | [] => True
  | s :: rest => s_index s = i /\ cyclic_from dash (next_index dash i) rest
  end.

(** The call an iteration that runs to the end of its stride makes on
    the surface: a [moveTo] over a gap, a [lineTo] along a dash. *)
Definition ordinary_call (s : Stride) : GfxCall :=
  if Nat.odd (s_index s)
  then GMoveTo (px (s_end s)) (py (s_end s))
  else GLineTo (px (s_end s)) (py (s_end s)).

(** The point at distance [t] from the cursor on the way to [(x, y)]. *)
Definition along (d : DashLine) (x y t : R) : Point :=
  let angle := JS.atan2 (y - py (cursor d)) (x - px (cursor d)) in
  mkPoint (px (cursor d) + cos angle * t) (py (cursor d) + sin angle * t).

(** What the iterations of a [lineTo] towards [(x, y)] measure, [done]
    being the distance consumed before the first of [strides] and
    [dashStart] what its pattern entry had given before: each iteration
    starts short of the target, consumes what is left of its scaled entry
    or what is left of the segment, whichever is less, and ends that far
    along the segment; the entries after the first are taken whole. *)
Fixpoint measured (d : DashLine) (x y done dashStart : R)
    (strides : list Stride) : Prop :=
  match strides with
  | [] => True
  | s :: rest =>
      let length := distance (px (cursor d)) (py (cursor d)) x y in
      done < length /\
      s_dist s
      = Rmin (length - done)
          (nth (s_index s) (dash d) 0 * scale d - dashStart) /\
      s_end s = along d x y (done + s_dist s) /\
      measured d x y (done + s_dist s) 0 rest
  end.

(** ** The closing seam *)

(** The test [remainingDistance <= dist] of an iteration, read off the
    stride it logged: the distance from the stride's end to [start] against
    the distance the stride consumes. *)
Definition seam_test (d : DashLine) (s : Stride) : bool :=
  if Rle_dec
       (distance (px (s_end s)) (py (s_end s)) (px (start d)) (py (start d)))
       (s_dist s)
  then true else false.

(** The point one full last entry of the pattern, scaled, before [start]
    on the segment from the cursor to [start]. *)
Definition seam_point (d : DashLine) : Point :=
  let angle :=
    JS.atan2 (py (start d) - py (cursor d)) (px (start d) - px (cursor d)) in
  let gap := last (dash d) 0 * scale d in
  mkPoint (px (start d) - cos angle * gap) (py (start d) - sin angle * gap).

(** The seam rule for the iterations [strides] of a closing [lineTo] and
    the calls [calls] they make on the surface.  The iterations run through
    the pattern from the entry the lookup gives, each the cyclic successor
    of the one before, and measure the segment from the cursor to [start].
    They are ordinary strides that all fail the test, each with its
    ordinary call, then one stride that passes it and ends the walk: that
    stride draws to the seam point, not to its own end, when its entry is
    a dash, and makes no call when it is a gap.  Only a walk from [start]
    itself has no stride at all, and makes no call. *)
Definition seam_rule (d : DashLine) (strides : list Stride)
    (calls : list GfxCall) : Prop :=
  cyclic_from (dash d) (fst (lookup d)) strides /\
  measured d (px (start d)) (py (start d)) 0 (snd (lookup d)) strides /\
  exists advances seam,
    strides = advances ++ seam /\
    Forall (fun s => seam_test d s = false /\ s_out s = Advance) advances /\
    ((seam = [] /\ advances = [] /\ cursor d = start d /\ calls = []) \/
     exists s,
       seam = [s] /\ seam_test d s = true /\
       s_out s
       = (if Nat.even (s_index s) then SeamDraw (seam_point d)
          else SeamStop) /\
       calls
       = map ordinary_call advances ++
         (if Nat.even (s_index s)
          then [GLineTo (px (seam_point d)) (py (seam_point d))]
          else [])).

(** Whenever a closing [lineTo] in vector mode returns, its iterations
    and the calls the surface has received from it follow the seam
    rule. *)
Definition seam_rule_holds (d : DashLine) : Prop :=
  forall fuel d',
    useTexture d = false ->
    lineTo fuel (px (start d)) (py (start d)) true d = Some d' ->
    exists strides calls,
      lineTo_strides fuel (px (start d)) (py (start d)) true d
        = Some strides /\
      seam_rule d strides calls /\
      graphics d' = graphics d ++ calls.

(** A closing [lineTo] in vector mode returns once the fuel suffices, and
    the calls of its strides reach the surface. *)
Definition closing_returns (d : DashLine) : Prop :=
  exists bound, forall fuel, (bound <= fuel)%nat ->
    exists strides,
      lineTo_strides fuel (px (start d)) (py (start d)) true d
        = Some strides /\
      lineTo fuel (px (start d)) (py (start d)) true d
        = Some (advance (flat_map stride_calls strides)
                  (px (start d)) (py (start d)) d).

(** ** What construction establishes *)

(** The pattern is not empty and [dashSize] is its sum: true of every
    tracer the constructor returns, and kept by [moveTo] and [lineTo]. *)
Definition well_formed (d : DashLine) : Prop :=
  dash d <> [] /\ dashSize d = period (dash d).

(** A tracer in vector mode whose pattern, scale and offset are those the
    data model allows, and that has not travelled backwards. *)
Definition vector_ready (d : DashLine) : Prop :=
  useTexture d = false /\ well_formed d /\ all_positive (dash d) /\
  0 < scale d /\ 0 <= lineLength d /\ 0 <= opt_offset (options d).

(** A tracer in vector mode, on the default pattern [[10, 5]], that has
    travelled [travelled] along the x axis since [moveTo(0, 0)]. *)
Definition sample (travelled : R) : DashLine :=
  mkDashLine [] travelled (mkPoint travelled 0) 1 false (mkPoint 0 0)
    (10 + 5) [10; 5] false (mergeOptions noOptions).

(** The tracer [new DashLine(graphics)] returns on a surface that has
    received no call yet. *)
Definition default_tracer : DashLine :=
  mkDashLine
    [GStroke (mkStroke (1 * 1) 16777215 1 false None None (1 / 2))]
    0 (mkPoint 0 0) 1 false (mkPoint 0 0) (10 + 5) [10; 5] false
    (mergeOptions noOptions).

(** The tracer [new DashLine(graphics, {offset: -20})] returns. *)
Definition shifted : DashLine :=
  mkDashLine
    [GStroke (mkStroke (1 * 1) 16777215 1 false None None (1 / 2))]
    0 (mkPoint 0 0) 1 false (mkPoint 0 0) (10 + 5) [10; 5] false
    (mergeOptions
       (mkOptions None None None None None None None None None
          (Some (-20)))).

(** The tracer [new DashLine(graphics, {useTexture: true})] returns, once
    its texture has been loaded and the stroke style applied. *)
Definition sample_texture : DashLine :=
  mkDashLine
    [GStroke (mkStroke (1 * 1) 16777215 1 true None None (1 / 2))]
    0 (mkPoint 0 0) 1 true (mkPoint 0 0)
    (10 + 5) [10; 5] true
    (mergeOptions
       (mkOptions None None None None None (Some true) None None None None)).

(** Options that give the pattern and nothing else. *)
Definition dashOnly (pattern : list R) : DashLineOptions :=
  mkOptions (Some pattern) None None None None None None None None None.

(** ** The curve flattener *)

Section Flatten.

(** Modelled from the spec: the flatness measures of the curve flattener.
    [bezierCurveTo], [quadraticCurveTo] and their subdivision helpers are
    declared in [dist/index.d.ts] and their code is in no source file.  The
    spec asks for "a flatness measure" and names one as an example, so the
    measures are left open here. *)
Variable flatnessCubic : Point -> Point -> Point -> Point -> R.
Variable flatnessQuadratic : Point -> Point -> Point -> R.

(** Modelled from the spec: the recursion-depth cap, whose value the spec
    does not give. *)
Variable maxDepth : nat.

(** Modelled from the spec: the point at parameter 1/2 between two
    control points, the step of de Casteljau's split. *)
Definition midpoint (a b : Point) : Point :=
  mkPoint ((px a + px b) / 2) ((py a + py b) / 2).

(** Modelled from the spec: recursive subdivision of a cubic.  "If below
    tolerance, emit the endpoint and stop; otherwise split via de Casteljau
    at the midpoint parameter and recurse on both halves", with a depth
    counter passed through the recursion; at the cap the current flatness
    is accepted. *)
Fixpoint subdivideCubic (depth : nat) (tolerance : R)
    (p0 p1 p2 p3 : Point) : list Point :=
  match depth with
  | O => [p3]
  | S depth' =>
      if Rlt_dec (flatnessCubic p0 p1 p2 p3) tolerance then [p3]
      else
        let p01 := midpoint p0 p1 in
        let p12 := midpoint p1 p2 in
        let p23 := midpoint p2 p3 in
        let p012 := midpoint p01 p12 in
        let p123 := midpoint p12 p23 in
        let m := midpoint p012 p123 in
        subdivideCubic depth' tolerance p0 p01 p012 m ++
        subdivideCubic depth' tolerance m p123 p23 p3
  end.

(** Modelled from the spec: the same subdivision for a quadratic. *)
Fixpoint subdivideQuadratic (depth : nat) (tolerance : R)
    (p0 p1 p2 : Point) : list Point :=
  match depth with
  | O => [p2]
  | S depth' =>
      if Rlt_dec (flatnessQuadratic p0 p1 p2) tolerance then [p2]
      else
        let p01 := midpoint p0 p1 in
        let p12 := midpoint p1 p2 in
        let m := midpoint p01 p12 in
        subdivideQuadratic depth' tolerance p0 p01 m ++
        subdivideQuadratic depth' tolerance m p12 p2
  end.

(** Modelled from the spec: [flattenCubic(p0, p1, p2, p3, tolerance)], the
    points from [p0] (excluded) to [p3] (included). *)
Definition flattenCubic (p0 p1 p2 p3 : Point) (tolerance : R) : list Point :=
  subdivideCubic maxDepth tolerance p0 p1 p2 p3.

(** Modelled from the spec: [flattenQuadratic(p0, p1, p2, tolerance)]. *)
Definition flattenQuadratic (p0 p1 p2 : Point) (tolerance : R)
    : list Point :=
  subdivideQuadratic maxDepth tolerance p0 p1 p2.

End Flatten.

(** ** The other composers *)

(** [matrix.apply(p, p)] when a matrix is supplied. *)
Definition transformPoint (matrix : option Matrix) (p : Point) : Point :=
  match matrix with
  | Some m => Matrix_apply m p
  | None => p
  end.

(** [getPointOnArc(cx, cy, radius, angle, matrix)], [angle] in degrees. *)
Definition getPointOnArc (cx cy radius angle : R) (matrix : option Matrix)
    : Point :=
  let radian := angle * PI / 180 in
  let x := cx + cos radian * radius in
  let y := cy + sin radian * radius in
  match matrix with
  | Some m => Matrix_apply m (mkPoint x y)
  | None => mkPoint x y
  end.

(** The [for (let i = 1; i <= segments; i++)] loop of [drawDashedArc] with
    [todo] iterations left. *)
Fixpoint arc_loop (cx cy radius startAngle angleStep : R)
    (matrix : option Matrix) (todo i : nat) : list TracerCall :=
  match todo with
  | O => []
  | S todo' =>
      let nextPoint :=
        getPointOnArc cx cy radius (startAngle + INR i * angleStep) matrix in
      CLineTo (px nextPoint) (py nextPoint) false ::
      arc_loop cx cy radius startAngle angleStep matrix todo' (S i)
  end.

(** The calls [drawDashedArc] makes on the tracer; [segments] is 10. *)
Definition drawDashedArc_calls (cx cy radius startAngle endAngle : R)
    (matrix : option Matrix) : list TracerCall :=
  let segments := 10%nat in
  let angleStep := (endAngle - startAngle) / INR segments in
  arc_loop cx cy radius startAngle angleStep matrix segments 1.

(** The radius [roundRect] works with:
    [Math.min(cornerRadius, Math.min(width, height) / 2)], [cornerRadius]
    being 10 when the argument is absent. *)
Definition clampRadius (width height : R) (cornerRadius : option R) : R :=
  Rmin (or_default cornerRadius 10) (Rmin width height / 2).

(** The calls [roundRect(x, y, width, height, cornerRadius, matrix)] makes
    on the tracer. *)
Definition roundRect_calls (x y width height : R) (cornerRadius : option R)
    (matrix : option Matrix) : list TracerCall :=
  let r := clampRadius width height cornerRadius in
  let start := transformPoint matrix (mkPoint (x + r) y) in
  let top := transformPoint matrix (mkPoint (x + width - r) y) in
  let right := transformPoint matrix (mkPoint (x + width) (y + height - r)) in
  let bottom := transformPoint matrix (mkPoint (x + r) (y + height)) in
  let left := transformPoint matrix (mkPoint x (y + r)) in
  [CMoveTo (px start) (py start); CLineTo (px top) (py top) false] ++
  drawDashedArc_calls (x + width - r) (y + r) r (-90) 0 matrix ++
  [CLineTo (px right) (py right) false] ++
  drawDashedArc_calls (x + width - r) (y + height - r) r 0 90 matrix ++
  [CLineTo (px bottom) (py bottom) false] ++
  drawDashedArc_calls (x + r) (y + height - r) r 90 180 matrix ++
  [CLineTo (px left) (py left) false] ++
  drawDashedArc_calls (x + r) (y + r) r 180 270 matrix ++
  [CLineTo (px start) (py start) true].

Definition roundRect (fuel : nat) (x y width height : R)
    (cornerRadius : option R) (matrix : option Matrix) (d : DashLine)
    : option DashLine :=
  run_calls fuel (roundRect_calls x y width height cornerRadius matrix) d.

(** The point [ellipse] samples at parameter [i]. *)
Definition ellipse_point (x y radiusX radiusY : R) (matrix : option Matrix)
    (i : R) : Point :=
  transformPoint matrix (mkPoint (x - radiusX * sin i) (y - radiusY * cos i)).

(** The [for (let i = 0; i < Math.PI * 2; i += interval)] loop of
    [ellipse]; [None] when the fuel runs out before [i] reaches a full
    turn. *)
Fixpoint ellipse_loop (fuel : nat) (x y radiusX radiusY interval : R)
    (matrix : option Matrix) (i : R) : option (list TracerCall) :=
  if Rlt_dec i (PI * 2) then
    match fuel with
    | O => None
    | S fuel' =>
        let p := ellipse_point x y radiusX radiusY matrix i in
        option_map
          (cons (if Req_dec_T i 0 then CMoveTo (px p) (py p)
                 else CLineTo (px p) (py p) false))
          (ellipse_loop fuel' x y radiusX radiusY interval matrix
             (i + interval))
    end
  else Some [].

(** The calls [ellipse(x, y, radiusX, radiusY, points, matrix)] makes on
    the tracer, for a whole number of [points].  With [points = 0] the
    interval is [Infinity]: the loop runs once, for [i = 0]. *)
Definition ellipse_calls (fuel : nat) (x y radiusX radiusY : R)
    (points : nat) (matrix : option Matrix) : option (list TracerCall) :=
  let first := ellipse_point x y radiusX radiusY matrix 0 in
  let closing := [CLineTo (px first) (py first) true] in
  match points with
  | O => Some (CMoveTo (px first) (py first) :: closing)
  | S _ =>
      option_map (fun calls => calls ++ closing)
        (ellipse_loop fuel x y radiusX radiusY (PI * 2 / INR points)
           matrix 0)
  end.

Definition ellipse (fuel : nat) (x y radiusX radiusY : R) (points : nat)
    (matrix : option Matrix) (d : DashLine) : option DashLine :=
  match ellipse_calls fuel x y radiusX radiusY points matrix with
  | Some calls => run_calls fuel calls d
  | None => None
  end.

(** The two shapes of the argument of [poly]: coordinates in a row, or
    points. *)
Inductive PolyPoints :=
| Numbers (coordinates : list R)
| Points (points : list Point).

(** What [poly] does before it returns: the calls it makes on the tracer;
    a [TypeError]; or, for an odd number of coordinates, the read of a
    coordinate that is not there, which this model of numbers does not
    follow. *)
Inductive PolyOutcome :=
| PolyCalls (calls : list TracerCall)
| PolyThrows (e : JsError)
| PolyMissingCoordinate.

(** The loop [for (let i = 2; i < points.length; i += 2)] over what is
    left of the coordinates; the flag [i === points.length - 2] is set on
    the last pair. *)
Fixpoint poly_numbers_loop (matrix : option Matrix) (rest : list R)
    : option (list TracerCall) :=
  match rest with
  | [] => Some []
  | [_] => None
  | x :: y :: rest' =>
      let p := transformPoint matrix (mkPoint x y) in
      option_map
        (cons (CLineTo (px p) (py p)
                 (match rest' with [] => true | _ => false end)))
        (poly_numbers_loop matrix rest')
  end.

(** The loop [for (let i = 1; i < points.length; i++)] over what is left
    of the points; the flag [i === points.length - 1] is set on the last
    one. *)
Fixpoint poly_points_loop (matrix : option Matrix) (rest : list Point)
    : list TracerCall :=
  match rest with
  | [] => []
  | q :: rest' =>
      let p := transformPoint matrix q in
      CLineTo (px p) (py p) (match rest' with [] => true | _ => false end)
      :: poly_points_loop matrix rest'
  end.

(** [poly(points, matrix)].  An empty array has no [points[0]]: its
    [typeof] is not ["number"], and reading its [x] throws before any
    call is made. *)
Definition poly_calls (points : PolyPoints) (matrix : option Matrix)
    : PolyOutcome :=
  match points with
  | Numbers [] | Points [] => PolyThrows TypeError
  | Numbers [_] => PolyMissingCoordinate
  | Numbers (x :: y :: rest) =>
      let p := transformPoint matrix (mkPoint x y) in
      match poly_numbers_loop matrix rest with
      | Some calls => PolyCalls (CMoveTo (px p) (py p) :: calls)
      | None => PolyMissingCoordinate
      end
  | Points (q :: rest) =>
      let p := transformPoint matrix q in
      PolyCalls (CMoveTo (px p) (py p) :: poly_points_loop matrix rest)
  end.

(** [poly] on a tracer.  [Normal None] stands for a run this model does
    not follow to its end: fuel that does not suffice, or a missing
    coordinate. *)
Definition poly (fuel : nat) (points : PolyPoints) (matrix : option Matrix)
    (d : DashLine) : Completion (option DashLine) :=
  match poly_calls points matrix with
  | PolyCalls calls => Normal (run_calls fuel calls d)
  | PolyThrows e => Throw e
  | PolyMissingCoordinate => Normal None
  end.

(** ** The dash texture *)

(** A call on the 2d context of the canvas [getTexture] paints. *)
Inductive CanvasOp :=
| CvMoveTo (x y : R)
| CvLineTo (x y : R).

(** The loop [for (let i = 0; i < options.dash.length; i += 2)] of
    [getTexture], [x] being where the pen stands and [rest] the entries
    from [i] on. *)
Fixpoint texture_path (y x : R) (rest : list R) : list CanvasOp :=
  match rest with
  | [] => []
  | [on] => [CvLineTo (x + on) y]
  | on :: off :: rest' =>
      CvLineTo (x + on) y :: CvMoveTo (x + on + off) y
      :: texture_path y (x + on + off) rest'
  end.

(** What [getTexture] paints: the pen settings and the path it strokes.
    The size of the canvas is left out. *)
Record Texture := mkTexture {
  tex_alpha : R;
  tex_lineWidth : R;
  tex_path : list CanvasOp
}.

(** [DashLine.dashTextureCache].  Its keys are [options.dash.toString()];
    two patterns have the same string exactly when they are the same list
    of numbers, so the pattern itself is the key here.  An assignment puts
    the entry in front, where a read finds it first. *)
Definition TextureCache := list (list R * Texture).

Fixpoint cache_get (key : list R) (cache : TextureCache) : option Texture :=
  match cache with
  | [] => None
  | (k, t) :: rest =>
      if list_eq_dec Req_dec_T key k then Some t else cache_get key rest
  end.

(** The bitmap a cache miss paints. *)
Definition paintTexture (o : MergedOptions) : Texture :=
  mkTexture (opt_alpha o) (opt_width o)
    (CvMoveTo 0 (opt_width o / 2)
     :: texture_path (opt_width o / 2) 0 (opt_dash o)).

(** [getTexture(options, dashSize)] with the cache passed in and out;
    [context] tells whether [canvas.getContext("2d")] answers. *)
Definition getTexture (context : bool) (cache : TextureCache)
    (o : MergedOptions) : option Texture * TextureCache :=
  match cache_get (opt_dash o) cache with
  | Some t => (Some t, cache)
  | None =>
      if context
      then (Some (paintTexture o), (opt_dash o, paintTexture o) :: cache)
      else (None, cache)
  end.

(** Whether the stroke of a canvas path covers the abscissa [t], the pen
    standing at [pen]. *)
Fixpoint inked (pen : R) (path : list CanvasOp) (t : R) : bool :=
  match path with
  | [] => false
  | CvMoveTo x _ :: rest => inked x rest t
  | CvLineTo x _ :: rest =>
      (if Rle_dec pen t then if Rlt_dec t x then true else false else false)
      || inked x rest t
  end.

(** ** Measures of a call's strides and of the surface log *)

(** The distance the strides of one call consume. *)
Fixpoint total_dist (strides : list Stride) : R :=
  match strides with
  | [] => 0
  | s :: rest => s_dist s + total_dist rest
  end.

(** The point at distance [t] along the polyline from [from] through
    [targets]: on the first segment when [t] does not exceed its length,
    further on otherwise; past the end, the last target. *)
Fixpoint point_at (from : Point) (targets : list Point) (t : R) : Point :=
  match targets with
  | [] => from
  | p :: rest =>
      let length := distance (px from) (py from) (px p) (py p) in
      if Rle_dec t length then
        let angle := JS.atan2 (py p - py from) (px p - px from) in
        mkPoint (px from + cos angle * t) (py from + sin angle * t)
      else point_at p rest (t - length)
  end.

(** The call that ends a stretch of a polyline travelled from the
    distance [travelled] on: to the point of the polyline where the
    stretch ends, a [lineTo] when the stretch lies in a dash, a [moveTo]
    when it lies in a gap. *)
Definition span_call (from : Point) (targets : list Point) (travelled : R)
    (sp : Span) : GfxCall :=
  let p := point_at from targets (sp_to sp - travelled) in
  if Nat.even (sp_index sp) then GLineTo (px p) (py p)
  else GMoveTo (px p) (py p).

(** A call that moves or draws, and nothing else. *)
Definition is_path_call (c : GfxCall) : bool :=
  match c with
  | GMoveTo _ _ | GLineTo _ _ => true
  | _ => false
  end.

(** The targets of the [lineTo] calls of a call stream. *)
Definition lineTo_targets (calls : list TracerCall) : list Point :=
  flat_map (fun c => match c with
                     | CLineTo x y _ => [mkPoint x y]
                     | CMoveTo _ _ => []
                     end) calls.

(** The [lineTo] calls towards [targets], each with its closing flag. *)
Definition lineTo_calls (targets : list (Point * bool)) : list TracerCall :=
  map (fun t => CLineTo (px (fst t)) (py (fst t)) (snd t)) targets.

(** The coordinates of points in a row, as the first form of the argument
    of [poly] has them. *)
Definition coordinates_of (points : list Point) : list R :=
  flat_map (fun p => [px p; py p]) points.

(** A [lineTo] call without the closing flag; a [moveTo] has no flag. *)
Definition is_open_call (c : TracerCall) : bool :=
  match c with
  | CMoveTo _ _ => true
  | CLineTo _ _ cp => negb cp
  end.

(** * Properties *)

(** ** The remainder *)

Lemma rem_nonneg (a b : R) :
  0 <= a -> 0 < b ->
  exists p, JS.rem a b = Some p /\ 0 <= p < b /\
            p = a - b * IZR (Zfloor (a / b)).
Proof.
  intros Ha Hb. unfold JS.rem, JS.trunc.
  destruct (Req_dec_T b 0) as [E|_]; [lra|].
  assert (Hq : 0 <= a / b).
  { apply Rmult_le_pos; [lra|]. left. now apply Rinv_0_lt_compat. }
  destruct (Rle_dec 0 (a / b)) as [_|N]; [|contradiction].
  eexists; split; [reflexivity|]. split; [|reflexivity].
  pose proof (Zfloor_bound (a / b)) as [Hlo Hhi].
  assert (Hab : a = b * (a / b)) by (field; lra).
  split.
  - apply Rmult_le_compat_l with (r := b) in Hlo; lra.
  - apply Rmult_lt_compat_l with (r := b) in Hhi; lra.
Qed.

(** A remainder is determined by any representation [a = p + b * k]. *)
Lemma rem_unique (a b p : R) (k : Z) :
  0 <= a -> 0 < b -> 0 <= p < b -> a = p + b * IZR k ->
  JS.rem a b = Some p.
Proof.
  intros Ha Hb Hp E.
  destruct (rem_nonneg a b Ha Hb) as (q & Hq & _ & Eq).
  rewrite Hq. f_equal. rewrite Eq.
  assert (Zfloor (a / b) = k) as ->; [|lra].
  apply Zfloor_eq.
  assert (a / b = IZR k + p / b) as -> by (rewrite E; field; lra).
  assert (0 <= p / b < 1); [|lra].
  split.
  - apply Rmult_le_pos; [lra|]. left. now apply Rinv_0_lt_compat.
  - apply Rmult_lt_reg_r with b; [lra|].
    replace (p / b * b) with p by (field; lra). lra.
Qed.

(** The remainder of a negative dividend is negative or zero. *)
Lemma rem_neg_unique (a b p : R) (k : Z) :
  a < 0 -> 0 < b -> - b < p <= 0 -> a = p + b * IZR k ->
  JS.rem a b = Some p.
Proof.
  intros Ha Hb Hp E. unfold JS.rem, JS.trunc.
  destruct (Req_dec_T b 0) as [E0|_]; [lra|].
  assert (Hq : a / b < 0).
  { apply Rmult_lt_reg_r with b; [assumption|].
    replace (a / b * b) with a by (field; lra). lra. }
  destruct (Rle_dec 0 (a / b)) as [N|_]; [lra|].
  assert (Zceil (a / b) = k) as ->; [|f_equal; lra].
  apply Zceil_eq.
  assert (a / b = IZR k + p / b) as -> by (rewrite E; field; lra).
  assert (-1 < p / b <= 0); [|lra].
  split.
  - apply Rmult_lt_reg_r with b; [assumption|].
    replace (p / b * b) with p by (field; lra). lra.
  - apply Rmult_le_reg_r with b; [assumption|].
    replace (p / b * b) with p by (field; lra). lra.
Qed.

(** ** Distances and directions *)

Lemma distance_same (x y : R) : distance x y x y = 0.
Proof.
  unfold distance.
  replace ((x - x) ^ 2 + (y - y) ^ 2) with 0 by ring.
  apply sqrt_0.
Qed.

Lemma distance_horizontal (x y x' : R) : distance x y x' y = Rabs (x' - x).
Proof.
  unfold distance.
  replace ((x' - x) ^ 2 + (y - y) ^ 2) with (Rsqr (x' - x))
    by (unfold Rsqr; ring).
  apply sqrt_Rsqr_abs.
Qed.

Lemma distance_vertical (x y y' : R) : distance x y x y' = Rabs (y' - y).
Proof.
  unfold distance.
  replace ((x - x) ^ 2 + (y' - y) ^ 2) with (Rsqr (y' - y))
    by (unfold Rsqr; ring).
  apply sqrt_Rsqr_abs.
Qed.

Lemma distance_nonneg (x1 y1 x2 y2 : R) : 0 <= distance x1 y1 x2 y2.
Proof. apply sqrt_pos. Qed.

Lemma distance_zero (x1 y1 x2 y2 : R) :
  distance x1 y1 x2 y2 <= 0 -> x1 = x2 /\ y1 = y2.
Proof.
  unfold distance. intros H.
  pose proof (pow2_ge_0 (x2 - x1)) as Hx.
  pose proof (pow2_ge_0 (y2 - y1)) as Hy.
  pose proof (sqrt_pos ((x2 - x1) ^ 2 + (y2 - y1) ^ 2)) as Hpos.
  assert (E : sqrt ((x2 - x1) ^ 2 + (y2 - y1) ^ 2) = 0) by lra.
  apply sqrt_eq_0 in E; [|lra].
  assert (Ex : Rsqr (x2 - x1) = 0) by (unfold Rsqr; lra).
  assert (Ey : Rsqr (y2 - y1) = 0) by (unfold Rsqr; lra).
  apply Rsqr_0_uniq in Ex. apply Rsqr_0_uniq in Ey. lra.
Qed.

Lemma eqb_refl (x : R) : JS.eqb x x = true.
Proof. unfold JS.eqb. destruct (Req_dec_T x x); congruence. Qed.

Lemma atan2_same (x y : R) : JS.atan2 (y - y) (x - x) = 0.
Proof.
  unfold JS.atan2.
  destruct (Rlt_dec 0 (x - x)); [lra|].
  destruct (Rlt_dec (x - x) 0); [lra|].
  destruct (Rlt_dec 0 (y - y)); [lra|].
  destruct (Rlt_dec (y - y) 0); [lra|].
  reflexivity.
Qed.

Lemma atan2_right (x : R) : 0 < x -> JS.atan2 0 x = 0.
Proof.
  intros Hx. unfold JS.atan2. destruct (Rlt_dec 0 x); [|lra].
  replace (0 / x) with 0 by (field; lra). apply atan_0.
Qed.

Lemma atan2_left (x : R) : x < 0 -> JS.atan2 0 x = PI.
Proof.
  intros Hx. unfold JS.atan2.
  destruct (Rlt_dec 0 x); [lra|]. destruct (Rlt_dec x 0); [|lra].
  destruct (Rle_dec 0 0); [|lra].
  replace (0 / x) with 0 by (field; lra). rewrite atan_0. lra.
Qed.

Lemma hyp_factor (dx dy : R) :
  dx <> 0 ->
  sqrt (dx ^ 2 + dy ^ 2) = Rabs dx * sqrt (1 + Rsqr (dy / dx)).
Proof.
  intros Hdx.
  replace (dx ^ 2 + dy ^ 2) with (Rsqr dx * (1 + Rsqr (dy / dx)))
    by (unfold Rsqr; field; assumption).
  rewrite sqrt_mult.
  - now rewrite sqrt_Rsqr_abs.
  - apply Rle_0_sqr.
  - pose proof (Rle_0_sqr (dy / dx)). lra.
Qed.

Lemma sqrt_1_sqr_pos (t : R) : 0 < sqrt (1 + Rsqr t).
Proof. apply sqrt_lt_R0. pose proof (Rle_0_sqr t). lra. Qed.

(** [(cos, sin)] of [atan2(dy, dx)] scaled by the length gives back
    [(dx, dy)]. *)
Lemma direction (dx dy : R) :
  cos (JS.atan2 dy dx) * sqrt (dx ^ 2 + dy ^ 2) = dx /\
  sin (JS.atan2 dy dx) * sqrt (dx ^ 2 + dy ^ 2) = dy.
Proof.
  unfold JS.atan2.
  destruct (Rlt_dec 0 dx) as [Hpos|Hnpos].
  - rewrite hyp_factor by lra. rewrite Rabs_pos_eq by lra.
    rewrite cos_atan, sin_atan.
    pose proof (sqrt_1_sqr_pos (dy / dx)).
    split; field; lra.
  - destruct (Rlt_dec dx 0) as [Hneg|Hnneg].
    + rewrite hyp_factor by lra. rewrite Rabs_left by lra.
      pose proof (sqrt_1_sqr_pos (dy / dx)).
      destruct (Rle_dec 0 dy).
      * rewrite neg_cos, neg_sin, cos_atan, sin_atan.
        split; field; lra.
      * rewrite cos_minus, sin_minus, cos_PI, sin_PI, cos_atan, sin_atan.
        split; field; lra.
    + assert (dx = 0) as -> by lra.
      replace (0 ^ 2 + dy ^ 2) with (Rsqr dy) by (unfold Rsqr; ring).
      rewrite sqrt_Rsqr_abs.
      destruct (Rlt_dec 0 dy).
      * rewrite cos_PI2, sin_PI2, Rabs_pos_eq by lra. lra.
      * destruct (Rlt_dec dy 0).
        -- rewrite cos_neg, sin_neg, cos_PI2, sin_PI2, Rabs_left by lra.
           lra.
        -- assert (dy = 0) as -> by lra.
           rewrite cos_0, sin_0, Rabs_R0. lra.
Qed.

(** A point [r] behind [(sx, sy)] along a unit direction is at distance
    [r] from it. *)
Lemma distance_on_ray (sx sy c sn r : R) :
  Rsqr sn + Rsqr c = 1 -> 0 <= r ->
  distance (sx - r * c) (sy - r * sn) sx sy = r.
Proof.
  intros Hunit Hr. unfold distance.
  replace ((sx - (sx - r * c)) ^ 2 + (sy - (sy - r * sn)) ^ 2)
    with (Rsqr r * (Rsqr sn + Rsqr c)) by (unfold Rsqr; ring).
  rewrite Hunit, Rmult_1_r. now apply sqrt_Rsqr.
Qed.

(** ** The pattern's cumulative lengths *)

Lemma fold_left_Rplus (l : list R) (a : R) :
  fold_left Rplus l a = a + fold_right Rplus 0 l.
Proof.
  revert a. induction l as [|x l IH]; intros a; simpl; [lra|].
  rewrite IH. lra.
Qed.

Lemma seg_start_0 (dash : list R) (s : R) : seg_start dash s 0 = 0.
Proof. reflexivity. Qed.

Lemma seg_start_S (len : R) (dash : list R) (s : R) (j : nat) :
  seg_start (len :: dash) s (S j) = len * s + seg_start dash s j.
Proof. reflexivity. Qed.

Lemma seg_start_nonneg (dash : list R) (s : R) (j : nat) :
  all_positive dash -> 0 < s -> 0 <= seg_start dash s j.
Proof.
  intros Hpos Hs. revert j.
  induction Hpos as [|len dash Hlen Hpos IH]; intros [|j];
    try (unfold seg_start; simpl; lra).
  rewrite seg_start_S. specialize (IH j).
  pose proof (Rmult_lt_0_compat _ _ Hlen Hs). lra.
Qed.

Lemma seg_start_total (dash : list R) (s : R) :
  dash <> [] -> seg_start dash s (length dash) = period dash * s.
Proof.
  destruct dash as [|a rest]; [congruence|intros _].
  unfold period. simpl JS.val. rewrite fold_left_Rplus.
  unfold seg_start. rewrite firstn_all.
  assert (G : forall l : list R,
    fold_right Rplus 0 (map (fun len => len * s) l)
    = fold_right Rplus 0 l * s).
  { induction l as [|x l IH]; simpl; [lra|]. rewrite IH. lra. }
  rewrite G. simpl. lra.
Qed.

Lemma seg_start_succ (dash : list R) (s : R) (i : nat) :
  (i < length dash)%nat ->
  seg_start dash s (S i) = seg_start dash s i + nth i dash 0 * s.
Proof.
  revert i. induction dash as [|len dash IH]; intros i Hi;
    [simpl in Hi; lia|].
  destruct i as [|i].
  - unfold seg_start. simpl. lra.
  - rewrite (seg_start_S len dash s (S i)), (seg_start_S len dash s i).
    simpl in Hi. rewrite IH by lia. simpl nth. lra.
Qed.

Lemma seg_start_bound (dash : list R) (s : R) (j : nat) :
  all_positive dash -> 0 < s -> (j <= length dash)%nat ->
  seg_start dash s j <= seg_start dash s (length dash).
Proof.
  intros Hpos Hs. revert j.
  induction Hpos as [|len dash Hlen Hpos IH]; intros j Hj.
  - simpl in Hj. replace j with 0%nat by lia. simpl. lra.
  - destruct j as [|j].
    + rewrite seg_start_0.
      apply seg_start_nonneg; [now constructor|assumption].
    + simpl length. rewrite !seg_start_S. simpl in Hj.
      specialize (IH j ltac:(lia)). lra.
Qed.

Lemma nth_positive (dash : list R) (s : R) (i : nat) :
  all_positive dash -> 0 < s -> (i < length dash)%nat ->
  0 < nth i dash 0 * s.
Proof.
  intros Hpos Hs Hi. apply Rmult_lt_0_compat; [|assumption].
  pose proof (proj1 (Forall_forall _ _) Hpos) as Hall.
  apply Hall. now apply nth_In.
Qed.

(** Every point of one scaled period lies in exactly one segment. *)
Lemma seg_cover (dash : list R) (s q : R) :
  all_positive dash -> 0 < s ->
  0 <= q < seg_start dash s (length dash) ->
  exists j, (j < length dash)%nat /\
            seg_start dash s j <= q < seg_start dash s j + nth j dash 0 * s.
Proof.
  intros Hpos Hs. revert q.
  induction Hpos as [|len dash Hlen Hpos IH]; intros q Hq.
  - unfold seg_start in Hq; simpl in Hq. lra.
  - simpl length in Hq. rewrite seg_start_S in Hq.
    destruct (Rlt_dec q (len * s)) as [Hlt|Hge].
    + exists 0%nat. rewrite seg_start_0. simpl. split; [lia|lra].
    + destruct (IH (q - len * s)) as (j & Hj & Hint); [lra|].
      exists (S j). rewrite seg_start_S. simpl. split; [lia|lra].
Qed.

(** ** The phase lookup *)

(** The loop answers the segment whose half-open interval holds [place]. *)
Lemma locate_from_spec (s p : R) (rest : list R) (i j : nat) (dashX : R) :
  all_positive rest -> 0 < s -> (j < length rest)%nat ->
  dashX + seg_start rest s j <= p
    < dashX + seg_start rest s j + nth j rest 0 * s ->
  locate_from s (Some p) rest i dashX
  = ((i + j)%nat, p - dashX - seg_start rest s j).
Proof.
  intros Hpos Hs. revert i j dashX.
  induction Hpos as [|len rest Hlen Hpos IH]; intros i j dashX Hj Hint.
  - simpl in Hj. lia.
  - simpl locate_from. unfold JS.ltb. destruct j as [|j].
    + rewrite seg_start_0 in *. simpl nth in Hint.
      destruct (Rlt_dec p (dashX + len * s)) as [_|N]; [|lra].
      simpl JS.val. f_equal; [lia|lra].
    + rewrite seg_start_S in *. simpl nth in Hint.
      pose proof (seg_start_nonneg rest s j Hpos Hs).
      destruct (Rlt_dec p (dashX + len * s)) as [L|_]; [lra|].
      rewrite (IH (S i) j); [|simpl in Hj; lia|lra].
      f_equal; [lia|lra].
Qed.

(** The place a lookup starts from, for a pattern with positive entries. *)
Lemma place_of_spec (dash : list R) (s lineLength offset : R) :
  dash <> [] -> all_positive dash -> 0 < s ->
  0 <= lineLength -> 0 <= offset ->
  exists p,
    place_of (period dash) s lineLength offset = Some p /\
    0 <= p < seg_start dash s (length dash) /\
    p = (lineLength + offset)
        - period dash * s
          * IZR (Zfloor ((lineLength + offset) / (period dash * s))).
Proof.
  intros Hne Hpos Hs HL Ho.
  assert (Hper : 0 < period dash * s).
  { rewrite <- seg_start_total by assumption.
    destruct dash as [|a rest]; [congruence|].
    simpl length. rewrite seg_start_S.
    inversion Hpos as [|? ? Ha Hrest]; subst.
    pose proof (seg_start_nonneg rest s (length rest) Hrest Hs).
    pose proof (Rmult_lt_0_compat _ _ Ha Hs). lra. }
  destruct (rem_nonneg (lineLength + offset) (period dash * s))
    as (p & Hp & Hrange & Ep); [lra|assumption|].
  exists p. unfold place_of. rewrite seg_start_total by assumption.
  now repeat split.
Qed.

Section PhaseFacts.

Variable dash_ : list R.
Variable scale_ : R.
Variable offset_ : R.
Hypothesis dash_nonempty : dash_ <> [].
Hypothesis dash_positive : all_positive dash_.
Hypothesis scale_positive : 0 < scale_.
Hypothesis offset_nonneg : 0 <= offset_.

Lemma total_is_last :
  seg_start dash_ scale_ (length dash_) = scaled_period dash_ scale_.
Proof. now apply seg_start_total. Qed.

Lemma length_positive : (0 < length dash_)%nat.
Proof. destruct dash_; [congruence|simpl; lia]. Qed.

Lemma total_positive : 0 < scaled_period dash_ scale_.
Proof.
  rewrite <- total_is_last.
  pose proof length_positive as Hl.
  pose proof (seg_start_succ dash_ scale_ 0 Hl) as E.
  rewrite seg_start_0 in E.
  pose proof (nth_positive dash_ scale_ 0 dash_positive scale_positive Hl).
  pose proof (seg_start_bound dash_ scale_ 1 dash_positive scale_positive
                ltac:(lia)).
  lra.
Qed.

(** Any way of writing the travelled distance as a place in segment [j]
    plus whole periods gives the lookup's answer. *)
Lemma locate_intro (L p : R) (k : Z) (j : nat) :
  0 <= L -> L + offset_ = p + scaled_period dash_ scale_ * IZR k ->
  (j < length dash_)%nat ->
  seg_start dash_ scale_ j <= p
    < seg_start dash_ scale_ j + nth j dash_ 0 * scale_ ->
  locate dash_ (period dash_) scale_ L offset_
  = (j, p - seg_start dash_ scale_ j).
Proof.
  intros HL E Hj Hint. unfold locate, place_of.
  fold (scaled_period dash_ scale_).
  pose proof (seg_start_nonneg dash_ scale_ j dash_positive scale_positive).
  pose proof (seg_start_bound dash_ scale_ (S j) dash_positive
                scale_positive ltac:(lia)) as Hb.
  rewrite seg_start_succ, total_is_last in Hb by assumption.
  rewrite (rem_unique (L + offset_) (scaled_period dash_ scale_) p k);
    [|lra|apply total_positive|lra|assumption].
  rewrite (locate_from_spec scale_ p dash_ 0 j 0) by (assumption || lra).
  f_equal. lra.
Qed.

(** The lookup's answer always has that form. *)
Lemma locate_char (L : R) :
  0 <= L ->
  exists (p : R) (k : Z) (j : nat),
    L + offset_ = p + scaled_period dash_ scale_ * IZR k /\
    (j < length dash_)%nat /\
    seg_start dash_ scale_ j <= p
      < seg_start dash_ scale_ j + nth j dash_ 0 * scale_ /\
    locate dash_ (period dash_) scale_ L offset_
    = (j, p - seg_start dash_ scale_ j).
Proof.
  intros HL.
  destruct (place_of_spec dash_ scale_ L offset_) as (p & Hp & Hrange & Ep);
    try assumption.
  destruct (seg_cover dash_ scale_ p dash_positive scale_positive Hrange)
    as (j & Hj & Hint).
  exists p, (Zfloor ((L + offset_) / (period dash_ * scale_))), j.
  assert (E : L + offset_
              = p + scaled_period dash_ scale_
                    * IZR (Zfloor ((L + offset_) / (period dash_ * scale_))))
    by (unfold scaled_period; lra).
  repeat split; try assumption; try lra.
  now apply locate_intro
    with (k := Zfloor ((L + offset_) / (period dash_ * scale_))).
Qed.

(** Moving on inside the current entry keeps the index. *)
Lemma shift_within (L u : R) (i : nat) (ds : R) :
  0 <= L -> locate dash_ (period dash_) scale_ L offset_ = (i, ds) ->
  0 <= u -> ds + u < nth i dash_ 0 * scale_ ->
  locate dash_ (period dash_) scale_ (L + u) offset_ = (i, ds + u).
Proof.
  intros HL Hloc Hu Hlt.
  destruct (locate_char L HL) as (p & k & j & E & Hj & Hint & Hl).
  rewrite Hl in Hloc. injection Hloc as <- <-.
  rewrite (locate_intro (L + u) (p + u) k j); try assumption; try lra.
  f_equal. lra.
Qed.

(** Moving on to the end of the current entry enters the next one. *)
Lemma shift_boundary (L u : R) (i : nat) (ds : R) :
  0 <= L -> locate dash_ (period dash_) scale_ L offset_ = (i, ds) ->
  0 <= u -> ds + u = nth i dash_ 0 * scale_ ->
  locate dash_ (period dash_) scale_ (L + u) offset_
  = (next_index dash_ i, 0).
Proof.
  intros HL Hloc Hu Heq.
  destruct (locate_char L HL) as (p & k & j & E & Hj & Hint & Hl).
  rewrite Hl in Hloc. injection Hloc as <- <-.
  pose proof (seg_start_succ dash_ scale_ j Hj) as Hs.
  unfold next_index. destruct (Nat.eqb (S j) (length dash_)) eqn:Hlast.
  - apply Nat.eqb_eq in Hlast.
    pose proof length_positive as Hl0.
    pose proof (nth_positive dash_ scale_ 0 dash_positive scale_positive Hl0).
    rewrite (locate_intro (L + u) 0 (k + 1) 0); try assumption; try lia.
    + f_equal. rewrite seg_start_0. lra.
    + lra.
    + rewrite plus_IZR. rewrite Hlast, total_is_last in Hs. lra.
    + rewrite seg_start_0. lra.
  - apply Nat.eqb_neq in Hlast.
    pose proof (nth_positive dash_ scale_ (S j) dash_positive scale_positive
                  ltac:(lia)).
    rewrite (locate_intro (L + u) (seg_start dash_ scale_ (S j)) k (S j));
      try lia; try lra.
    f_equal. lra.
Qed.

(** What the lookup answers is a position inside the pattern. *)
Lemma locate_range (L : R) (i : nat) (ds : R) :
  0 <= L -> locate dash_ (period dash_) scale_ L offset_ = (i, ds) ->
  (i < length dash_)%nat /\ 0 <= ds < nth i dash_ 0 * scale_.
Proof.
  intros HL Hloc.
  destruct (locate_char L HL) as (p & k & j & E & Hj & Hint & Hl).
  rewrite Hl in Hloc. injection Hloc as <- <-. split; [assumption|lra].
Qed.

Lemma next_index_range (i : nat) :
  (i < length dash_)%nat -> (next_index dash_ i < length dash_)%nat.
Proof.
  intros Hi. unfold next_index.
  destruct (Nat.eqb (S i) (length dash_)) eqn:E.
  - apply length_positive.
  - apply Nat.eqb_neq in E. lia.
Qed.

End PhaseFacts.

(** ** The segmentation loop *)

Lemma walk_done dash s c sn closed st fuel x y r i ds :
  r <= 0 -> walk dash s c sn closed st fuel x y r i ds = Some [].
Proof.
  intros Hr. destruct fuel; simpl; destruct (Rlt_dec 0 r); try lra;
    reflexivity.
Qed.

Section WalkFacts.

Variable dash_ : list R.
Variable scale_ : R.
Variables cos_ sin_ : R.
Variable start_ : Point.

(** One full stride of an open segment. *)
Lemma walk_full (fuel : nat) (x y r : R) (i : nat) (ds size : R) :
  nth i dash_ 0 * scale_ - ds = size -> 0 < r -> size < r ->
  walk dash_ scale_ cos_ sin_ false start_ (S fuel) x y r i ds
  = option_map
      (cons (mkStride i size
               (mkPoint (x + cos_ * size) (y + sin_ * size)) Advance))
      (walk dash_ scale_ cos_ sin_ false start_ fuel
         (x + cos_ * size) (y + sin_ * size) (r - size)
         (next_index dash_ i) 0).
Proof.
  intros Hsize Hr Hlt. simpl.
  destruct (Rlt_dec 0 r); [|lra].
  unfold stride_size, stride_dist. rewrite Hsize.
  destruct (Rlt_dec size r); [|lra]. reflexivity.
Qed.

(** The last, truncated stride of an open segment. *)
Lemma walk_last (fuel : nat) (x y r : R) (i : nat) (ds : R) :
  0 < r -> r <= nth i dash_ 0 * scale_ - ds ->
  walk dash_ scale_ cos_ sin_ false start_ (S fuel) x y r i ds
  = Some [mkStride i r (mkPoint (x + cos_ * r) (y + sin_ * r)) Advance].
Proof.
  intros Hr Hle. simpl.
  destruct (Rlt_dec 0 r); [|lra].
  unfold stride_size, stride_dist.
  destruct (Rlt_dec (nth i dash_ 0 * scale_ - ds) r); [lra|].
  rewrite walk_done by lra. reflexivity.
Qed.

End WalkFacts.

Lemma walk_more_fuel dash s c sn closed st (fuel : nat) :
  forall x y r i ds strides,
    walk dash s c sn closed st fuel x y r i ds = Some strides ->
    walk dash s c sn closed st (S fuel) x y r i ds = Some strides.
Proof.
  induction fuel as [|fuel IH]; intros x y r i ds strides H.
  - simpl in H. destruct (Rlt_dec 0 r) as [Hr|Hr]; [discriminate|].
    rewrite walk_done by lra. assumption.
  - remember (S fuel) as n eqn:En. simpl. rewrite En in H. simpl in H.
    destruct (Rlt_dec 0 r) as [Hr|Hr]; [|assumption].
    destruct (at_seam closed st _ _ _); [assumption|].
    destruct (walk dash s c sn closed st fuel _ _ _ _ _) as [rest|] eqn:E;
      [|discriminate].
    subst n. rewrite (IH _ _ _ _ _ _ E). assumption.
Qed.

Lemma walk_fuel_mono dash s c sn closed st (fuel fuel' : nat) x y r i ds
    strides :
  (fuel <= fuel')%nat ->
  walk dash s c sn closed st fuel x y r i ds = Some strides ->
  walk dash s c sn closed st fuel' x y r i ds = Some strides.
Proof.
  induction 1 as [|fuel' _ IH]; intros H; [assumption|].
  apply walk_more_fuel. now apply IH.
Qed.

Lemma min_entry (dash : list R) (s : R) :
  all_positive dash -> 0 < s ->
  exists m, 0 < m /\
            forall i, (i < length dash)%nat -> m <= nth i dash 0 * s.
Proof.
  intros Hpos Hs. induction Hpos as [|len rest Hlen Hpos IH].
  - exists 1. split; [lra|]. intros i Hi. simpl in Hi. lia.
  - destruct IH as (m & Hm & Hall).
    pose proof (Rmult_lt_0_compat _ _ Hlen Hs) as Hls.
    exists (Rmin m (len * s)). split.
    + now apply Rmin_glb_lt.
    + intros [|i] Hi; simpl.
      * apply Rmin_r.
      * eapply Rle_trans; [apply Rmin_l|]. apply Hall. simpl in Hi. lia.
Qed.

Lemma lineTo_vector (fuel : nat) (x y : R) (cp : bool) (d : DashLine) :
  useTexture d = false ->
  lineTo fuel x y cp d
  = option_map (fun strides => advance (flat_map stride_calls strides) x y d)
      (lineTo_strides fuel x y cp d).
Proof.
  intros Hv. unfold lineTo. rewrite Hv.
  now destruct (lineTo_strides fuel x y cp d).
Qed.

Lemma lineTo_strides_mono (fuel fuel' : nat) x y cp d strides :
  (fuel <= fuel')%nat ->
  lineTo_strides fuel x y cp d = Some strides ->
  lineTo_strides fuel' x y cp d = Some strides.
Proof. unfold lineTo_strides. apply walk_fuel_mono. Qed.

(** ** Concrete tracers *)

Lemma sample_well_formed (t : R) : well_formed (sample t).
Proof. split; [discriminate|reflexivity]. Qed.

Lemma default_positive : all_positive [10; 5].
Proof. repeat constructor; lra. Qed.

Lemma constructor_default :
  constructor [] noOptions = Normal default_tracer.
Proof. reflexivity. Qed.

(** The tracer with offset [-20] is the one the constructor returns for
    [{offset: -20}]. *)
Lemma shifted_constructed :
  constructor []
    (mkOptions None None None None None None None None None (Some (-20)))
  = Normal shifted.
Proof. reflexivity. Qed.

(** The tracer in texture mode is the one the constructor returns for
    [{useTexture: true}], once its texture has been loaded. *)
Lemma sample_texture_constructed :
  exists d,
    constructor []
      (mkOptions None None None None None (Some true) None None None None)
    = Normal d /\
    setStrokeStyle_resume true d = sample_texture.
Proof. eexists. split; reflexivity. Qed.

(** Symbolic execution of [lineTo] on a concrete tracer. *)
Ltac tracer_fields :=
  cbn [moveTo advance sample default_tracer shifted graphics cursor lineLength dash
       scale start dashSize options useTexture activeTexture px py
       mergeOptions opt_offset noOptions o_offset or_default fst snd].

Ltac stride_full size :=
  rewrite (walk_full _ _ _ _ _ _ _ _ _ _ _ size) by (cbn [nth]; lra);
  unfold next_index; cbn [length Nat.eqb].

Ltac stride_last :=
  rewrite walk_last by (cbn [nth]; lra).

(** Side conditions of the strides below: distances between corners. *)
Ltac side :=
  cbn [moveTo shifted advance lineLength cursor px py];
  rewrite ?distance_horizontal, ?distance_vertical;
  repeat match goal with
  | |- context [Rabs ?a] =>
      first [ rewrite (Rabs_pos_eq a) by lra
            | rewrite (Rabs_left a) by lra ]
  end;
  lra.

(** ** The range and the intervals of the lookup *)

(** C3: for a pattern with at least one entry, all entries positive, a
    positive scale and a non-negative travelled distance and offset, the
    lookup at the start of a vector-mode [lineTo] answers an index inside
    the pattern and a residual offset in [0, P[index] * scale). *)
Theorem lookup_in_range (d : DashLine) :
  well_formed d -> all_positive (dash d) -> 0 < scale d ->
  0 <= lineLength d -> 0 <= opt_offset (options d) ->
  (fst (lookup d) < length (dash d))%nat /\
  0 <= snd (lookup d) < nth (fst (lookup d)) (dash d) 0 * scale d.
Proof.
  intros [Hne Hsize] Hpos Hs HL Ho.
  destruct (place_of_spec (dash d) (scale d) (lineLength d)
              (opt_offset (options d))) as (p & Hp & Hrange & _);
    try assumption.
  destruct (seg_cover (dash d) (scale d) p Hpos Hs Hrange)
    as (j & Hj & Hint).
  unfold lookup, locate. rewrite Hsize, Hp.
  rewrite (locate_from_spec (scale d) p (dash d) 0 j 0 Hpos Hs Hj)
    by lra.
  simpl fst. simpl snd. split; [assumption|lra].
Qed.

Lemma lookup_in_range_witness :
  (fst (lookup (sample 12)) < length (dash (sample 12)))%nat /\
  0 <= snd (lookup (sample 12))
    < nth (fst (lookup (sample 12))) (dash (sample 12)) 0
      * scale (sample 12).
Proof.
  apply (lookup_in_range (sample 12)).
  - apply sample_well_formed.
  - apply default_positive.
  - simpl. lra.
  - simpl. lra.
  - simpl. lra.
Defined.

(** C4, as the code has it, for a pattern with at least one entry and
    only positive entries, a positive scale, and a travelled distance and
    an offset that are not negative: the lookup takes
    [place = (distance + offset) mod (period * scale)] and answers the
    segment whose half-open interval [start, start + len) of scaled
    cumulative lengths holds [place], with the residual [place - start];
    a [place] that is exactly the start of a segment, hence the boundary
    with the segment before it, goes to the later of the two, with
    residual [0]. *)
Theorem lookup_half_open (d : DashLine) :
  well_formed d -> all_positive (dash d) -> 0 < scale d ->
  0 <= lineLength d -> 0 <= opt_offset (options d) ->
  exists place,
    place_of (dashSize d) (scale d) (lineLength d) (opt_offset (options d))
      = Some place /\
    place = (lineLength d + opt_offset (options d))
            - dashSize d * scale d
              * IZR (Zfloor ((lineLength d + opt_offset (options d))
                             / (dashSize d * scale d))) /\
    seg_start (dash d) (scale d) (fst (lookup d)) <= place
      < seg_start (dash d) (scale d) (fst (lookup d))
        + nth (fst (lookup d)) (dash d) 0 * scale d /\
    snd (lookup d) = place - seg_start (dash d) (scale d) (fst (lookup d)) /\
    forall j, (j < length (dash d))%nat ->
              place = seg_start (dash d) (scale d) j ->
              lookup d = (j, 0).
Proof.
  intros [Hne Hsize] Hpos Hs HL Ho.
  destruct (place_of_spec (dash d) (scale d) (lineLength d)
              (opt_offset (options d))) as (p & Hp & Hrange & Ep);
    try assumption.
  destruct (seg_cover (dash d) (scale d) p Hpos Hs Hrange)
    as (j & Hj & Hint).
  exists p. rewrite Hsize. repeat split; try assumption.
  - unfold lookup, locate. rewrite Hsize, Hp.
    rewrite (locate_from_spec (scale d) p (dash d) 0 j 0 Hpos Hs Hj)
      by lra.
    simpl. lra.
  - unfold lookup, locate. rewrite Hsize, Hp.
    rewrite (locate_from_spec (scale d) p (dash d) 0 j 0 Hpos Hs Hj)
      by lra.
    simpl. lra.
  - unfold lookup, locate. rewrite Hsize, Hp.
    rewrite (locate_from_spec (scale d) p (dash d) 0 j 0 Hpos Hs Hj)
      by lra.
    simpl. lra.
  - intros k Hk Ek. unfold lookup, locate. rewrite Hsize, Hp.
    assert (Hnth : 0 < nth k (dash d) 0 * scale d).
    { apply Rmult_lt_0_compat; [|assumption].
      pose proof (proj1 (Forall_forall _ _) Hpos) as Hall.
      apply Hall. now apply nth_In. }
    rewrite (locate_from_spec (scale d) p (dash d) 0 k 0 Hpos Hs Hk)
      by lra.
    f_equal. lra.
Qed.

Lemma lookup_half_open_witness :
  exists place,
    place_of (dashSize (sample 10)) (scale (sample 10))
      (lineLength (sample 10)) (opt_offset (options (sample 10)))
      = Some place /\
    place = (lineLength (sample 10) + opt_offset (options (sample 10)))
            - dashSize (sample 10) * scale (sample 10)
              * IZR (Zfloor ((lineLength (sample 10)
                              + opt_offset (options (sample 10)))
                             / (dashSize (sample 10) * scale (sample 10)))) /\
    seg_start (dash (sample 10)) (scale (sample 10))
        (fst (lookup (sample 10))) <= place
      < seg_start (dash (sample 10)) (scale (sample 10))
          (fst (lookup (sample 10)))
        + nth (fst (lookup (sample 10))) (dash (sample 10)) 0
          * scale (sample 10) /\
    snd (lookup (sample 10))
      = place - seg_start (dash (sample 10)) (scale (sample 10))
                  (fst (lookup (sample 10))) /\
    forall j, (j < length (dash (sample 10)))%nat ->
              place = seg_start (dash (sample 10)) (scale (sample 10)) j ->
              lookup (sample 10) = (j, 0).
Proof.
  apply (lookup_half_open (sample 10)).
  - apply sample_well_formed.
  - apply default_positive.
  - simpl. lra.
  - simpl. lra.
  - simpl. lra.
Defined.

(** C4, as stated, fails: on the default tracer (pattern [[10, 5]], scale
    1, offset 0), after [moveTo(0, 0)] and [lineTo(10, 0)] the travelled
    distance is 10 and [place = 10], which is where segment 0 ends and
    segment 1 starts; the lookup answers segment 1, the later one, and
    not segment 0. *)
Lemma lookup_boundary_later :
  exists d,
    lineTo 1 10 0 false (moveTo 0 0 default_tracer) = Some d /\
    place_of (dashSize d) (scale d) (lineLength d) (opt_offset (options d))
      = Some 10 /\
    seg_start (dash d) (scale d) 0 + nth 0 (dash d) 0 * scale d = 10 /\
    seg_start (dash d) (scale d) 1 = 10 /\
    lookup d = (1%nat, 0) /\
    fst (lookup d) <> 0%nat.
Proof.
  assert (Hs : lineTo_strides 1 10 0 false (moveTo 0 0 default_tracer)
               = Some [mkStride 0 10
                         (mkPoint (0 + cos (JS.atan2 (0 - 0) (10 - 0)) * 10)
                                  (0 + sin (JS.atan2 (0 - 0) (10 - 0)) * 10))
                         Advance]).
  { unfold lineTo_strides, lookup, locate, place_of. tracer_fields.
    rewrite (rem_unique (0 + 0) ((10 + 5) * 1) 0 0) by lra.
    cbn [locate_from JS.ltb JS.val].
    destruct (Rlt_dec 0 (0 + 10 * 1)); [|lra].
    tracer_fields. rewrite distance_horizontal.
    replace (Rabs (10 - 0)) with 10 by (rewrite Rabs_pos_eq; lra).
    stride_last. reflexivity. }
  eexists. split.
  { rewrite lineTo_vector by reflexivity. rewrite Hs. reflexivity. }
  assert (Hp : place_of (10 + 5) 1 (0 + distance 0 0 10 0) 0 = Some 10).
  { unfold place_of. rewrite distance_horizontal.
    replace (Rabs (10 - 0)) with 10 by (rewrite Rabs_pos_eq; lra).
    apply rem_unique with (k := 0%Z); lra. }
  assert (Hl : locate [10; 5] (10 + 5) 1 (0 + distance 0 0 10 0) 0
               = (1%nat, 0)).
  { unfold locate. rewrite Hp. simpl.
    destruct (Rlt_dec 10 (0 + 10 * 1)) as [L|_]; [lra|].
    destruct (Rlt_dec 10 (0 + 10 * 1 + 5 * 1)) as [_|N]; [|lra].
    f_equal. lra. }
  unfold lookup. tracer_fields. rewrite Hl.
  repeat split; try assumption.
  - unfold seg_start. simpl. lra.
  - unfold seg_start. simpl. lra.
  - discriminate.
Qed.

(** ** A single line *)

Lemma default_strides_32 (x0 y0 : R) (extra : nat) :
  lineTo_strides (5 + extra) (x0 + 32) y0 false (moveTo x0 y0 default_tracer)
  = Some [mkStride 0 10 (mkPoint (x0 + 10) y0) Advance;
          mkStride 1 5 (mkPoint (x0 + 15) y0) Advance;
          mkStride 0 10 (mkPoint (x0 + 25) y0) Advance;
          mkStride 1 5 (mkPoint (x0 + 30) y0) Advance;
          mkStride 0 2 (mkPoint (x0 + 32) y0) Advance].
Proof.
  unfold lineTo_strides. tracer_fields.
  replace (y0 - y0) with 0 by lra.
  replace (x0 + 32 - x0) with 32 by lra.
  rewrite atan2_right, cos_0, sin_0 by lra.
  rewrite distance_horizontal.
  replace (Rabs (x0 + 32 - x0)) with 32
    by (replace (x0 + 32 - x0) with 32 by lra; rewrite Rabs_pos_eq; lra).
  unfold lookup, locate, place_of. tracer_fields.
  rewrite (rem_unique (0 + 0) ((10 + 5) * 1) 0 0) by lra.
  cbn [locate_from JS.ltb JS.val].
  destruct (Rlt_dec 0 (0 + 10 * 1)); [|lra].
  tracer_fields.
  change (5 + extra)%nat with (S (S (S (S (S extra))))).
  stride_full 10. stride_full 5. stride_full 10. stride_full 5.
  stride_last.
  cbn [option_map].
  repeat (f_equal; try lra).
Qed.

(** C5: on the tracer built with the default options (pattern [[10, 5]],
    scale 1, offset 0, vector mode), a [lineTo] of length 32 right after
    [moveTo(x0, y0)] runs five strides and returns, whatever fuel beyond
    five it is given; the surface is told to draw to 10, lift to 15, draw
    to 25, lift to 30 and draw to 32, so that exactly three strides are
    draws, [ceil(32 / 15) = 3], covering [0, 10], [15, 25] and [30, 32],
    the last one cut to the 2 that remained. *)
Theorem single_line_32 (x0 y0 : R) (extra : nat) :
  constructor [] noOptions = Normal default_tracer /\
  lineTo_strides (5 + extra) (x0 + 32) y0 false (moveTo x0 y0 default_tracer)
  = Some [mkStride 0 10 (mkPoint (x0 + 10) y0) Advance;
          mkStride 1 5 (mkPoint (x0 + 15) y0) Advance;
          mkStride 0 10 (mkPoint (x0 + 25) y0) Advance;
          mkStride 1 5 (mkPoint (x0 + 30) y0) Advance;
          mkStride 0 2 (mkPoint (x0 + 32) y0) Advance] /\
  lineTo (5 + extra) (x0 + 32) y0 false (moveTo x0 y0 default_tracer)
  = Some (mkDashLine
            [GStroke (mkStroke (1 * 1) 16777215 1 false None None (1 / 2));
             GMoveTo x0 y0;
             GLineTo (x0 + 10) y0; GMoveTo (x0 + 15) y0;
             GLineTo (x0 + 25) y0; GMoveTo (x0 + 30) y0;
             GLineTo (x0 + 32) y0]
            32 (mkPoint (x0 + 32) y0) 1 false (mkPoint x0 y0) (10 + 5)
            [10; 5] false (mergeOptions noOptions)) /\
  filter (fun sp => Nat.even (sp_index sp))
    (spans 0 [mkStride 0 10 (mkPoint (x0 + 10) y0) Advance;
              mkStride 1 5 (mkPoint (x0 + 15) y0) Advance;
              mkStride 0 10 (mkPoint (x0 + 25) y0) Advance;
              mkStride 1 5 (mkPoint (x0 + 30) y0) Advance;
              mkStride 0 2 (mkPoint (x0 + 32) y0) Advance])
  = [mkSpan 0 10 0; mkSpan 15 25 0; mkSpan 30 32 0] /\
  Zceil (32 / 15) = 3%Z.
Proof.
  split; [apply constructor_default|].
  split; [apply default_strides_32|].
  split; [|split].
  - unfold lineTo. cbn [useTexture moveTo default_tracer].
    change (lineTo_strides (5 + extra) (x0 + 32) y0 false _)
      with (lineTo_strides (5 + extra) (x0 + 32) y0 false
              (moveTo x0 y0 default_tracer)).
    rewrite default_strides_32.
    unfold advance. tracer_fields.
    rewrite distance_horizontal.
    replace (Rabs (x0 + 32 - x0)) with 32
      by (replace (x0 + 32 - x0) with 32 by lra; rewrite Rabs_pos_eq; lra).
    cbn [flat_map stride_calls s_out s_index s_end Nat.odd Nat.even negb
         px py app].
    repeat (f_equal; try lra).
  - cbn [spans filter s_dist s_index sp_index Nat.even].
    repeat (f_equal; try lra).
  - apply Zceil_eq. lra.
Qed.

(** ** Zero-length segments *)

(** A vector-mode [lineTo] to the cursor itself changes nothing. *)
Lemma lineTo_cursor_vector (fuel : nat) (cp : bool) (d : DashLine) :
  useTexture d = false ->
  lineTo fuel (px (cursor d)) (py (cursor d)) cp d = Some d.
Proof.
  intros Hv. unfold lineTo, lineTo_strides. rewrite Hv.
  rewrite distance_same, walk_done by lra.
  unfold advance. simpl flat_map. rewrite distance_same, app_nil_r.
  destruct d as [g L [cx cy] sc at_ st ds da ut op]. simpl.
  do 2 f_equal. lra.
Qed.

(** A texture-mode [closePath] right after [moveTo]. *)
Lemma closePath_after_moveTo_texture (fuel : nat) (x y : R) (d : DashLine) :
  useTexture d = true ->
  closePath fuel (moveTo x y d)
  = Some (mkDashLine
            (graphics d ++ [GMoveTo x y] ++
             [GMoveTo x y; adjustStrokeStyle 0 (moveTo x y d)] ++
             (if Nat.even (length (dash d))
              then [GLineTo (x - Rmin (last (dash d) 0) 0) y; GClosePath]
              else [GLineTo x y]))
            0 (mkPoint x y) (scale d) (activeTexture d) (mkPoint x y)
            (dashSize d) (dash d) (useTexture d) (options d)).
Proof.
  intros Ht. unfold closePath, lineTo. simpl useTexture. rewrite Ht.
  unfold advance, texture_calls, is_closed. simpl.
  rewrite !eqb_refl, distance_same, atan2_same, cos_0, sin_0. simpl.
  rewrite <- app_assoc. simpl.
  destruct (Nat.even (length (dash d))); simpl;
    repeat (f_equal; try lra); assumption.
Qed.

(** C8, as the code has it: a zero-length [lineTo] never fails and leaves
    [lineLength], [cursor] and [start] as they were; in vector mode it
    makes no call on the surface, in texture mode it makes the calls of
    the texture branch.  In particular [moveTo(x, y)] followed by
    [closePath()] leaves a vector-mode tracer exactly as [moveTo] left it,
    while in texture mode the surface receives a [moveTo], a stroke-style
    update and a zero-length [lineTo] (pulled back by [min(last entry, 0)],
    then [closePath], when the pattern has an even number of entries). *)
Theorem zero_length_segment (fuel : nat) (x y : R) (cp : bool)
    (d : DashLine) :
  lineTo fuel (px (cursor d)) (py (cursor d)) cp d
  = Some (mkDashLine
            (graphics d ++
             (if useTexture d
              then texture_calls (px (cursor d)) (py (cursor d)) cp d
              else []))
            (lineLength d) (cursor d) (scale d) (activeTexture d)
            (start d) (dashSize d) (dash d) (useTexture d) (options d))
  /\
  closePath fuel (moveTo x y d)
  = Some (if useTexture d
          then mkDashLine
                 (graphics d ++ [GMoveTo x y] ++
                  [GMoveTo x y; adjustStrokeStyle 0 (moveTo x y d)] ++
                  (if Nat.even (length (dash d))
                   then [GLineTo (x - Rmin (last (dash d) 0) 0) y;
                         GClosePath]
                   else [GLineTo x y]))
                 0 (mkPoint x y) (scale d) (activeTexture d) (mkPoint x y)
                 (dashSize d) (dash d) (useTexture d) (options d)
          else moveTo x y d).
Proof.
  split.
  - destruct (useTexture d) eqn:Hm.
    + unfold lineTo. rewrite Hm. unfold advance.
      rewrite distance_same.
      destruct d as [g L [cx cy] sc at_ st ds da ut op]. simpl in *.
      subst ut. replace (L + 0) with L by lra. reflexivity.
    + rewrite lineTo_cursor_vector by assumption.
      rewrite app_nil_r.
      destruct d as [g L [cx cy] sc at_ st ds da ut op]. simpl in *.
      now subst.
  - destruct (useTexture d) eqn:Hm.
    + rewrite closePath_after_moveTo_texture by assumption.
      now rewrite Hm.
    + unfold closePath.
      apply (lineTo_cursor_vector fuel true (moveTo x y d)). exact Hm.
Qed.

(** C8, as stated, fails in texture mode: [moveTo(3, 4)] followed by
    [closePath()] makes the surface draw a line to [(3, 4)]. *)
Lemma closePath_texture_draws :
  exists d',
    closePath 0 (moveTo 3 4 sample_texture) = Some d' /\
    In (GLineTo 3 4) (graphics d').
Proof.
  eexists. split.
  - apply closePath_after_moveTo_texture. reflexivity.
  - cbn [graphics]. rewrite !in_app_iff. right. right. right.
    simpl. left. f_equal.
    unfold Rmin. destruct (Rle_dec 5 0); lra.
Qed.

(** ** The closing flag *)

(** C10: when the target differs from [start] in a coordinate, the
    [closePath] flag changes nothing: the call makes the same calls on the
    surface and leaves the same tracer, in vector and in texture mode. *)
Theorem closePath_flag_ignored (fuel : nat) (x y : R) (d : DashLine) :
  x <> px (start d) \/ y <> py (start d) ->
  is_closed true x y d = false /\
  lineTo fuel x y true d = lineTo fuel x y false d.
Proof.
  intros Hne.
  assert (Hc : is_closed true x y d = false).
  { unfold is_closed, JS.eqb. simpl.
    destruct (Req_dec_T x (px (start d))) as [Ex|Nx]; simpl;
      [|reflexivity].
    destruct (Req_dec_T y (py (start d))) as [Ey|Ny]; [|reflexivity].
    destruct Hne; contradiction. }
  split; [exact Hc|].
  unfold lineTo, lineTo_strides, texture_calls. rewrite Hc.
  reflexivity.
Qed.

Lemma closePath_flag_ignored_witness :
  is_closed true 32 0 (sample 0) = false /\
  lineTo 5 32 0 true (sample 0) = lineTo 5 32 0 false (sample 0).
Proof.
  apply (closePath_flag_ignored 5 32 0 (sample 0)).
  left. simpl. lra.
Defined.

(** ** Construction *)

(** C6, as the code has it: construction throws exactly when the merged
    pattern is empty, the [TypeError] of [reduce] on an empty array; every
    other pattern, whatever the sign of its entries, is accepted and kept
    as it is. *)
Theorem constructor_rejects_only_empty (g : list GfxCall)
    (o : DashLineOptions) :
  (constructor g o = Throw TypeError <-> opt_dash (mergeOptions o) = []) /\
  (opt_dash (mergeOptions o) = [] \/
   exists d, constructor g o = Normal d /\
             dash d = opt_dash (mergeOptions o)).
Proof.
  unfold constructor.
  destruct (opt_dash (mergeOptions o)) as [|a rest] eqn:E; simpl.
  - split; [tauto|]. now left.
  - split.
    + split; [|discriminate].
      unfold setStrokeStyle_sync. simpl. discriminate.
    + right. eexists. split; [reflexivity|].
      unfold setStrokeStyle_sync. simpl.
      now destruct (or_default (o_useTexture o) false).
Qed.

(** With the pattern [[-1]] the loop never ends: every stride moves
    backwards and [remaining] grows. *)
Lemma walk_negative_diverges (c sn : R) (st : Point) (fuel : nat) :
  forall x y r, 0 < r ->
    walk [-1] 1 c sn false st fuel x y r 0 0 = None.
Proof.
  induction fuel as [|fuel IH]; intros x y r Hr; simpl.
  - destruct (Rlt_dec 0 r); [reflexivity|lra].
  - destruct (Rlt_dec 0 r); [|lra].
    unfold stride_size, stride_dist. simpl nth.
    destruct (Rlt_dec (-1 * 1 - 0) r); [|lra].
    change (next_index [-1] 0) with 0%nat.
    rewrite IH by lra. reflexivity.
Qed.

(** C6, as stated, fails: the pattern [[-1]] is accepted at construction,
    and a later vector-mode [lineTo] of length 1 never returns. *)
Lemma constructor_accepts_negative :
  exists d,
    constructor [] (dashOnly [-1]) = Normal d /\
    forall fuel, lineTo fuel 1 0 false d = None.
Proof.
  eexists. split; [reflexivity|].
  intros fuel. unfold lineTo, setStrokeStyle_sync. simpl useTexture.
  cbv iota. unfold lineTo_strides, lookup, locate, place_of. simpl.
  assert (Hp : JS.rem (0 + 0) (-1 * 1) = Some 0).
  { unfold JS.rem, JS.trunc.
    destruct (Req_dec_T (-1 * 1) 0); [lra|].
    replace ((0 + 0) / (-1 * 1)) with 0 by (field; lra).
    destruct (Rle_dec 0 0); [|lra].
    rewrite (ZfloorZ 0). f_equal. lra. }
  rewrite Hp. simpl.
  destruct (Rlt_dec 0 (0 + -1 * 1)); [lra|]. simpl.
  rewrite distance_horizontal.
  rewrite walk_negative_diverges; [reflexivity|].
  rewrite Rabs_pos_eq; lra.
Qed.

(** ** [circle] *)

(** What holds of [circle]: one [moveTo], then [points] calls of
    [lineTo]. *)
Lemma circle_loop_length x y radius interval points first todo i angle :
  length (circle_loop x y radius interval points first todo i angle) = todo.
Proof.
  revert i angle. induction todo as [|todo IH]; intros i angle; simpl;
    [reflexivity|]. now rewrite IH.
Qed.

Lemma circle_calls_length x y radius points matrix :
  length (circle_calls x y radius points matrix) = S points.
Proof.
  unfold circle_calls. simpl. now rewrite circle_loop_length.
Qed.

(** The last call of the loop targets [first] itself. *)
Lemma circle_loop_last x y radius interval points first todo i angle dflt :
  (0 < todo)%nat -> (i + todo = S points)%nat ->
  last (circle_loop x y radius interval points first todo i angle) dflt
  = CLineTo (px first) (py first) false.
Proof.
  revert i angle. induction todo as [|todo IH]; intros i angle Hpos Hsum;
    [lia|].
  destruct todo as [|todo].
  - simpl. replace i with points by lia. now rewrite Nat.eqb_refl.
  - change (circle_loop x y radius interval points first (S (S todo)) i angle)
      with (CLineTo
              (px (if Nat.eqb i points then first
                   else mkPoint (x + cos angle * radius)
                                (y + sin angle * radius)))
              (py (if Nat.eqb i points then first
                   else mkPoint (x + cos angle * radius)
                                (y + sin angle * radius))) false
            :: circle_loop x y radius interval points first (S todo) (S i)
                 (angle + interval)).
    assert (Hne : circle_loop x y radius interval points first (S todo)
                    (S i) (angle + interval) <> []) by (simpl; discriminate).
    destruct (circle_loop x y radius interval points first (S todo) (S i)
                (angle + interval)) as [|c cs] eqn:E; [congruence|].
    change (last (?a :: c :: cs) dflt) with (last (c :: cs) dflt).
    rewrite <- E. apply IH; lia.
Qed.

(** [circle] closes on the first point itself. *)
Lemma circle_closes_on_first x y radius points matrix dflt :
  (0 < points)%nat ->
  last (circle_calls x y radius points matrix) dflt
  = CLineTo (px (circle_first x y radius matrix))
            (py (circle_first x y radius matrix)) false.
Proof.
  intros Hp. unfold circle_calls.
  set (first := circle_first x y radius matrix).
  set (loop := circle_loop x y radius (PI * 2 / INR points) points first
                 points 1 (0 + PI * 2 / INR points)).
  assert (E : last (CMoveTo (px first) (py first) :: loop) dflt
              = last loop dflt).
  { destruct loop eqn:El; [|reflexivity].
    apply (f_equal (@length TracerCall)) in El. unfold loop in El.
    rewrite circle_loop_length in El. simpl in El. lia. }
  rewrite E. apply circle_loop_last; lia.
Qed.

(** Whatever the matrix, the second point [circle] feeds the tracer is
    the sampled point itself. *)
Lemma circle_second_point_raw x y radius points matrix dflt :
  (2 <= points)%nat ->
  nth 1 (circle_calls x y radius points matrix) dflt
  = CLineTo (x + cos (0 + PI * 2 / INR points) * radius)
            (y + sin (0 + PI * 2 / INR points) * radius) false.
Proof.
  intros Hp. destruct points as [|[|n]]; try lia. reflexivity.
Qed.

(** C7 fails on the code: with the matrix that translates by [(10, 0)],
    [circle(0, 0, 1, 2, matrix)] moves to the transformed first point
    [(11, 0)], then lines to the second sampled point [(-1, 0)] as it was
    sampled, not to its image [(9, 0)], and closes on [(11, 0)]. *)
Theorem circle_skips_matrix :
  circle_calls 0 0 1 2 (Some (mkMatrix 1 0 0 1 10 0))
  = [CMoveTo 11 0; CLineTo (-1) 0 false; CLineTo 11 0 false] /\
  Matrix_apply (mkMatrix 1 0 0 1 10 0) (mkPoint (-1) 0) = mkPoint 9 0.
Proof.
  split.
  - unfold circle_calls, circle_first, Matrix_apply. simpl.
    replace (0 + PI * 2 / (1 + 1)) with PI by field.
    rewrite cos_0, sin_0, cos_PI, sin_PI.
    repeat (f_equal; try lra).
  - unfold Matrix_apply. simpl. f_equal; lra.
Qed.

(** ** The curve flattener *)

Section FlattenFacts.

Variable flatnessCubic : Point -> Point -> Point -> Point -> R.
Variable flatnessQuadratic : Point -> Point -> Point -> R.

Lemma last_app_cons {A : Type} (l1 l2 : list A) (a dflt : A) :
  last (l1 ++ a :: l2) dflt = last (a :: l2) dflt.
Proof.
  induction l1 as [|b l1 IH]; [reflexivity|].
  simpl app. rewrite <- IH.
  destruct (l1 ++ a :: l2) eqn:E; [|reflexivity].
  destruct l1; discriminate.
Qed.

Lemma subdivideCubic_shape (depth : nat) (tol : R) :
  forall p0 p1 p2 p3 dflt,
    last (subdivideCubic flatnessCubic depth tol p0 p1 p2 p3) dflt = p3 /\
    (1 <= length (subdivideCubic flatnessCubic depth tol p0 p1 p2 p3)
       <= 2 ^ depth)%nat.
Proof.
  induction depth as [|depth IH]; intros p0 p1 p2 p3 dflt.
  - simpl. split; [reflexivity|lia].
  - simpl subdivideCubic.
    destruct (Rlt_dec (flatnessCubic p0 p1 p2 p3) tol).
    + simpl. split; [reflexivity|].
      pose proof (Nat.pow_nonzero 2 depth). lia.
    + set (p01 := midpoint p0 p1). set (p12 := midpoint p1 p2).
      set (p23 := midpoint p2 p3). set (p012 := midpoint p01 p12).
      set (p123 := midpoint p12 p23). set (m := midpoint p012 p123).
      destruct (IH p0 p01 p012 m dflt) as [_ Hl].
      destruct (IH m p123 p23 p3 dflt) as [Hr1 Hr2].
      rewrite length_app. split.
      * destruct (subdivideCubic flatnessCubic depth tol m p123 p23 p3)
          as [|c cs]; [simpl in Hr2; lia|].
        now rewrite last_app_cons.
      * rewrite Nat.pow_succ_r'. lia.
Qed.

Lemma subdivideQuadratic_shape (depth : nat) (tol : R) :
  forall p0 p1 p2 dflt,
    last (subdivideQuadratic flatnessQuadratic depth tol p0 p1 p2) dflt
      = p2 /\
    (1 <= length (subdivideQuadratic flatnessQuadratic depth tol p0 p1 p2)
       <= 2 ^ depth)%nat.
Proof.
  induction depth as [|depth IH]; intros p0 p1 p2 dflt.
  - simpl. split; [reflexivity|lia].
  - simpl subdivideQuadratic.
    destruct (Rlt_dec (flatnessQuadratic p0 p1 p2) tol).
    + simpl. split; [reflexivity|].
      pose proof (Nat.pow_nonzero 2 depth). lia.
    + set (p01 := midpoint p0 p1). set (p12 := midpoint p1 p2).
      set (m := midpoint p01 p12).
      destruct (IH p0 p01 m dflt) as [_ Hl].
      destruct (IH m p12 p2 dflt) as [Hr1 Hr2].
      rewrite length_app. split.
      * destruct (subdivideQuadratic flatnessQuadratic depth tol m p12 p2)
          as [|c cs]; [simpl in Hr2; lia|].
        now rewrite last_app_cons.
      * rewrite Nat.pow_succ_r'. lia.
Qed.

(** C9: whatever the control points, the tolerance and the flatness
    measure, [flattenCubic] and [flattenQuadratic] return: a list of at
    least one and at most [2 ^ maxDepth] points that ends on the curve's
    endpoint.  At depth [0], the cap, the subdivision stops on the
    endpoint without looking at the flatness. *)
Theorem flatten_terminates (maxDepth : nat) (p0 p1 p2 p3 : Point)
    (tolerance : R) :
  (last (flattenCubic flatnessCubic maxDepth p0 p1 p2 p3 tolerance) p0 = p3
   /\ (1 <= length (flattenCubic flatnessCubic maxDepth p0 p1 p2 p3
                      tolerance) <= 2 ^ maxDepth)%nat) /\
  (last (flattenQuadratic flatnessQuadratic maxDepth p0 p1 p2 tolerance) p0
     = p2
   /\ (1 <= length (flattenQuadratic flatnessQuadratic maxDepth p0 p1 p2
                      tolerance) <= 2 ^ maxDepth)%nat) /\
  subdivideCubic flatnessCubic 0 tolerance p0 p1 p2 p3 = [p3] /\
  subdivideQuadratic flatnessQuadratic 0 tolerance p0 p1 p2 = [p2].
Proof.
  unfold flattenCubic, flattenQuadratic.
  split; [apply subdivideCubic_shape|].
  split; [apply subdivideQuadratic_shape|].
  split; reflexivity.
Qed.

End FlattenFacts.

(** ** Open segments follow the phase *)

Section OpenWalk.

Variable dash_ : list R.
Variable scale_ : R.
Variable offset_ : R.
Variables cos_ sin_ : R.
Variable start_ : Point.
Hypothesis dash_nonempty : dash_ <> [].
Hypothesis dash_positive : all_positive dash_.
Hypothesis scale_positive : 0 < scale_.
Hypothesis offset_nonneg : 0 <= offset_.

(** The strides of an open segment that starts at travelled distance [L]
    in phase cover [L, L + r), each with the index the lookup gives at
    every distance it covers. *)
Lemma walk_index (fuel : nat) :
  forall x y r i ds L strides,
    0 <= L ->
    locate dash_ (period dash_) scale_ L offset_ = (i, ds) ->
    walk dash_ scale_ cos_ sin_ false start_ fuel x y r i ds
      = Some strides ->
    (forall t, L <= t < L + r ->
       index_at (spans L strides) t
       = Some (fst (locate dash_ (period dash_) scale_ t offset_))) /\
    (forall t, t < L \/ L + r <= t -> index_at (spans L strides) t = None).
Proof.
  induction fuel as [|fuel IH]; intros x y r i ds L strides HL Hloc Hw.
  - simpl in Hw. destruct (Rlt_dec 0 r) as [Hr|Hr]; [discriminate|].
    injection Hw as <-. split; [intros t Ht; lra|reflexivity].
  - destruct (Rlt_dec 0 r) as [Hr|Hr].
    2:{ rewrite walk_done in Hw by lra. injection Hw as <-.
        split; [intros t Ht; lra|reflexivity]. }
    destruct (locate_range dash_ scale_ offset_ dash_nonempty dash_positive
                scale_positive offset_nonneg L i ds HL Hloc) as [Hi Hds].
    assert (Hin : forall t, L <= t -> t - L + ds < nth i dash_ 0 * scale_ ->
              fst (locate dash_ (period dash_) scale_ t offset_) = i).
    { intros t Ht1 Ht2. 
      replace t with (L + (t - L)) by lra.
      rewrite (shift_within dash_ scale_ offset_ dash_nonempty dash_positive
                 scale_positive offset_nonneg L (t - L) i ds);
        try assumption; try lra. reflexivity. }
    destruct (Rlt_dec (nth i dash_ 0 * scale_ - ds) r) as [Hlt|Hge].
    + rewrite (walk_full dash_ scale_ cos_ sin_ start_ fuel x y r i ds
                 (nth i dash_ 0 * scale_ - ds)) in Hw by (reflexivity || lra).
      set (size := nth i dash_ 0 * scale_ - ds) in *.
      destruct (walk dash_ scale_ cos_ sin_ false start_ fuel _ _ _ _ _)
        as [rest|] eqn:Erest; [|discriminate].
      injection Hw as <-.
      assert (Hnext : locate dash_ (period dash_) scale_ (L + size) offset_
                      = (next_index dash_ i, 0)).
      { apply shift_boundary with (ds := ds); try assumption;
          unfold size; lra. }
      destruct (IH _ _ _ _ _ (L + size) rest ltac:(unfold size; lra)
                  Hnext Erest) as [IH1 IH2].
      cbn [spans s_dist s_index index_at sp_from sp_to sp_index].
      split; intros t Ht.
      * destruct (Rle_dec L t) as [_|N]; [|lra].
        destruct (Rlt_dec t (L + size)) as [Hin1|Hout].
        -- rewrite Hin; [reflexivity|lra|unfold size in Hin1; lra].
        -- apply IH1. lra.
      * destruct (Rle_dec L t) as [Hle|N].
        -- destruct (Rlt_dec t (L + size)) as [Hin1|Hout];
             [unfold size in *; lra|].
           apply IH2. right. lra.
        -- apply IH2. left. unfold size. lra.
    + rewrite walk_last in Hw by lra. injection Hw as <-.
      cbn [spans s_dist s_index index_at sp_from sp_to sp_index].
      split; intros t Ht.
      * destruct (Rle_dec L t) as [_|N]; [|lra].
        destruct (Rlt_dec t (L + r)) as [_|N]; [|lra].
        rewrite Hin; [reflexivity|lra|lra].
      * destruct (Rle_dec L t) as [Hle|N]; [|reflexivity].
        destruct (Rlt_dec t (L + r)) as [Hlt|_]; [lra|reflexivity].
Qed.

(** ** The loop ends *)

Variable closed : bool.

(** From the start of an entry, [n] strides of at least [m] each cover
    any remaining length up to [n * m]. *)
Lemma walk_returns_aligned (m : R) (n : nat) :
  0 < m ->
  (forall i, (i < length dash_)%nat -> m <= nth i dash_ 0 * scale_) ->
  forall x y r i,
    r <= INR n * m -> (i < length dash_)%nat ->
    exists strides,
      walk dash_ scale_ cos_ sin_ closed start_ n x y r i 0 = Some strides.
Proof.
  intros Hm Hall. induction n as [|n IH]; intros x y r i Hr Hi.
  - simpl in Hr. exists []. apply walk_done. lra.
  - destruct (Rlt_dec 0 r) as [Hpos|Hneg];
      [|exists []; apply walk_done; lra].
    simpl. destruct (Rlt_dec 0 r); [|lra].
    destruct (at_seam closed start_ _ _ _).
    + destruct (Nat.even i); eexists; reflexivity.
    + specialize (Hall i Hi).
      unfold stride_size, stride_dist.
      destruct (Rlt_dec (nth i dash_ 0 * scale_ - 0) r) as [Hlt|Hge].
      * destruct (IH (x + cos_ * (nth i dash_ 0 * scale_ - 0))
                    (y + sin_ * (nth i dash_ 0 * scale_ - 0))
                    (r - (nth i dash_ 0 * scale_ - 0))
                    (next_index dash_ i)) as [rest Hrest].
        -- rewrite S_INR in Hr. lra.
        -- now apply next_index_range.
        -- rewrite Hrest. eexists. reflexivity.
      * rewrite walk_done by lra. eexists. reflexivity.
Qed.

Lemma walk_returns (x y r : R) (i : nat) (ds : R) :
  (i < length dash_)%nat -> 0 <= ds < nth i dash_ 0 * scale_ ->
  exists bound, forall fuel, (bound <= fuel)%nat ->
    exists strides,
      walk dash_ scale_ cos_ sin_ closed start_ fuel x y r i ds
      = Some strides.
Proof.
  intros Hi Hds.
  destruct (min_entry dash_ scale_ dash_positive scale_positive)
    as (m & Hm & Hall).
  destruct (INR_unbounded (r / m)) as [n Hn].
  assert (Hrn : r <= INR n * m).
  { apply Rmult_lt_compat_r with (r := m) in Hn; [|assumption].
    replace (r / m * m) with r in Hn by (field; lra). lra. }
  exists (S n). intros fuel Hfuel.
  assert (G : exists strides,
            walk dash_ scale_ cos_ sin_ closed start_ (S n) x y r i ds
            = Some strides).
  { destruct (Rlt_dec 0 r) as [Hpos|Hneg];
      [|exists []; apply walk_done; lra].
    simpl. destruct (Rlt_dec 0 r); [|lra].
    destruct (at_seam closed start_ _ _ _).
    - destruct (Nat.even i); eexists; reflexivity.
    - unfold stride_size, stride_dist.
      destruct (Rlt_dec (nth i dash_ 0 * scale_ - ds) r) as [Hlt|Hge].
      + destruct (walk_returns_aligned m n Hm Hall
                    (x + cos_ * (nth i dash_ 0 * scale_ - ds))
                    (y + sin_ * (nth i dash_ 0 * scale_ - ds))
                    (r - (nth i dash_ 0 * scale_ - ds))
                    (next_index dash_ i)) as [rest Hrest].
        * lra.
        * now apply next_index_range.
        * rewrite Hrest. eexists. reflexivity.
      + rewrite walk_done by lra. eexists. reflexivity. }
  destruct G as [strides G]. exists strides.
  now apply walk_fuel_mono with (fuel := S n).
Qed.

End OpenWalk.

(** ** Chains of open segments *)

Lemma advance_ready (calls : list GfxCall) (x y : R) (d : DashLine) :
  vector_ready d -> vector_ready (advance calls x y d).
Proof.
  intros (Hv & Hwf & Hpos & Hs & HL & Ho).
  pose proof (distance_nonneg (px (cursor d)) (py (cursor d)) x y).
  repeat split; simpl; try assumption; try apply Hwf. lra.
Qed.

Lemma moveTo_ready (x y : R) (d : DashLine) :
  useTexture d = false -> well_formed d -> all_positive (dash d) ->
  0 < scale d -> 0 <= opt_offset (options d) ->
  vector_ready (moveTo x y d).
Proof.
  intros Hv Hwf Hpos Hs Ho.
  repeat split; simpl; try assumption; try apply Hwf. lra.
Qed.

Lemma lineTo_strides_returns (x y : R) (cp : bool) (d : DashLine) :
  vector_ready d ->
  exists bound, forall fuel, (bound <= fuel)%nat ->
    exists strides, lineTo_strides fuel x y cp d = Some strides.
Proof.
  intros (Hv & [Hne Hsize] & Hpos & Hs & HL & Ho).
  unfold lineTo_strides, lookup. rewrite Hsize.
  destruct (locate (dash d) (period (dash d)) (scale d) (lineLength d)
              (opt_offset (options d))) as [i ds] eqn:Hloc.
  destruct (locate_range _ _ _ Hne Hpos Hs Ho _ _ _ HL Hloc) as [Hi Hds].
  simpl fst. simpl snd.
  now apply walk_returns.
Qed.

(** One open [lineTo]: its strides carry the phase of the distances they
    cover. *)
Lemma lineTo_strides_index (fuel : nat) (x y : R) (d : DashLine)
    (strides : list Stride) :
  vector_ready d ->
  lineTo_strides fuel x y false d = Some strides ->
  (forall t,
     lineLength d <= t
       < lineLength d + distance (px (cursor d)) (py (cursor d)) x y ->
     index_at (spans (lineLength d) strides) t = Some (fst (phase d t))) /\
  (forall t,
     t < lineLength d \/
     lineLength d + distance (px (cursor d)) (py (cursor d)) x y <= t ->
     index_at (spans (lineLength d) strides) t = None).
Proof.
  intros (Hv & [Hne Hsize] & Hpos & Hs & HL & Ho) Hw.
  unfold lineTo_strides, lookup, is_closed in Hw. simpl andb in Hw.
  unfold phase. rewrite Hsize in *.
  destruct (locate (dash d) (period (dash d)) (scale d) (lineLength d)
              (opt_offset (options d))) as [i ds] eqn:Hloc.
  simpl fst in Hw. simpl snd in Hw.
  exact (walk_index _ _ _ _ _ _ Hne Hpos Hs Ho fuel _ _ _ _ _ _ _ HL Hloc Hw).
Qed.

Lemma index_at_app (a b : list Span) (t : R) :
  index_at (a ++ b) t
  = match index_at a t with
    | Some i => Some i
    | None => index_at b t
    end.
Proof.
  induction a as [|sp a IH]; [reflexivity|]. simpl.
  destruct (Rle_dec (sp_from sp) t); [|assumption].
  destruct (Rlt_dec t (sp_to sp)); [reflexivity|assumption].
Qed.

Lemma chain_mono (targets : list Point) :
  forall fuel fuel' d r,
    (fuel <= fuel')%nat -> useTexture d = false ->
    chain fuel targets d = Some r -> chain fuel' targets d = Some r.
Proof.
  induction targets as [|p rest IH]; intros fuel fuel' d r Hle Hv H;
    [assumption|].
  simpl in *. rewrite lineTo_vector in * by assumption.
  destruct (lineTo_strides fuel (px p) (py p) false d) as [strides|] eqn:E;
    [|discriminate].
  rewrite (lineTo_strides_mono fuel fuel' _ _ _ _ _ Hle E).
  simpl option_map in *. cbv beta iota in *.
  destruct (chain fuel rest _) as [[sps d'']|] eqn:Er; [|discriminate].
  rewrite (IH fuel fuel'
             (advance (flat_map stride_calls strides) (px p) (py p) d)
             _ Hle Hv Er).
  assumption.
Qed.

(** A chain returns once the fuel suffices for each of its segments. *)
Lemma chain_returns (targets : list Point) :
  forall d, vector_ready d ->
    exists bound, forall fuel, (bound <= fuel)%nat ->
      exists r, chain fuel targets d = Some r.
Proof.
  induction targets as [|p rest IH]; intros d Hd.
  - exists 0%nat. intros fuel _. eexists. reflexivity.
  - destruct (lineTo_strides_returns (px p) (py p) false d Hd) as [b1 Hb1].
    destruct (Hb1 b1 (le_n _)) as [strides Hs].
    set (d' := advance (flat_map stride_calls strides) (px p) (py p) d).
    destruct (IH d' (advance_ready _ _ _ d Hd)) as [b2 Hb2].
    exists (Nat.max b1 b2). intros fuel Hfuel.
    destruct (Hb2 fuel ltac:(lia)) as [[sps d''] Hr].
    simpl. rewrite lineTo_vector by apply Hd.
    rewrite (lineTo_strides_mono b1 fuel _ _ _ _ _ ltac:(lia) Hs).
    simpl option_map. cbv beta iota. fold d'. rewrite Hr.
    eexists. reflexivity.
Qed.

(** Phase continuity along a chain: every distance travelled along it
    lies in a stride that carries the phase of that distance, counted from
    the start of the subpath. *)
Lemma chain_index (targets : list Point) :
  forall fuel d sps d',
    vector_ready d -> chain fuel targets d = Some (sps, d') ->
    lineLength d' = lineLength d + path_length (cursor d) targets /\
    (forall t, lineLength d <= t < lineLength d' ->
       index_at sps t = Some (fst (phase d t))) /\
    (forall t, t < lineLength d -> index_at sps t = None).
Proof.
  induction targets as [|p rest IH]; intros fuel d sps d' Hd H.
  - simpl in H. injection H as <- <-. simpl.
    split; [lra|]. split; [intros t Ht; lra|reflexivity].
  - simpl in H. rewrite lineTo_vector in H by apply Hd.
    destruct (lineTo_strides fuel (px p) (py p) false d) as [strides|] eqn:E;
      [|discriminate].
    simpl option_map in H. cbv beta iota in H.
    set (d1 := advance (flat_map stride_calls strides) (px p) (py p) d) in *.
    destruct (chain fuel rest d1) as [[sps1 d'']|] eqn:Er; [|discriminate].
    injection H as <- <-.
    destruct (IH fuel d1 sps1 d'' (advance_ready _ _ _ d Hd) Er)
      as (Hlen & Hin & Hout).
    destruct (lineTo_strides_index fuel (px p) (py p) d strides Hd E)
      as [Hin1 Hout1].
    assert (HL1 : lineLength d1
                  = lineLength d
                    + distance (px (cursor d)) (py (cursor d)) (px p) (py p))
      by reflexivity.
    assert (Hc1 : cursor d1 = p) by (destruct p; reflexivity).
    pose proof (distance_nonneg (px (cursor d)) (py (cursor d)) (px p) (py p)).
    split; [|split].
    + rewrite Hlen, HL1, Hc1. simpl path_length. lra.
    + intros t Ht. rewrite index_at_app.
      destruct (Rlt_dec t (lineLength d1)) as [Hlt|Hge].
      * rewrite Hin1 by lra. reflexivity.
      * rewrite Hout1 by lra. rewrite Hin by lra. reflexivity.
    + intros t Ht. rewrite index_at_app, Hout1 by lra.
      apply Hout. lra.
Qed.

(** ** Phase continuity on a rectangle *)

Lemma rect_perimeter (x y width height : R) :
  path_length (mkPoint x y) (rect_corners x y width height)
  = 2 * (Rabs width + Rabs height).
Proof.
  unfold rect_corners. cbn [path_length px py].
  rewrite !distance_horizontal, !distance_vertical.
  replace (x + width - x) with width by lra.
  replace (y + height - y) with height by lra.
  replace (x - (x + width)) with (- width) by lra.
  replace (y - (y + height)) with (- height) by lra.
  rewrite !Rabs_Ropp. lra.
Qed.

Lemma line_length (x y len : R) :
  0 <= len -> path_length (mkPoint x y) [mkPoint (x + len) y] = len.
Proof.
  intros Hlen. cbn [path_length px py]. rewrite distance_horizontal.
  replace (x + len - x) with len by lra.
  rewrite Rabs_pos_eq by assumption. lra.
Qed.

(** Phase continuity for the patterns, scales and offsets of the data
    model: when the pattern has at least one entry and only positive
    entries, the scale is positive and the offset is not negative, the
    four sides of a rectangle drawn as chained [lineTo] calls in one
    subpath and one straight line of the rectangle's perimeter run in
    dashes and in gaps at the same travelled distances, and neither resets
    [lineLength]: both end having travelled the perimeter. *)
Theorem phase_continuity (d : DashLine) (x y width height : R) :
  useTexture d = false -> well_formed d -> all_positive (dash d) ->
  0 < scale d -> 0 <= opt_offset (options d) ->
  phase_continuous d x y width height.
Proof.
  intros Hv Hwf Hpos Hs Ho.
  pose proof (moveTo_ready x y d Hv Hwf Hpos Hs Ho) as Hd0.
  set (perimeter := 2 * (Rabs width + Rabs height)).
  assert (Hper : 0 <= perimeter).
  { unfold perimeter. pose proof (Rabs_pos width).
    pose proof (Rabs_pos height). lra. }
  destruct (chain_returns (rect_corners x y width height) _ Hd0)
    as [b1 Hb1].
  destruct (chain_returns [mkPoint (x + perimeter) y] _ Hd0) as [b2 Hb2].
  exists (Nat.max b1 b2). intros fuel Hfuel.
  destruct (Hb1 fuel ltac:(lia)) as [[sides d4] Hsides].
  destruct (Hb2 fuel ltac:(lia)) as [[line d1] Hline].
  exists sides, d4, line, d1.
  destruct (chain_index _ _ _ _ _ Hd0 Hsides) as (Hl4 & Hin4 & _).
  destruct (chain_index _ _ _ _ _ Hd0 Hline) as (Hl1 & Hin1 & _).
  cbn [moveTo lineLength cursor] in Hl4, Hl1, Hin4, Hin1.
  rewrite rect_perimeter in Hl4. fold perimeter in Hl4.
  rewrite line_length in Hl1 by assumption.
  split; [assumption|]. split; [assumption|].
  unfold perimeter in *.
  split; [lra|]. split; [lra|].
  intros t Ht. unfold drawn_at.
  rewrite Hin4, Hin1 by lra.
  split; [reflexivity|discriminate].
Qed.

Lemma phase_continuity_witness : phase_continuous (sample 0) 0 0 7 1.
Proof.
  apply (phase_continuity (sample 0) 0 0 7 1).
  - reflexivity.
  - apply sample_well_formed.
  - apply default_positive.
  - simpl. lra.
  - simpl. lra.
Defined.

(** ** A negative offset *)

(** Building a chain from the strides of its first call. *)
Lemma chain_cons (fuel : nat) (p : Point) (rest : list Point)
    (d : DashLine) (strides : list Stride) (sps : list Span)
    (d' : DashLine) :
  useTexture d = false ->
  lineTo_strides fuel (px p) (py p) false d = Some strides ->
  chain fuel rest
    (advance (flat_map stride_calls strides) (px p) (py p) d)
    = Some (sps, d') ->
  chain fuel (p :: rest) d = Some (spans (lineLength d) strides ++ sps, d').
Proof.
  intros Hv Hs Hr. simpl. rewrite lineTo_vector, Hs by assumption.
  simpl option_map. cbv beta iota. now rewrite Hr.
Qed.

(** On the pattern [[10, 5]] with offset [-20], a segment that starts at a
    negative place and is short enough is one stride of entry 0, however
    long the dash it has already drawn. *)
Lemma shifted_stride (fuel : nat) (g : list GfxCall)
    (L cx cy x y p r : R) (k : Z) (st : Point) :
  L + -20 < 0 -> -15 < p <= 0 -> L + -20 = p + 15 * IZR k ->
  distance cx cy x y = r -> 0 < r -> r <= 10 - p ->
  lineTo_strides (S fuel) x y false
    (mkDashLine g L (mkPoint cx cy) 1 false st (10 + 5) [10; 5] false
       (options shifted))
  = Some [mkStride 0 r
            (mkPoint (cx + cos (JS.atan2 (y - cy) (x - cx)) * r)
                     (cy + sin (JS.atan2 (y - cy) (x - cx)) * r))
            Advance].
Proof.
  intros Ha Hp E Hr Hpos Hle.
  unfold lineTo_strides, lookup, locate, place_of.
  cbn [cursor lineLength dash scale start dashSize options px py shifted
       mergeOptions opt_offset o_offset or_default].
  rewrite (rem_neg_unique (L + -20) ((10 + 5) * 1) p k) by lra.
  cbn [locate_from JS.ltb JS.val].
  destruct (Rlt_dec p (0 + 10 * 1)); [|lra].
  cbn [fst snd]. rewrite Hr.
  rewrite walk_last by (cbn [nth]; lra). reflexivity.
Qed.

(** The straight line of length 16 on the same tracer: a dash of 15, then
    a gap. *)
Lemma shifted_line (fuel : nat) :
  lineTo_strides (S (S fuel)) (0 + 16) 0 false (moveTo 0 0 shifted)
  = Some [mkStride 0 15
            (mkPoint (0 + cos (JS.atan2 (0 - 0) (0 + 16 - 0)) * 15)
                     (0 + sin (JS.atan2 (0 - 0) (0 + 16 - 0)) * 15))
            Advance;
          mkStride 1 1
            (mkPoint (0 + cos (JS.atan2 (0 - 0) (0 + 16 - 0)) * 15
                      + cos (JS.atan2 (0 - 0) (0 + 16 - 0)) * 1)
                     (0 + sin (JS.atan2 (0 - 0) (0 + 16 - 0)) * 15
                      + sin (JS.atan2 (0 - 0) (0 + 16 - 0)) * 1))
            Advance].
Proof.
  unfold lineTo_strides, lookup, locate, place_of.
  cbn [moveTo cursor lineLength dash scale start dashSize options px py
       shifted mergeOptions opt_offset o_offset or_default].
  rewrite (rem_neg_unique (0 + -20) ((10 + 5) * 1) (-5) (-1)) by lra.
  cbn [locate_from JS.ltb JS.val].
  destruct (Rlt_dec (-5) (0 + 10 * 1)); [|lra].
  cbn [fst snd]. rewrite distance_horizontal.
  replace (Rabs (0 + 16 - 0)) with 16
    by (rewrite Rabs_pos_eq; lra).
  rewrite (walk_full _ _ _ _ _ _ _ _ _ _ _ 15) by (cbn [nth]; lra).
  unfold next_index. cbn [length Nat.eqb].
  rewrite walk_last by (cbn [nth]; lra).
  cbn [option_map]. repeat (f_equal; try lra).
Qed.

(** C1 at a failing input: with the pattern [[10, 5]], scale 1 and offset
    [-20] the phase is not continuous.  The remainder [%] keeps the sign
    of [lineLength + offset], so the lookup of every call that starts
    less than 20 along the path finds a negative [place], answers entry 0
    with a negative [dashStart], and the first stride of the call is
    longer than the entry.  The sides of the 7 by 1 rectangle are drawn as
    one unbroken dash, so the surface draws at distance 15.5, while on the
    straight line of length 16 the first dash ends at 15 and 15.5 lies in
    a gap. *)
Lemma negative_offset_breaks_phase : ~ phase_continuous shifted 0 0 7 1.
Proof.
  intros [bound H].
  destruct (H (Nat.max bound 2) (Nat.le_max_l _ _))
    as (sides & d4 & line & d1 & Hsides & Hline & _ & _ & Hall).
  assert (Hv : forall g L c st,
            useTexture (mkDashLine g L c 1 false st (10 + 5) [10; 5] false
                          (options shifted)) = false) by reflexivity.
  assert (Es : exists d4',
    chain 2 (rect_corners 0 0 7 1) (moveTo 0 0 shifted)
    = Some ([mkSpan 0 (0 + 7) 0; mkSpan 7 (7 + 1) 0; mkSpan 8 (8 + 7) 0;
             mkSpan 15 (15 + 1) 0], d4')).
  { eexists. unfold rect_corners.
    eapply eq_trans.
    - eapply chain_cons; [reflexivity| |].
      + apply (shifted_stride 1 _ 0 0 0 (0 + 7) 0 (-5) 7 (-1)); side.
      + eapply chain_cons; [reflexivity| |].
        * apply (shifted_stride 1 _ _ (0 + 7) 0 (0 + 7) (0 + 1) (-13) 1 0);
            side.
        * eapply chain_cons; [reflexivity| |].
          -- apply (shifted_stride 1 _ _ (0 + 7) (0 + 1) 0 (0 + 1)
                      (-12) 7 0); side.
          -- eapply chain_cons; [reflexivity| |].
             ++ apply (shifted_stride 1 _ _ 0 (0 + 1) 0 0 (-5) 1 0); side.
             ++ reflexivity.
    - apply f_equal. apply f_equal2; [|reflexivity].
      cbn [spans app s_dist s_index moveTo shifted advance lineLength
           cursor px py].
      rewrite ?distance_horizontal, ?distance_vertical.
      repeat match goal with
      | |- context [Rabs ?a] =>
          first [ rewrite (Rabs_pos_eq a) by lra
                | rewrite (Rabs_left a) by lra ]
      end.
      repeat (f_equal; try lra). }
  assert (El : exists d1',
    chain 2 [mkPoint (0 + 2 * (Rabs 7 + Rabs 1)) 0] (moveTo 0 0 shifted)
    = Some ([mkSpan 0 (0 + 15) 0; mkSpan 15 (15 + 1) 1], d1')).
  { eexists.
    replace (0 + 2 * (Rabs 7 + Rabs 1)) with (0 + 16)
      by (rewrite !Rabs_pos_eq; lra).
    eapply eq_trans.
    - eapply chain_cons; [reflexivity| |reflexivity].
      apply (shifted_line 0).
    - apply f_equal. apply f_equal2; [|reflexivity].
      cbn [spans app s_dist s_index moveTo shifted advance lineLength
           cursor px py].
      repeat (f_equal; try lra). }
  destruct Es as [d4' Es]. destruct El as [d1' El].
  apply (chain_mono _ 2 (Nat.max bound 2)) in Es;
    [|apply Nat.le_max_r|reflexivity].
  apply (chain_mono _ 2 (Nat.max bound 2)) in El;
    [|apply Nat.le_max_r|reflexivity].
  cbv zeta in Hline.
  rewrite Es in Hsides. rewrite El in Hline.
  injection Hsides as <- _. injection Hline as <- _.
  destruct (Hall (31 / 2)) as [Heq _].
  { rewrite !Rabs_pos_eq; lra. }
  unfold drawn_at in Heq. cbn [index_at sp_from sp_to sp_index] in Heq.
  repeat match type of Heq with
  | context [Rle_dec ?a ?b] =>
      destruct (Rle_dec a b); [try (exfalso; lra)|try (exfalso; lra)]
  | context [Rlt_dec ?a ?b] =>
      destruct (Rlt_dec a b); [try (exfalso; lra)|try (exfalso; lra)]
  end.
  discriminate.
Qed.

(** ** The closing seam *)

Lemma stride_dist_min (remaining dashSize : R) :
  stride_dist remaining dashSize = Rmin remaining dashSize.
Proof.
  unfold stride_dist, Rmin.
  destruct (Rlt_dec dashSize remaining), (Rle_dec remaining dashSize); lra.
Qed.

Lemma ordinary_stride_calls (s : Stride) :
  s_out s = Advance -> stride_calls s = [ordinary_call s].
Proof.
  intros H. unfold stride_calls, ordinary_call. rewrite H.
  now destruct (Nat.odd (s_index s)).
Qed.

(** The closing walk from the point [done] along the segment from the
    cursor to [start]. *)
Lemma walk_closing (d : DashLine) (angle : R) (fuel : nat) :
  angle = JS.atan2 (py (start d) - py (cursor d))
            (px (start d) - px (cursor d)) ->
  forall x0 y0 r i ds done strides,
    x0 = px (cursor d) + cos angle * done ->
    y0 = py (cursor d) + sin angle * done ->
    r = distance (px (cursor d)) (py (cursor d))
          (px (start d)) (py (start d)) - done ->
    walk (dash d) (scale d) (cos angle) (sin angle) true (start d)
      fuel x0 y0 r i ds = Some strides ->
    cyclic_from (dash d) i strides /\
    measured d (px (start d)) (py (start d)) done ds strides /\
    exists advances seam,
      strides = advances ++ seam /\
      Forall (fun s => seam_test d s = false /\ s_out s = Advance)
        advances /\
      ((seam = [] /\ advances = [] /\ r <= 0) \/
       exists s,
         seam = [s] /\ seam_test d s = true /\
         s_out s
         = (if Nat.even (s_index s) then SeamDraw (seam_point d)
            else SeamStop) /\
         flat_map stride_calls strides
         = map ordinary_call advances ++
           (if Nat.even (s_index s)
            then [GLineTo (px (seam_point d)) (py (seam_point d))]
            else [])).
Proof.
  intros Hangle.
  pose proof (sin2_cos2 angle) as Hunit.
  destruct (direction (px (start d) - px (cursor d))
              (py (start d) - py (cursor d))) as [Hc Hsn].
  rewrite <- Hangle in Hc, Hsn.
  fold (distance (px (cursor d)) (py (cursor d))
          (px (start d)) (py (start d))) in Hc, Hsn.
  remember (distance (px (cursor d)) (py (cursor d))
              (px (start d)) (py (start d))) as len eqn:Elen.
  induction fuel as [|fuel IH]; intros x0 y0 r i ds done strides Hx Hy Hr Hw.
  - simpl in Hw. destruct (Rlt_dec 0 r); [discriminate|].
    injection Hw as <-. split; [exact I|]. split; [exact I|].
    exists [], []. split; [reflexivity|]. split; [constructor|]. left.
    repeat split. lra.
  - destruct (Rlt_dec 0 r) as [H0r|H0r].
    2:{ rewrite walk_done in Hw by lra. injection Hw as <-.
        split; [exact I|]. split; [exact I|].
        exists [], []. split; [reflexivity|]. split; [constructor|].
        left. repeat split. lra. }
    assert (Hx0 : x0 = px (start d) - r * cos angle)
      by (rewrite Hx, Hr; lra).
    assert (Hy0 : y0 = py (start d) - r * sin angle)
      by (rewrite Hy, Hr; lra).
    simpl in Hw. destruct (Rlt_dec 0 r); [|lra].
    remember (stride_dist r (stride_size (dash d) (scale d) i ds))
      as dist eqn:Edist.
    assert (Hmin : dist
                   = Rmin (len - done) (nth i (dash d) 0 * scale d - ds)).
    { rewrite Edist, stride_dist_min. unfold stride_size. now rewrite Hr. }
    assert (Hend : mkPoint (x0 + cos angle * dist) (y0 + sin angle * dist)
                   = along d (px (start d)) (py (start d)) (done + dist)).
    { unfold along. rewrite <- Hangle. rewrite Hx, Hy. f_equal; ring. }
    unfold at_seam in Hw. simpl andb in Hw.
    destruct (Rle_dec (distance (x0 + cos angle * dist)
                         (y0 + sin angle * dist)
                         (px (start d)) (py (start d))) dist)
      as [Hseam|Hnot] eqn:Htest.
    + assert (Hpoint : mkPoint
                         (x0 + cos angle
                               * (distance x0 y0 (px (start d))
                                    (py (start d))
                                  - last (dash d) 0 * scale d))
                         (y0 + sin angle
                               * (distance x0 y0 (px (start d))
                                    (py (start d))
                                  - last (dash d) 0 * scale d))
                       = seam_point d).
      { unfold seam_point. rewrite <- Hangle.
        rewrite Hx0, Hy0, distance_on_ray by (assumption || lra).
        f_equal; ring. }
      rewrite Hpoint in Hw.
      destruct (Nat.even i) eqn:Hev; injection Hw as <-;
        (split; [cbn [cyclic_from s_index]; now split|]);
        (split; [cbn [measured s_dist s_index s_end];
                 rewrite <- Elen; repeat split; try assumption; lra|]);
        exists []; eexists; (split; [reflexivity|]);
        (split; [constructor|]);
        right; eexists; (split; [reflexivity|]);
        unfold seam_test; cbn [s_end s_dist s_index s_out px py];
        rewrite Htest, Hev; repeat split.
    + destruct (walk (dash d) (scale d) (cos angle) (sin angle) true
                  (start d) fuel _ _ _ _ _) as [rest|] eqn:E;
        [|discriminate].
      injection Hw as <-.
      assert (Hx' : x0 + cos angle * dist
                    = px (cursor d) + cos angle * (done + dist))
        by (rewrite Hx; ring).
      assert (Hy' : y0 + sin angle * dist
                    = py (cursor d) + sin angle * (done + dist))
        by (rewrite Hy; ring).
      assert (Hr' : r - dist = len - (done + dist)) by lra.
      destruct (IH _ _ _ _ _ _ _ Hx' Hy' Hr' E)
        as (Hcyc & Hmeas & advances & seam & -> & Hall & Hlast).
      split; [cbn [cyclic_from s_index]; now split|].
      split.
      { cbn [measured s_dist s_index s_end]. rewrite <- Elen.
        repeat split; try assumption. lra. }
      exists (mkStride i dist
                (mkPoint (x0 + cos angle * dist) (y0 + sin angle * dist))
                Advance :: advances), seam.
      split; [reflexivity|]. split.
      * constructor; [|assumption]. unfold seam_test.
        cbn [s_end s_dist s_out px py]. rewrite Htest. now split.
      * destruct Hlast as [(_ & _ & Hdone)|(s & -> & Ht & Hout & Hcalls)].
        -- exfalso. apply Hnot.
           assert (Hd : dist = r).
           { rewrite Edist. unfold stride_dist.
             destruct (Rlt_dec (stride_size (dash d) (scale d) i ds) r);
               [|reflexivity].
             rewrite Edist in Hdone. unfold stride_dist in Hdone.
             destruct (Rlt_dec (stride_size (dash d) (scale d) i ds) r);
               lra. }
           rewrite Hd.
           replace (x0 + cos angle * r) with (px (start d))
             by (rewrite Hx0; ring).
           replace (y0 + sin angle * r) with (py (start d))
             by (rewrite Hy0; ring).
           rewrite distance_same. lra.
        -- right. exists s. repeat split; try assumption.
           cbn [flat_map map app]. rewrite Hcalls.
           now rewrite ordinary_stride_calls by reflexivity.
Qed.

(** C2: a vector-mode [lineTo] to [start] with the closing flag walks the
    pattern from the entry the lookup gives, entry after entry, and runs
    ordinary strides, each with its [moveTo] or [lineTo] to the stride's
    end, for as long as the distance from the stride's end to [start]
    exceeds the distance the stride consumes; the first stride for which
    it does not ends the walk, drawing to the point one scaled last entry
    of the pattern before [start] when that stride is a dash and making no
    call when it is a gap.  These are the calls the surface receives, and
    no other.  This holds of every such call that returns, and on a tracer
    the data model allows the call does return. *)
Theorem closing_seam_rule (d : DashLine) :
  seam_rule_holds d /\ (vector_ready d -> closing_returns d).
Proof.
  split.
  - intros fuel d' Hv H. rewrite lineTo_vector in H by exact Hv.
    destruct (lineTo_strides fuel (px (start d)) (py (start d)) true d)
      as [strides|] eqn:Hs; [|discriminate].
    injection H as <-.
    exists strides, (flat_map stride_calls strides).
    split; [reflexivity|]. split; [|reflexivity].
    unfold lineTo_strides, is_closed in Hs. rewrite !eqb_refl in Hs.
    simpl andb in Hs.
    apply (walk_closing d _ fuel eq_refl _ _ _ _ _ 0) in Hs;
      [|ring|ring|ring].
    destruct Hs as (Hcyc & Hmeas & advances & seam & E & Hall & Hlast).
    split; [assumption|]. split; [assumption|].
    exists advances, seam. split; [assumption|]. split; [assumption|].
    destruct Hlast as [(E1 & E2 & Hzero)|Hlast]; [left|right; assumption].
    split; [assumption|]. split; [assumption|].
    rewrite E, E1, E2. split; [|reflexivity].
    assert (Hz : distance (px (cursor d)) (py (cursor d))
                   (px (start d)) (py (start d)) <= 0) by lra.
    apply distance_zero in Hz. destruct Hz as [Ex Ey].
    destruct (cursor d), (start d). simpl in *. now subst.
  - intros Hd.
    destruct (lineTo_strides_returns (px (start d)) (py (start d)) true d Hd)
      as [bound Hbound].
    exists bound. intros fuel Hfuel.
    destruct (Hbound fuel Hfuel) as [strides Hs].
    exists strides. split; [assumption|].
    rewrite lineTo_vector by apply Hd. now rewrite Hs.
Qed.

Lemma closing_seam_rule_witness : closing_returns (sample 32).
Proof.
  apply (proj2 (closing_seam_rule (sample 32))).
  unfold vector_ready. simpl.
  repeat split; try discriminate; try lra.
  apply default_positive.
Defined.

(** The rule at work: closing the subpath from [(32, 0)] back to
    [(0, 0)] on the sample tracer.  The walk resumes 2 into the first
    dash, draws its last 8 to [(24, 0)], lifts over the gap to [(19, 0)],
    and meets the seam in the next dash, whose end [(9, 0)] is 9 from
    [start]: it draws to [(5, 0)], one gap of 5 before [start].  The
    surface receives these three calls. *)
Example closing_from_32 :
  lineTo_strides 3 0 0 true (sample 32)
  = Some [mkStride 0 8 (mkPoint 24 0) Advance;
          mkStride 1 5 (mkPoint 19 0) Advance;
          mkStride 0 10 (mkPoint 9 0) (SeamDraw (mkPoint 5 0))] /\
  seam_point (sample 32) = mkPoint 5 0 /\
  option_map graphics (lineTo 3 0 0 true (sample 32))
  = Some [GLineTo 24 0; GMoveTo 19 0; GLineTo 5 0].
Proof.
  assert (Hangle : JS.atan2 (0 - 0) (0 - 32) = PI).
  { replace (0 - 0) with 0 by lra. apply atan2_left. lra. }
  assert (Hstrides :
    lineTo_strides 3 0 0 true (sample 32)
    = Some [mkStride 0 8 (mkPoint 24 0) Advance;
            mkStride 1 5 (mkPoint 19 0) Advance;
            mkStride 0 10 (mkPoint 9 0) (SeamDraw (mkPoint 5 0))]);
    [|split; [exact Hstrides|split]].
  - unfold lineTo_strides, is_closed, lookup, locate, place_of.
    tracer_fields. rewrite !eqb_refl, Hangle, cos_PI, sin_PI.
    rewrite (rem_unique (32 + 0) ((10 + 5) * 1) 2 2) by lra.
    cbn [locate_from JS.ltb JS.val andb].
    destruct (Rlt_dec 2 (0 + 10 * 1)); [|lra].
    cbn [fst snd]. rewrite distance_horizontal.
    replace (Rabs (0 - 32)) with 32 by (rewrite Rabs_left; lra).
    cbn [walk]. unfold stride_size, stride_dist, at_seam, next_index.
    cbn [nth length Nat.eqb andb Nat.even px py last].
    repeat match goal with
    | |- context [distance ?a ?b 0 0] =>
        replace (distance a b 0 0) with (Rabs (0 - a))
          by (replace b with 0 by lra; now rewrite distance_horizontal)
    | |- context [Rabs ?a] =>
        first [ rewrite (Rabs_pos_eq a) by lra
              | rewrite (Rabs_left a) by lra ]
    | |- context [Rlt_dec ?a ?b] =>
        first [ destruct (Rlt_dec a b); [|exfalso; lra]
              | destruct (Rlt_dec a b); [exfalso; lra|] ]
    | |- context [Rle_dec ?a ?b] =>
        first [ destruct (Rle_dec a b); [|exfalso; lra]
              | destruct (Rle_dec a b); [exfalso; lra|] ]
    end.
    cbn [option_map].
    repeat (f_equal; try lra).
  - unfold seam_point. tracer_fields. rewrite Hangle, cos_PI, sin_PI.
    cbn [last]. f_equal; lra.
  - rewrite lineTo_vector by reflexivity. rewrite Hstrides. reflexivity.
Qed.

(** * Further properties *)

(** ** What every call keeps *)

Lemma lineTo_advances (fuel : nat) (x y : R) (cp : bool) (d d' : DashLine) :
  lineTo fuel x y cp d = Some d' ->
  exists calls, d' = advance calls x y d.
Proof.
  unfold lineTo. destruct (useTexture d).
  - intros H. injection H as <-. eexists. reflexivity.
  - destruct (lineTo_strides fuel x y cp d); [|discriminate].
    intros H. injection H as <-. eexists. reflexivity.
Qed.

(** X1: no call on the tracer touches its configuration: after any run of
    [moveTo] and [lineTo] calls the pattern, its sum, the scale, the
    options and the mode are those before, and the surface has only
    received further calls after those it had. *)
Theorem calls_keep_configuration (fuel : nat) (cs : list TracerCall)
    (d d' : DashLine) :
  run_calls fuel cs d = Some d' ->
  dash d' = dash d /\ dashSize d' = dashSize d /\ scale d' = scale d /\
  options d' = options d /\ useTexture d' = useTexture d /\
  activeTexture d' = activeTexture d /\
  exists calls, graphics d' = graphics d ++ calls.
Proof.
  revert d. induction cs as [|c cs IH]; intros d H.
  - simpl in H. injection H as <-. repeat split; try reflexivity.
    exists []. now rewrite app_nil_r.
  - simpl in H. destruct (run_call fuel c d) as [d1|] eqn:E; [|discriminate].
    destruct (IH d1 H) as (H1 & H2 & H3 & H4 & H5 & H6 & calls & H7).
    assert (K : dash d1 = dash d /\ dashSize d1 = dashSize d /\
                scale d1 = scale d /\ options d1 = options d /\
                useTexture d1 = useTexture d /\
                activeTexture d1 = activeTexture d /\
                exists calls1, graphics d1 = graphics d ++ calls1).
    { destruct c as [x y|x y cp]; simpl in E.
      - injection E as <-. repeat split; try reflexivity.
        eexists. reflexivity.
      - apply lineTo_advances in E. destruct E as [calls1 ->].
        repeat split; try reflexivity. eexists. reflexivity. }
    destruct K as (K1 & K2 & K3 & K4 & K5 & K6 & calls1 & K7).
    repeat split; try congruence.
    exists (calls1 ++ calls). rewrite H7, K7. now rewrite app_assoc.
Qed.

Lemma calls_keep_configuration_witness :
  dash (advance (texture_calls 1 0 false (moveTo 0 0 sample_texture)) 1 0
          (moveTo 0 0 sample_texture)) = dash sample_texture /\
  dashSize (advance (texture_calls 1 0 false (moveTo 0 0 sample_texture)) 1 0
              (moveTo 0 0 sample_texture)) = dashSize sample_texture /\
  scale (advance (texture_calls 1 0 false (moveTo 0 0 sample_texture)) 1 0
           (moveTo 0 0 sample_texture)) = scale sample_texture /\
  options (advance (texture_calls 1 0 false (moveTo 0 0 sample_texture)) 1 0
             (moveTo 0 0 sample_texture)) = options sample_texture /\
  useTexture (advance (texture_calls 1 0 false (moveTo 0 0 sample_texture))
                1 0 (moveTo 0 0 sample_texture))
    = useTexture sample_texture /\
  activeTexture (advance (texture_calls 1 0 false (moveTo 0 0 sample_texture))
                   1 0 (moveTo 0 0 sample_texture))
    = activeTexture sample_texture /\
  exists calls,
    graphics (advance (texture_calls 1 0 false (moveTo 0 0 sample_texture))
                1 0 (moveTo 0 0 sample_texture))
    = graphics sample_texture ++ calls.
Proof.
  apply (calls_keep_configuration 0
           [CMoveTo 0 0; CLineTo 1 0 false] sample_texture).
  reflexivity.
Defined.

(** ** The length of a subpath *)

Lemma last_default {A : Type} (a : A) (l : list A) (d1 d2 : A) :
  last (a :: l) d1 = last (a :: l) d2.
Proof.
  revert a. induction l as [|b l IH]; intros a; [reflexivity|].
  change (last (b :: l) d1 = last (b :: l) d2). apply IH.
Qed.

Lemma lineTo_calls_account (fuel : nat) (targets : list (Point * bool)) :
  forall d d',
    run_calls fuel (lineTo_calls targets) d = Some d' ->
    start d' = start d /\
    lineLength d' = lineLength d + path_length (cursor d) (map fst targets) /\
    cursor d' = last (map fst targets) (cursor d).
Proof.
  induction targets as [|[p cp] rest IH]; intros d d' H.
  - simpl in H. injection H as <-. simpl. repeat split. lra.
  - simpl in H.
    destruct (lineTo fuel (px p) (py p) cp d) as [d1|] eqn:E; [|discriminate].
    apply lineTo_advances in E. destruct E as [calls ->].
    destruct (IH _ _ H) as (Hs & Hl & Hc).
    assert (Ec : cursor (advance calls (px p) (py p) d) = p)
      by (destruct p; reflexivity).
    rewrite Ec in Hl, Hc.
    split; [exact Hs|]. split.
    + rewrite Hl. simpl. lra.
    + rewrite Hc. simpl map.
      destruct (map fst rest) as [|q l]; [reflexivity|].
      change (last (p :: q :: l) (cursor d)) with (last (q :: l) (cursor d)).
      apply last_default.
Qed.

(** X2: [lineLength] is the length of the current subpath: after
    [moveTo(x0, y0)] and any run of [lineTo] calls, closing or not, in
    either mode, it is the length of the polyline from [(x0, y0)] through
    the targets, [start] is [(x0, y0)] and the cursor is the last
    target. *)
Theorem subpath_length (fuel : nat) (x0 y0 : R)
    (targets : list (Point * bool)) (d d' : DashLine) :
  run_calls fuel (CMoveTo x0 y0 :: lineTo_calls targets) d = Some d' ->
  start d' = mkPoint x0 y0 /\
  lineLength d' = path_length (mkPoint x0 y0) (map fst targets) /\
  cursor d' = last (map fst targets) (mkPoint x0 y0).
Proof.
  intros H. simpl in H.
  destruct (lineTo_calls_account fuel targets _ _ H) as (Hs & Hl & Hc).
  simpl in Hs, Hl, Hc. repeat split; try assumption. lra.
Qed.

Lemma subpath_length_witness :
  start (advance (texture_calls 1 0 false (moveTo 0 0 sample_texture)) 1 0
           (moveTo 0 0 sample_texture)) = mkPoint 0 0 /\
  lineLength (advance (texture_calls 1 0 false (moveTo 0 0 sample_texture))
                1 0 (moveTo 0 0 sample_texture))
    = path_length (mkPoint 0 0) (map fst [(mkPoint 1 0, false)]) /\
  cursor (advance (texture_calls 1 0 false (moveTo 0 0 sample_texture)) 1 0
            (moveTo 0 0 sample_texture))
    = last (map fst [(mkPoint 1 0, false)]) (mkPoint 0 0).
Proof.
  apply (subpath_length 0 0 0 [(mkPoint 1 0, false)] sample_texture).
  reflexivity.
Defined.

(** ** Every run of calls returns *)

Lemma run_calls_mono (cs : list TracerCall) :
  forall fuel fuel' d d',
    (fuel <= fuel')%nat ->
    run_calls fuel cs d = Some d' -> run_calls fuel' cs d = Some d'.
Proof.
  induction cs as [|c cs IH]; intros fuel fuel' d d' Hle H;
    [assumption|].
  simpl in *.
  destruct (run_call fuel c d) as [d1|] eqn:E; [|discriminate].
  assert (E' : run_call fuel' c d = Some d1).
  { destruct c as [x y|x y cp]; [assumption|]. simpl in *.
    unfold lineTo in *. destruct (useTexture d); [assumption|].
    destruct (lineTo_strides fuel x y cp d) as [strides|] eqn:Es;
      [|discriminate].
    now rewrite (lineTo_strides_mono fuel fuel' _ _ _ _ _ Hle Es). }
  rewrite E'. now apply IH with (fuel := fuel).
Qed.

Lemma run_calls_vector_returns (cs : list TracerCall) :
  forall d, vector_ready d ->
    exists bound, forall fuel, (bound <= fuel)%nat ->
      exists d', run_calls fuel cs d = Some d' /\ vector_ready d'.
Proof.
  induction cs as [|c cs IH]; intros d Hd.
  - exists 0%nat. intros fuel _. exists d. now split.
  - destruct c as [x y|x y cp].
    + assert (Hm : vector_ready (moveTo x y d)).
      { destruct Hd as (Hv & Hwf & Hpos & Hs & _ & Ho).
        now apply moveTo_ready. }
      destruct (IH _ Hm) as [b Hb]. exists b. intros fuel Hfuel.
      simpl. now apply Hb.
    + destruct (lineTo_strides_returns x y cp d Hd) as [b1 Hb1].
      destruct (Hb1 b1 (le_n _)) as [strides Hs].
      set (d1 := advance (flat_map stride_calls strides) x y d).
      destruct (IH d1 (advance_ready _ _ _ d Hd)) as [b2 Hb2].
      exists (Nat.max b1 b2). intros fuel Hfuel.
      destruct (Hb2 fuel ltac:(lia)) as [d' Hr].
      exists d'. simpl. rewrite lineTo_vector by apply Hd.
      rewrite (lineTo_strides_mono b1 fuel _ _ _ _ _ ltac:(lia) Hs).
      exact Hr.
Qed.

Lemma run_calls_texture_returns (fuel : nat) (cs : list TracerCall) :
  forall d, useTexture d = true -> exists d', run_calls fuel cs d = Some d'.
Proof.
  induction cs as [|c cs IH]; intros d Hd.
  - exists d. reflexivity.
  - destruct c as [x y|x y cp]; simpl.
    + now apply IH.
    + unfold lineTo. rewrite Hd. now apply IH.
Qed.

(** X3: in exact arithmetic, on a tracer in texture mode, or in vector
    mode with a pattern of positive entries, a positive scale and offset
    and travelled distance not negative, every finite run of [moveTo] and
    [lineTo] calls, closing or not, returns once the fuel suffices: the
    segmentation loop always ends there.  The numbers are the reals: what
    rounding does to a stride that is tiny beside the distance left is
    not covered. *)
Theorem calls_return (cs : list TracerCall) (d : DashLine) :
  useTexture d = true \/ vector_ready d ->
  exists bound, forall fuel, (bound <= fuel)%nat ->
    exists d', run_calls fuel cs d = Some d'.
Proof.
  intros [Ht|Hv].
  - exists 0%nat. intros fuel _. now apply run_calls_texture_returns.
  - destruct (run_calls_vector_returns cs d Hv) as [b Hb].
    exists b. intros fuel Hfuel.
    destruct (Hb fuel Hfuel) as (d' & H & _). now exists d'.
Qed.

Lemma sample_ready (t : R) : 0 <= t -> vector_ready (sample t).
Proof.
  intros Ht. unfold vector_ready. simpl.
  repeat split; try discriminate; try lra. apply default_positive.
Qed.

Lemma calls_return_witness :
  exists bound, forall fuel, (bound <= fuel)%nat ->
    exists d',
      run_calls fuel (rect_calls 0 0 7 1 None) (sample 0) = Some d'.
Proof.
  apply (calls_return (rect_calls 0 0 7 1 None) (sample 0)).
  right. apply sample_ready. lra.
Defined.

(** ** The strides of an open segment *)

Lemma last_cons_default {A : Type} (a : A) (l : list A) (dflt : A) :
  last (a :: l) dflt = last l a.
Proof.
  destruct l as [|b l]; [reflexivity|].
  change (last (b :: l) dflt = last (b :: l) a). apply last_default.
Qed.

Section OpenShape.

Variable dash_ : list R.
Variable scale_ : R.
Variables cos_ sin_ : R.
Variable start_ : Point.
Hypothesis dash_nonempty : dash_ <> [].
Hypothesis dash_positive : all_positive dash_.
Hypothesis scale_positive : 0 < scale_.

Lemma walk_open_shape (fuel : nat) :
  forall x y r i ds strides,
    (i < length dash_)%nat -> 0 <= ds < nth i dash_ 0 * scale_ -> 0 <= r ->
    walk dash_ scale_ cos_ sin_ false start_ fuel x y r i ds = Some strides ->
    total_dist strides = r /\
    Forall (fun s => 0 < s_dist s <= nth (s_index s) dash_ 0 * scale_ /\
                     (s_index s < length dash_)%nat /\ s_out s = Advance)
      strides /\
    cyclic_from dash_ i strides /\
    (forall pre s post,
       strides = pre ++ s :: post -> post <> [] ->
       s_dist s = nth (s_index s) dash_ 0 * scale_
                  - match pre with [] => ds | _ => 0 end) /\
    last (map s_end strides) (mkPoint x y)
    = mkPoint (x + cos_ * r) (y + sin_ * r).
Proof.
  induction fuel as [|fuel IH]; intros x y r i ds strides Hi Hds Hr Hw.
  - simpl in Hw. destruct (Rlt_dec 0 r) as [|Hn]; [discriminate|].
    injection Hw as <-. assert (r = 0) as -> by lra. simpl.
    repeat split; auto.
    + intros pre s post E. destruct pre; discriminate.
    + f_equal; ring.
  - destruct (Rlt_dec 0 r) as [Hpos|Hn].
    2:{ rewrite walk_done in Hw by lra. injection Hw as <-.
        assert (r = 0) as -> by lra. simpl. repeat split; auto.
        - intros pre s post E. destruct pre; discriminate.
        - f_equal; ring. }
    destruct (Rlt_dec (nth i dash_ 0 * scale_ - ds) r) as [Hlt|Hge].
    + rewrite (walk_full dash_ scale_ cos_ sin_ start_ fuel x y r i ds
                 (nth i dash_ 0 * scale_ - ds)) in Hw by (reflexivity || lra).
      destruct (walk dash_ scale_ cos_ sin_ false start_ fuel _ _ _ _ _)
        as [rest|] eqn:Erest; [|discriminate].
      injection Hw as <-.
      assert (Hni : (next_index dash_ i < length dash_)%nat)
        by (apply next_index_range; assumption).
      pose proof (nth_positive dash_ scale_ _ dash_positive scale_positive
                    Hni) as Hnp.
      assert (Hds0 : 0 <= 0 < nth (next_index dash_ i) dash_ 0 * scale_)
        by lra.
      assert (Hr0 : 0 <= r - (nth i dash_ 0 * scale_ - ds)) by lra.
      destruct (IH _ _ _ _ _ rest Hni Hds0 Hr0 Erest)
        as (Ht & Hall & Hcyc & Hfull & Hlast).
      cbn [total_dist s_dist map s_end cyclic_from s_index].
      split; [rewrite Ht; lra|]. split.
      { constructor; [|assumption]. cbn [s_dist s_index s_out].
        repeat split; try assumption; lra. }
      split; [now split|]. split.
      { intros pre s post E Hpost. destruct pre as [|s1 pre].
        - injection E as <- _. reflexivity.
        - injection E as _ E. rewrite (Hfull pre s post E Hpost).
          destruct pre; reflexivity. }
      rewrite last_cons_default, Hlast. f_equal; ring.
    + rewrite walk_last in Hw by lra. injection Hw as <-.
      cbn [total_dist s_dist map s_end cyclic_from s_index last].
      split; [lra|]. split.
      { constructor; [|constructor]. cbn [s_dist s_index s_out].
        repeat split; try assumption; lra. }
      split; [now split|]. split; [|reflexivity].
      intros pre s post E Hpost.
      destruct pre as [|s1 pre]; [injection E as _ <-; congruence|].
      destruct pre; discriminate.
Qed.

End OpenShape.

Lemma lookup_range (d : DashLine) :
  vector_ready d ->
  (fst (lookup d) < length (dash d))%nat /\
  0 <= snd (lookup d) < nth (fst (lookup d)) (dash d) 0 * scale d.
Proof.
  intros (Hv & [Hne Hsize] & Hpos & Hs & HL & Ho).
  unfold lookup. rewrite Hsize.
  destruct (locate (dash d) (period (dash d)) (scale d) (lineLength d)
              (opt_offset (options d))) as [i ds] eqn:Hloc.
  exact (locate_range _ _ _ Hne Hpos Hs Ho _ _ _ HL Hloc).
Qed.

Lemma target_along (d : DashLine) (x y : R) :
  mkPoint
    (px (cursor d)
     + cos (JS.atan2 (y - py (cursor d)) (x - px (cursor d)))
       * distance (px (cursor d)) (py (cursor d)) x y)
    (py (cursor d)
     + sin (JS.atan2 (y - py (cursor d)) (x - px (cursor d)))
       * distance (px (cursor d)) (py (cursor d)) x y)
  = mkPoint x y.
Proof.
  destruct (direction (x - px (cursor d)) (y - py (cursor d))) as [Hc Hs].
  unfold distance. f_equal; lra.
Qed.

Lemma open_strides_facts (fuel : nat) (x y : R) (d : DashLine)
    (strides : list Stride) :
  vector_ready d ->
  lineTo_strides fuel x y false d = Some strides ->
  total_dist strides = distance (px (cursor d)) (py (cursor d)) x y /\
  Forall (fun s => 0 < s_dist s <= nth (s_index s) (dash d) 0 * scale d /\
                   (s_index s < length (dash d))%nat /\ s_out s = Advance)
    strides /\
  cyclic_from (dash d) (fst (lookup d)) strides /\
  (forall pre s post,
     strides = pre ++ s :: post -> post <> [] ->
     s_dist s = nth (s_index s) (dash d) 0 * scale d
                - match pre with [] => snd (lookup d) | _ => 0 end) /\
  last (map s_end strides) (cursor d) = mkPoint x y.
Proof.
  intros Hd Hw.
  destruct (lookup_range d Hd) as [Hi Hds].
  destruct Hd as (Hv & [Hne Hsize] & Hpos & Hs & HL & Ho).
  unfold lineTo_strides, is_closed in Hw. simpl andb in Hw.
  destruct (walk_open_shape _ _ _ _ _ Hne Hpos Hs fuel _ _ _ _ _ _ Hi Hds
              (distance_nonneg _ _ _ _) Hw)
    as (Ht & Hall & Hcyc & Hfull & Hlast).
  repeat split; try assumption.
  rewrite <- (target_along d x y), <- Hlast.
  destruct (cursor d); reflexivity.
Qed.


(** X4: in exact arithmetic, the strides of an open vector-mode [lineTo]
    on a valid tracer split the segment: their lengths are positive and
    add up to the length of the segment, none is longer than the scaled
    pattern entry it runs in, their indexes start at the one the lookup
    gives and follow each other cyclically, every stride but the last
    runs to the end of its entry, and the last one ends on the target.
    The numbers are the reals: the rounding of the running sums is not
    covered. *)
Theorem open_strides_shape (fuel : nat) (x y : R) (d : DashLine)
    (strides : list Stride) :
  vector_ready d ->
  lineTo_strides fuel x y false d = Some strides ->
  total_dist strides = distance (px (cursor d)) (py (cursor d)) x y /\
  Forall (fun s => 0 < s_dist s <= nth (s_index s) (dash d) 0 * scale d /\
                   (s_index s < length (dash d))%nat /\ s_out s = Advance)
    strides /\
  cyclic_from (dash d) (fst (lookup d)) strides /\
  (forall pre s post,
     strides = pre ++ s :: post -> post <> [] ->
     s_dist s = nth (s_index s) (dash d) 0 * scale d
                - match pre with [] => snd (lookup d) | _ => 0 end) /\
  last (map s_end strides) (cursor d) = mkPoint x y.
Proof. apply open_strides_facts. Qed.

Lemma open_strides_shape_witness :
  total_dist [mkStride 0 10 (mkPoint (0 + 10) 0) Advance;
              mkStride 1 5 (mkPoint (0 + 15) 0) Advance;
              mkStride 0 10 (mkPoint (0 + 25) 0) Advance;
              mkStride 1 5 (mkPoint (0 + 30) 0) Advance;
              mkStride 0 2 (mkPoint (0 + 32) 0) Advance]
  = distance (px (cursor (moveTo 0 0 default_tracer)))
      (py (cursor (moveTo 0 0 default_tracer))) (0 + 32) 0 /\
  Forall (fun s => 0 < s_dist s
                     <= nth (s_index s) (dash (moveTo 0 0 default_tracer)) 0
                        * scale (moveTo 0 0 default_tracer) /\
                   (s_index s < length (dash (moveTo 0 0 default_tracer)))%nat
                   /\ s_out s = Advance)
    [mkStride 0 10 (mkPoint (0 + 10) 0) Advance;
     mkStride 1 5 (mkPoint (0 + 15) 0) Advance;
     mkStride 0 10 (mkPoint (0 + 25) 0) Advance;
     mkStride 1 5 (mkPoint (0 + 30) 0) Advance;
     mkStride 0 2 (mkPoint (0 + 32) 0) Advance] /\
  cyclic_from (dash (moveTo 0 0 default_tracer))
    (fst (lookup (moveTo 0 0 default_tracer)))
    [mkStride 0 10 (mkPoint (0 + 10) 0) Advance;
     mkStride 1 5 (mkPoint (0 + 15) 0) Advance;
     mkStride 0 10 (mkPoint (0 + 25) 0) Advance;
     mkStride 1 5 (mkPoint (0 + 30) 0) Advance;
     mkStride 0 2 (mkPoint (0 + 32) 0) Advance] /\
  (forall pre s post,
     [mkStride 0 10 (mkPoint (0 + 10) 0) Advance;
      mkStride 1 5 (mkPoint (0 + 15) 0) Advance;
      mkStride 0 10 (mkPoint (0 + 25) 0) Advance;
      mkStride 1 5 (mkPoint (0 + 30) 0) Advance;
      mkStride 0 2 (mkPoint (0 + 32) 0) Advance] = pre ++ s :: post ->
     post <> [] ->
     s_dist s = nth (s_index s) (dash (moveTo 0 0 default_tracer)) 0
                * scale (moveTo 0 0 default_tracer)
                - match pre with
                  | [] => snd (lookup (moveTo 0 0 default_tracer))
                  | _ => 0
                  end) /\
  last (map s_end
          [mkStride 0 10 (mkPoint (0 + 10) 0) Advance;
           mkStride 1 5 (mkPoint (0 + 15) 0) Advance;
           mkStride 0 10 (mkPoint (0 + 25) 0) Advance;
           mkStride 1 5 (mkPoint (0 + 30) 0) Advance;
           mkStride 0 2 (mkPoint (0 + 32) 0) Advance])
    (cursor (moveTo 0 0 default_tracer)) = mkPoint (0 + 32) 0.
Proof.
  apply (open_strides_shape 5 (0 + 32) 0 (moveTo 0 0 default_tracer)).
  - unfold vector_ready. simpl.
    repeat split; try discriminate; try lra. apply default_positive.
  - apply (default_strides_32 0 0 0).
Defined.

(** ** The calls of an open segment *)

Lemma advance_calls (strides : list Stride) :
  Forall (fun s => s_out s = Advance) strides ->
  forall (q : Point) (dflt : GfxCall),
  forallb is_path_call (flat_map stride_calls strides) = true /\
  length (flat_map stride_calls strides) = length strides /\
  (strides <> [] ->
   last (flat_map stride_calls strides) dflt
   = GMoveTo (px (last (map s_end strides) q))
             (py (last (map s_end strides) q)) \/
   last (flat_map stride_calls strides) dflt
   = GLineTo (px (last (map s_end strides) q))
             (py (last (map s_end strides) q))).
Proof.
  induction 1 as [|s rest Hs Hrest IH]; intros q dflt.
  - simpl. repeat split. congruence.
  - assert (E : stride_calls s
                = [if Nat.odd (s_index s)
                   then GMoveTo (px (s_end s)) (py (s_end s))
                   else GLineTo (px (s_end s)) (py (s_end s))])
      by (unfold stride_calls; rewrite Hs;
          now destruct (Nat.odd (s_index s))).
    destruct (IH (s_end s)
                (if Nat.odd (s_index s)
                 then GMoveTo (px (s_end s)) (py (s_end s))
                 else GLineTo (px (s_end s)) (py (s_end s))))
      as (Hp & Hl & Hlast).
    cbn [flat_map map]. rewrite E. cbn [app].
    split; [|split].
    + cbn [forallb]. rewrite Hp. now destruct (Nat.odd (s_index s)).
    + cbn [length]. now rewrite Hl.
    + intros _. rewrite !last_cons_default.
      destruct rest as [|s' rest'].
      * simpl. destruct (Nat.odd (s_index s)); [now left|now right].
      * apply Hlast. discriminate.
Qed.

Lemma total_dist_positive (strides : list Stride) :
  Forall (fun s => 0 < s_dist s) strides ->
  strides <> [] -> 0 < total_dist strides.
Proof.
  induction 1 as [|s rest Hs Hrest IH]; intros Hne; [congruence|].
  simpl. destruct rest as [|s' rest'].
  - simpl. lra.
  - assert (0 < total_dist (s' :: rest')) by (apply IH; discriminate). lra.
Qed.

Lemma open_measured (d : DashLine) (x y angle : R) (fuel : nat) :
  angle = JS.atan2 (y - py (cursor d)) (x - px (cursor d)) ->
  forall x0 y0 r i ds done strides,
    x0 = px (cursor d) + cos angle * done ->
    y0 = py (cursor d) + sin angle * done ->
    r = distance (px (cursor d)) (py (cursor d)) x y - done ->
    walk (dash d) (scale d) (cos angle) (sin angle) false (start d)
      fuel x0 y0 r i ds = Some strides ->
    measured d x y done ds strides.
Proof.
  intros Hangle.
  induction fuel as [|fuel IH]; intros x0 y0 r i ds done strides Hx Hy Hr Hw.
  - simpl in Hw. destruct (Rlt_dec 0 r); [discriminate|].
    injection Hw as <-. exact I.
  - simpl in Hw. destruct (Rlt_dec 0 r) as [H0r|H0r].
    2:{ injection Hw as <-. exact I. }
    remember (stride_dist r (stride_size (dash d) (scale d) i ds))
      as dist eqn:Edist.
    unfold at_seam in Hw. simpl andb in Hw. cbv iota in Hw.
    destruct (walk (dash d) (scale d) (cos angle) (sin angle) false
                (start d) fuel _ _ _ _ _) as [rest|] eqn:E;
      [|discriminate].
    injection Hw as <-.
    assert (Hx' : x0 + cos angle * dist
                  = px (cursor d) + cos angle * (done + dist))
      by (rewrite Hx; ring).
    assert (Hy' : y0 + sin angle * dist
                  = py (cursor d) + sin angle * (done + dist))
      by (rewrite Hy; ring).
    assert (Hr' : r - dist
                  = distance (px (cursor d)) (py (cursor d)) x y
                    - (done + dist)) by lra.
    pose proof (IH _ _ _ _ _ _ _ Hx' Hy' Hr' E) as Hmeas.
    cbn [measured s_dist s_index s_end].
    split; [lra|]. split.
    { rewrite Edist, stride_dist_min. unfold stride_size. now rewrite Hr. }
    split; [|exact Hmeas].
    unfold along. rewrite <- Hangle, Hx, Hy. f_equal; ring.
Qed.

Lemma open_strides_measured (fuel : nat) (x y : R) (d : DashLine)
    (strides : list Stride) :
  lineTo_strides fuel x y false d = Some strides ->
  measured d x y 0 (snd (lookup d)) strides.
Proof.
  intros Hw. unfold lineTo_strides, is_closed in Hw. simpl andb in Hw.
  apply (open_measured d x y _ fuel eq_refl _ _ _ _ _ 0) in Hw;
    [assumption|ring|ring|ring].
Qed.

Lemma ordinary_calls (strides : list Stride) :
  Forall (fun s => s_out s = Advance) strides ->
  flat_map stride_calls strides = map ordinary_call strides.
Proof.
  induction 1 as [|s rest Hs _ IH]; [reflexivity|].
  cbn [flat_map map]. now rewrite IH, ordinary_stride_calls.
Qed.

(** X5: an open vector-mode [lineTo] on a valid tracer makes one call on
    the surface for each iteration of its loop, in order: a [lineTo] to
    the end of the stride when the iteration runs in a dash, a [moveTo]
    to it when it runs in a gap, and nothing else.  The iterations run
    through the pattern cyclically from the entry the lookup gives, and
    each ends on the segment, as far from the cursor as the iterations
    so far have consumed.  The call makes no call on the surface exactly
    when the target is the cursor, and otherwise, in exact arithmetic,
    its last call leaves the pen of the surface on the target. *)
Theorem open_lineTo_calls (fuel : nat) (x y : R) (d d' : DashLine) :
  vector_ready d ->
  lineTo fuel x y false d = Some d' ->
  exists strides calls,
    lineTo_strides fuel x y false d = Some strides /\
    cyclic_from (dash d) (fst (lookup d)) strides /\
    measured d x y 0 (snd (lookup d)) strides /\
    calls = map ordinary_call strides /\
    graphics d' = graphics d ++ calls /\
    forallb is_path_call calls = true /\
    (calls = [] <-> cursor d = mkPoint x y) /\
    (calls <> [] ->
     last calls GClosePath = GMoveTo x y \/
     last calls GClosePath = GLineTo x y).
Proof.
  intros Hd H. rewrite lineTo_vector in H by apply Hd.
  destruct (lineTo_strides fuel x y false d) as [strides|] eqn:Es;
    [|discriminate].
  injection H as <-.
  destruct (open_strides_facts fuel x y d strides Hd Es)
    as (Ht & Hall & Hcyc & _ & Hlast).
  assert (Hadv : Forall (fun s => s_out s = Advance) strides).
  { eapply Forall_impl; [|exact Hall]. intros s Hs. apply Hs. }
  assert (Hdist : Forall (fun s => 0 < s_dist s) strides).
  { eapply Forall_impl; [|exact Hall]. intros s Hs. apply Hs. }
  destruct (advance_calls strides Hadv (cursor d) GClosePath)
    as (Hp & Hl & Hend).
  rewrite (ordinary_calls strides Hadv) in Hp, Hl, Hend.
  exists strides, (map ordinary_call strides).
  split; [reflexivity|]. split; [assumption|].
  split; [now apply (open_strides_measured fuel)|].
  split; [reflexivity|].
  split; [cbn [advance graphics]; now rewrite ordinary_calls|].
  split; [assumption|]. split; [split|].
  - intros E. rewrite E in Hl. simpl in Hl.
    destruct strides; [|discriminate]. simpl in Ht.
    destruct (distance_zero _ _ _ _ (Req_le_sym _ _ Ht)) as [Ex Ey].
    destruct (cursor d). simpl in *. now subst.
  - intros E. destruct strides as [|s rest]; [reflexivity|].
    pose proof (total_dist_positive (s :: rest) Hdist ltac:(discriminate)).
    rewrite Ht, E in H. simpl in H. rewrite distance_same in H. lra.
  - intros Hne.
    assert (Hs : strides <> []) by (intros ->; now apply Hne).
    rewrite Hlast in Hend. simpl in Hend. now apply Hend.
Qed.

Lemma open_lineTo_calls_witness :
  exists strides calls,
    lineTo_strides 5 (0 + 32) 0 false (moveTo 0 0 default_tracer)
      = Some strides /\
    cyclic_from (dash (moveTo 0 0 default_tracer))
      (fst (lookup (moveTo 0 0 default_tracer))) strides /\
    measured (moveTo 0 0 default_tracer) (0 + 32) 0 0
      (snd (lookup (moveTo 0 0 default_tracer))) strides /\
    calls = map ordinary_call strides /\
    graphics (advance
                (flat_map stride_calls
                   [mkStride 0 10 (mkPoint (0 + 10) 0) Advance;
                    mkStride 1 5 (mkPoint (0 + 15) 0) Advance;
                    mkStride 0 10 (mkPoint (0 + 25) 0) Advance;
                    mkStride 1 5 (mkPoint (0 + 30) 0) Advance;
                    mkStride 0 2 (mkPoint (0 + 32) 0) Advance])
                (0 + 32) 0 (moveTo 0 0 default_tracer))
    = graphics (moveTo 0 0 default_tracer) ++ calls /\
    forallb is_path_call calls = true /\
    (calls = [] <-> cursor (moveTo 0 0 default_tracer) = mkPoint (0 + 32) 0)
    /\
    (calls <> [] ->
     last calls GClosePath = GMoveTo (0 + 32) 0 \/
     last calls GClosePath = GLineTo (0 + 32) 0).
Proof.
  apply (open_lineTo_calls 5 (0 + 32) 0 (moveTo 0 0 default_tracer)).
  - unfold vector_ready. simpl.
    repeat split; try discriminate; try lra. apply default_positive.
  - rewrite lineTo_vector by reflexivity.
    now rewrite (default_strides_32 0 0 0
                   : lineTo_strides 5 (0 + 32) 0 false _ = _).
Defined.

(** ** Open polylines *)

Lemma measured_span_calls (d : DashLine) (p : Point) (rest : list Point) :
  forall strides from done ds,
    from = lineLength d + done ->
    measured d (px p) (py p) done ds strides ->
    map ordinary_call strides
    = map (span_call (cursor d) (p :: rest) (lineLength d))
        (spans from strides).
Proof.
  induction strides as [|s strides IH]; intros from done ds Hfrom H;
    [reflexivity|].
  cbn [measured] in H. destruct H as (Hlt & Hdist & Hend & Hrest).
  cbn [map spans]. f_equal.
  - unfold ordinary_call, span_call. cbn [sp_to sp_index point_at].
    pose proof (Rmin_l
                  (distance (px (cursor d)) (py (cursor d)) (px p) (py p)
                   - done)
                  (nth (s_index s) (dash d) 0 * scale d - ds)) as Hmin.
    rewrite <- Hdist in Hmin.
    destruct (Rle_dec (from + s_dist s - lineLength d)
                (distance (px (cursor d)) (py (cursor d)) (px p) (py p)))
      as [_|Hn]; [|exfalso; lra].
    rewrite Hend. unfold along. cbn [px py].
    replace (from + s_dist s - lineLength d) with (done + s_dist s) by lra.
    rewrite <- Nat.negb_even. now destruct (Nat.even (s_index s)).
  - apply (IH _ (done + s_dist s) 0); [lra|assumption].
Qed.

Lemma spans_beyond (L : R) (strides : list Stride) :
  Forall (fun s => 0 < s_dist s) strides ->
  forall from, L <= from -> Forall (fun sp => L < sp_to sp) (spans from strides).
Proof.
  induction 1 as [|s strides Hs _ IH]; intros from Hfrom; [constructor|].
  cbn [spans]. constructor; [cbn [sp_to]; lra|]. apply IH. lra.
Qed.

(** The calls of a chain, stretch by stretch. *)
Lemma chain_calls (targets : list Point) :
  forall fuel d sps d',
    vector_ready d -> chain fuel targets d = Some (sps, d') ->
    graphics d'
    = graphics d ++ map (span_call (cursor d) targets (lineLength d)) sps /\
    Forall (fun sp => lineLength d < sp_to sp) sps.
Proof.
  induction targets as [|p rest IH]; intros fuel d sps d' Hd H.
  - simpl in H. injection H as <- <-. simpl.
    split; [now rewrite app_nil_r|constructor].
  - simpl in H. rewrite lineTo_vector in H by apply Hd.
    destruct (lineTo_strides fuel (px p) (py p) false d) as [strides|] eqn:E;
      [|discriminate].
    simpl option_map in H. cbv beta iota in H.
    remember (advance (flat_map stride_calls strides) (px p) (py p) d)
      as d1 eqn:Ed1.
    destruct (chain fuel rest d1) as [[sps1 d'']|] eqn:Er; [|discriminate].
    injection H as <- <-.
    assert (Hd1 : vector_ready d1) by (rewrite Ed1; now apply advance_ready).
    destruct (IH fuel d1 sps1 d'' Hd1 Er) as (Hg & Hbeyond).
    destruct (open_strides_facts fuel (px p) (py p) d strides Hd E)
      as (_ & Hall & _).
    assert (Hadv : Forall (fun s => s_out s = Advance) strides).
    { eapply Forall_impl; [|exact Hall]. intros s Hs. apply Hs. }
    assert (Hdist : Forall (fun s => 0 < s_dist s) strides).
    { eapply Forall_impl; [|exact Hall]. intros s Hs. apply Hs. }
    assert (HL1 : lineLength d1
                  = lineLength d
                    + distance (px (cursor d)) (py (cursor d)) (px p) (py p))
      by (rewrite Ed1; reflexivity).
    assert (Hc1 : cursor d1 = p) by (rewrite Ed1; destruct p; reflexivity).
    assert (Hg1 : graphics d1 = graphics d ++ map ordinary_call strides)
      by (rewrite Ed1; cbn [advance graphics]; now rewrite ordinary_calls).
    pose proof (distance_nonneg (px (cursor d)) (py (cursor d)) (px p) (py p))
      as Hnn.
    split.
    + rewrite Hg, Hg1, <- app_assoc, map_app. f_equal. f_equal.
      * apply (measured_span_calls d p rest strides _ 0 (snd (lookup d)));
          [lra|]. now apply (open_strides_measured fuel).
      * apply map_ext_in. intros sp Hin.
        pose proof (proj1 (Forall_forall _ _) Hbeyond sp Hin) as Hsp.
        cbv beta in Hsp. rewrite Hc1, HL1.
        unfold span_call. cbn [point_at].
        destruct (Rle_dec (sp_to sp - lineLength d)
                    (distance (px (cursor d)) (py (cursor d))
                       (px p) (py p))) as [Hle|_]; [exfalso; lra|].
        replace (sp_to sp - lineLength d
                 - distance (px (cursor d)) (py (cursor d)) (px p) (py p))
          with (sp_to sp
                - (lineLength d
                   + distance (px (cursor d)) (py (cursor d))
                       (px p) (py p))) by lra.
        reflexivity.
    + apply Forall_app. split.
      * apply spans_beyond; [assumption|lra].
      * eapply Forall_impl; [|exact Hbeyond]. intros sp Hsp.
        cbv beta in Hsp. lra.
Qed.

(** X6: along any chain of open [lineTo] calls on a valid vector-mode
    tracer the dashes follow the pattern and nothing else, in exact
    arithmetic.  The chain returns and [lineLength] grows by the length
    of the polyline.  The stretches its iterations cover fill the
    polyline, and for each stretch the surface receives one call, in
    order, to the point of the polyline where the stretch ends: a
    [lineTo] when the stretch lies in an entry of even index, a [moveTo]
    when it lies in one of odd index.  The stretch that holds a travelled
    distance [t] lies in the entry in which [t + offset], taken modulo the
    scaled period, falls, wherever the corners of the polyline are. *)
Theorem open_polyline_follows_pattern (targets : list Point)
    (d : DashLine) :
  vector_ready d ->
  exists bound, forall fuel, (bound <= fuel)%nat ->
    exists sps d',
      chain fuel targets d = Some (sps, d') /\
      lineLength d' = lineLength d + path_length (cursor d) targets /\
      graphics d'
      = graphics d
        ++ map (span_call (cursor d) targets (lineLength d)) sps /\
      forall t, lineLength d <= t < lineLength d' ->
        exists (place : R) (k : Z) (i : nat),
          t + opt_offset (options d)
          = place + scaled_period (dash d) (scale d) * IZR k /\
          (i < length (dash d))%nat /\
          seg_start (dash d) (scale d) i <= place
            < seg_start (dash d) (scale d) i + nth i (dash d) 0 * scale d /\
          index_at sps t = Some i /\
          drawn_at sps t = Some (Nat.even i).
Proof.
  intros Hd. destruct (chain_returns targets d Hd) as [bound Hb].
  exists bound. intros fuel Hfuel.
  destruct (Hb fuel Hfuel) as [[sps d'] Hc].
  exists sps, d'. split; [assumption|].
  destruct (chain_index _ _ _ _ _ Hd Hc) as (Hl & Hin & _).
  split; [assumption|].
  split; [exact (proj1 (chain_calls _ _ _ _ _ Hd Hc))|].
  intros t Ht.
  destruct Hd as (Hv & [Hne Hsize] & Hpos & Hs & HL & Ho).
  destruct (locate_char (dash d) (scale d) (opt_offset (options d))
              Hne Hpos Hs Ho t ltac:(lra))
    as (p & k & j & E & Hj & Hint & Hloc).
  exists p, k, j.
  assert (Hidx : index_at sps t = Some j).
  { rewrite (Hin t Ht). unfold phase. rewrite Hsize, Hloc. reflexivity. }
  repeat split; try assumption; try lra.
  unfold drawn_at. now rewrite Hidx.
Qed.

Lemma open_polyline_follows_pattern_witness :
  exists bound, forall fuel, (bound <= fuel)%nat ->
    exists sps d',
      chain fuel (rect_corners 0 0 7 1) (sample 0) = Some (sps, d') /\
      lineLength d'
      = lineLength (sample 0)
        + path_length (cursor (sample 0)) (rect_corners 0 0 7 1) /\
      graphics d'
      = graphics (sample 0)
        ++ map (span_call (cursor (sample 0)) (rect_corners 0 0 7 1)
                  (lineLength (sample 0))) sps /\
      forall t, lineLength (sample 0) <= t < lineLength d' ->
        exists (place : R) (k : Z) (i : nat),
          t + opt_offset (options (sample 0))
          = place
            + scaled_period (dash (sample 0)) (scale (sample 0)) * IZR k /\
          (i < length (dash (sample 0)))%nat /\
          seg_start (dash (sample 0)) (scale (sample 0)) i <= place
            < seg_start (dash (sample 0)) (scale (sample 0)) i
              + nth i (dash (sample 0)) 0 * scale (sample 0) /\
          index_at sps t = Some i /\
          drawn_at sps t = Some (Nat.even i).
Proof.
  apply (open_polyline_follows_pattern (rect_corners 0 0 7 1) (sample 0)).
  apply sample_ready. lra.
Defined.

(** X22: phase continuity on a rectangle, in exact arithmetic, for the
    patterns, scales and offsets of the data model (at least one entry,
    only positive entries, a positive scale, an offset that is not
    negative).  After [moveTo(x, y)], the four sides drawn as chained
    [lineTo] calls and one straight line of the rectangle's perimeter both
    return having travelled the perimeter; each makes one call on the
    surface for each stretch its iterations cover, to the point of its
    path where the stretch ends, a [lineTo] for an entry of even index
    and a [moveTo] for one of odd index; and every travelled distance
    lies, for the sides and for the line, in a stretch of the same
    pattern entry. *)
Theorem rect_phase_continuity (d : DashLine) (x y width height : R) :
  useTexture d = false -> well_formed d -> all_positive (dash d) ->
  0 < scale d -> 0 <= opt_offset (options d) ->
  exists bound, forall fuel, (bound <= fuel)%nat ->
    exists sides d4 line d1,
      chain fuel (rect_corners x y width height) (moveTo x y d)
        = Some (sides, d4) /\
      chain fuel [mkPoint (x + 2 * (Rabs width + Rabs height)) y]
        (moveTo x y d) = Some (line, d1) /\
      lineLength d4 = 2 * (Rabs width + Rabs height) /\
      lineLength d1 = 2 * (Rabs width + Rabs height) /\
      graphics d4
      = graphics (moveTo x y d)
        ++ map (span_call (mkPoint x y) (rect_corners x y width height) 0)
             sides /\
      graphics d1
      = graphics (moveTo x y d)
        ++ map (span_call (mkPoint x y)
                  [mkPoint (x + 2 * (Rabs width + Rabs height)) y] 0)
             line /\
      forall t, 0 <= t < 2 * (Rabs width + Rabs height) ->
        index_at sides t = index_at line t /\ index_at line t <> None.
Proof.
  intros Hv Hwf Hpos Hs Ho.
  pose proof (moveTo_ready x y d Hv Hwf Hpos Hs Ho) as Hd0.
  remember (2 * (Rabs width + Rabs height)) as perimeter eqn:Eper.
  assert (Hper : 0 <= perimeter).
  { rewrite Eper. pose proof (Rabs_pos width).
    pose proof (Rabs_pos height). lra. }
  destruct (chain_returns (rect_corners x y width height) _ Hd0)
    as [b1 Hb1].
  destruct (chain_returns [mkPoint (x + perimeter) y] _ Hd0) as [b2 Hb2].
  exists (Nat.max b1 b2). intros fuel Hfuel.
  destruct (Hb1 fuel ltac:(lia)) as [[sides d4] Hsides].
  destruct (Hb2 fuel ltac:(lia)) as [[line d1] Hline].
  exists sides, d4, line, d1.
  destruct (chain_index _ _ _ _ _ Hd0 Hsides) as (Hl4 & Hin4 & _).
  destruct (chain_index _ _ _ _ _ Hd0 Hline) as (Hl1 & Hin1 & _).
  destruct (chain_calls _ _ _ _ _ Hd0 Hsides) as (Hg4 & _).
  destruct (chain_calls _ _ _ _ _ Hd0 Hline) as (Hg1 & _).
  cbn [moveTo lineLength cursor] in Hl4, Hl1, Hin4, Hin1, Hg4, Hg1.
  rewrite rect_perimeter, <- Eper in Hl4.
  rewrite line_length in Hl1 by assumption.
  split; [assumption|]. split; [assumption|].
  split; [lra|]. split; [lra|].
  split; [exact Hg4|]. split; [exact Hg1|].
  intros t Ht.
  rewrite Hin4, Hin1 by lra.
  split; [reflexivity|discriminate].
Qed.

Lemma rect_phase_continuity_witness :
  exists bound, forall fuel, (bound <= fuel)%nat ->
    exists sides d4 line d1,
      chain fuel (rect_corners 0 0 7 1) (moveTo 0 0 (sample 0))
        = Some (sides, d4) /\
      chain fuel [mkPoint (0 + 2 * (Rabs 7 + Rabs 1)) 0]
        (moveTo 0 0 (sample 0)) = Some (line, d1) /\
      lineLength d4 = 2 * (Rabs 7 + Rabs 1) /\
      lineLength d1 = 2 * (Rabs 7 + Rabs 1) /\
      graphics d4
      = graphics (moveTo 0 0 (sample 0))
        ++ map (span_call (mkPoint 0 0) (rect_corners 0 0 7 1) 0) sides /\
      graphics d1
      = graphics (moveTo 0 0 (sample 0))
        ++ map (span_call (mkPoint 0 0)
                  [mkPoint (0 + 2 * (Rabs 7 + Rabs 1)) 0] 0)
             line /\
      forall t, 0 <= t < 2 * (Rabs 7 + Rabs 1) ->
        index_at sides t = index_at line t /\ index_at line t <> None.
Proof.
  apply (rect_phase_continuity (sample 0) 0 0 7 1).
  - reflexivity.
  - apply sample_well_formed.
  - apply default_positive.
  - simpl. lra.
  - simpl. lra.
Defined.

(** ** Closing twice *)

(** X7: in vector mode [closePath()] leaves the cursor on [start], and a
    second [closePath()] right after it changes nothing at all, neither
    the tracer nor the surface. *)
Theorem closePath_twice (fuel : nat) (d d1 : DashLine) :
  useTexture d = false ->
  closePath fuel d = Some d1 ->
  cursor d1 = start d1 /\ forall fuel', closePath fuel' d1 = Some d1.
Proof.
  intros Hv H. unfold closePath in H.
  apply lineTo_advances in H. destruct H as [calls ->].
  assert (Ec : cursor (advance calls (px (start d)) (py (start d)) d)
               = start (advance calls (px (start d)) (py (start d)) d)).
  { simpl. now destruct (start d). }
  split; [exact Ec|]. intros fuel'. unfold closePath.
  rewrite <- Ec. now apply lineTo_cursor_vector.
Qed.

Lemma closePath_twice_witness :
  cursor (advance
            (flat_map stride_calls
               [mkStride 0 8 (mkPoint 24 0) Advance;
                mkStride 1 5 (mkPoint 19 0) Advance;
                mkStride 0 10 (mkPoint 9 0) (SeamDraw (mkPoint 5 0))])
            0 0 (sample 32))
  = start (advance
             (flat_map stride_calls
                [mkStride 0 8 (mkPoint 24 0) Advance;
                 mkStride 1 5 (mkPoint 19 0) Advance;
                 mkStride 0 10 (mkPoint 9 0) (SeamDraw (mkPoint 5 0))])
             0 0 (sample 32)) /\
  forall fuel',
    closePath fuel'
      (advance
         (flat_map stride_calls
            [mkStride 0 8 (mkPoint 24 0) Advance;
             mkStride 1 5 (mkPoint 19 0) Advance;
             mkStride 0 10 (mkPoint 9 0) (SeamDraw (mkPoint 5 0))])
         0 0 (sample 32))
    = Some (advance
              (flat_map stride_calls
                 [mkStride 0 8 (mkPoint 24 0) Advance;
                  mkStride 1 5 (mkPoint 19 0) Advance;
                  mkStride 0 10 (mkPoint 9 0) (SeamDraw (mkPoint 5 0))])
              0 0 (sample 32)).
Proof.
  apply (closePath_twice 3 (sample 32)).
  - reflexivity.
  - unfold closePath. rewrite lineTo_vector by reflexivity.
    now rewrite (proj1 closing_from_32
                   : lineTo_strides 3 (px (start (sample 32)))
                       (py (start (sample 32))) true (sample 32) = _).
Defined.

(** ** Texture mode *)

Lemma atan2_scale (k dy dx : R) :
  0 < k -> JS.atan2 (k * dy) (k * dx) = JS.atan2 dy dx.
Proof.
  intros Hk. unfold JS.atan2.
  assert (Hq : dx <> 0 -> k * dy / (k * dx) = dy / dx)
    by (intros; field; lra).
  repeat match goal with
  | |- context [Rlt_dec ?u ?v] => destruct (Rlt_dec u v)
  | |- context [Rle_dec ?u ?v] => destruct (Rle_dec u v)
  end;
  try reflexivity; try (rewrite Hq by lra; reflexivity); exfalso; nra.
Qed.

Lemma texture_closing_calls (x y : R) (d : DashLine) :
  is_closed true x y d = true ->
  Nat.even (length (dash d)) = true ->
  0 <= last (dash d) 0 ->
  exists t,
    0 <= t <= distance (px (cursor d)) (py (cursor d)) x y /\
    texture_calls x y true d
    = [GMoveTo (px (cursor d)) (py (cursor d));
       adjustStrokeStyle
         (JS.atan2 (y - py (cursor d)) (x - px (cursor d))) d;
       GLineTo
         (px (cursor d)
          + cos (JS.atan2 (y - py (cursor d)) (x - px (cursor d))) * t)
         (py (cursor d)
          + sin (JS.atan2 (y - py (cursor d)) (x - px (cursor d))) * t);
       GClosePath].
Proof.
  intros Hc He Hlast.
  set (len := distance (px (cursor d)) (py (cursor d)) x y).
  pose proof (distance_nonneg (px (cursor d)) (py (cursor d)) x y) as Hlen.
  fold len in Hlen.
  exists (len - Rmin (last (dash d) 0) len). split.
  - unfold Rmin. destruct (Rle_dec (last (dash d) 0) len); lra.
  - unfold texture_calls. rewrite Hc, He. simpl andb. cbv iota.
    fold len. cbn [app].
    pose proof (target_along d x y) as Ht. fold len in Ht.
    injection Ht as Hx Hy.
    do 2 f_equal. apply (f_equal2 (fun a b => [GLineTo a b; GClosePath])).
    + rewrite <- Hx at 1. ring.
    + rewrite <- Hy at 1. ring.
Qed.

(** X8: in texture mode a closing [lineTo] on a pattern with an even
    number of entries, the last one not negative, never strokes
    backwards: the point it strokes to, pulled back from [start] by
    [min(last entry, length)], lies on the segment, between the cursor
    and the target, and the only other calls are the [moveTo] to the
    cursor, the stroke-style update and [closePath]. *)
Theorem texture_closing_stays_on_segment (x y : R) (d : DashLine) :
  is_closed true x y d = true ->
  Nat.even (length (dash d)) = true ->
  0 <= last (dash d) 0 ->
  exists t,
    0 <= t <= distance (px (cursor d)) (py (cursor d)) x y /\
    texture_calls x y true d
    = [GMoveTo (px (cursor d)) (py (cursor d));
       adjustStrokeStyle
         (JS.atan2 (y - py (cursor d)) (x - px (cursor d))) d;
       GLineTo
         (px (cursor d)
          + cos (JS.atan2 (y - py (cursor d)) (x - px (cursor d))) * t)
         (py (cursor d)
          + sin (JS.atan2 (y - py (cursor d)) (x - px (cursor d))) * t);
       GClosePath].
Proof. apply texture_closing_calls. Qed.

(** The texture tracer after [moveTo(0, 0)] and [lineTo(32, 0)]. *)
Lemma texture_closing_stays_on_segment_witness :
  exists t,
    0 <= t
      <= distance
           (px (cursor (advance [] 32 0 (moveTo 0 0 sample_texture))))
           (py (cursor (advance [] 32 0 (moveTo 0 0 sample_texture)))) 0 0 /\
    texture_calls 0 0 true (advance [] 32 0 (moveTo 0 0 sample_texture))
    = [GMoveTo (px (cursor (advance [] 32 0 (moveTo 0 0 sample_texture))))
         (py (cursor (advance [] 32 0 (moveTo 0 0 sample_texture))));
       adjustStrokeStyle
         (JS.atan2
            (0 - py (cursor (advance [] 32 0 (moveTo 0 0 sample_texture))))
            (0 - px (cursor (advance [] 32 0 (moveTo 0 0 sample_texture)))))
         (advance [] 32 0 (moveTo 0 0 sample_texture));
       GLineTo
         (px (cursor (advance [] 32 0 (moveTo 0 0 sample_texture)))
          + cos (JS.atan2
                   (0 - py (cursor
                              (advance [] 32 0 (moveTo 0 0 sample_texture))))
                   (0 - px (cursor
                              (advance [] 32 0 (moveTo 0 0 sample_texture)))))
            * t)
         (py (cursor (advance [] 32 0 (moveTo 0 0 sample_texture)))
          + sin (JS.atan2
                   (0 - py (cursor
                              (advance [] 32 0 (moveTo 0 0 sample_texture))))
                   (0 - px (cursor
                              (advance [] 32 0 (moveTo 0 0 sample_texture)))))
            * t);
       GClosePath].
Proof.
  apply (texture_closing_stays_on_segment 0 0
           (advance [] 32 0 (moveTo 0 0 sample_texture))).
  - unfold is_closed. simpl. now rewrite !eqb_refl.
  - reflexivity.
  - simpl. lra.
Defined.

(** X9: the texture does not slip along a straight line drawn in two
    pieces: when a texture-mode [lineTo] goes part of the way along a
    direction and the next one goes further along it, the stroke-style
    update of the second call is the very update of the first, with the
    same rotation, scale and anchor. *)
Theorem texture_anchor_fixed (fuel : nat) (d : DashLine)
    (dx dy a b : R) (cp1 cp2 : bool) :
  useTexture d = true -> 0 < a -> a < b ->
  exists d1,
    lineTo fuel (px (cursor d) + a * dx) (py (cursor d) + a * dy) cp1 d
      = Some d1 /\
    nth 1 (texture_calls (px (cursor d) + b * dx) (py (cursor d) + b * dy)
             cp2 d1) GClosePath
    = nth 1 (texture_calls (px (cursor d) + a * dx) (py (cursor d) + a * dy)
               cp1 d) GClosePath.
Proof.
  intros Ht Ha Hab. unfold lineTo. rewrite Ht.
  eexists. split; [reflexivity|].
  unfold texture_calls. cbn [app nth advance cursor px py].
  set (cx := px (cursor d)). set (cy := py (cursor d)).
  replace (cy + a * dy - cy) with (a * dy) by ring.
  replace (cx + a * dx - cx) with (a * dx) by ring.
  replace (cy + b * dy - (cy + a * dy)) with ((b - a) * dy) by ring.
  replace (cx + b * dx - (cx + a * dx)) with ((b - a) * dx) by ring.
  rewrite !atan2_scale by lra.
  unfold adjustStrokeStyle.
  cbn [advance lineLength scale cursor options px py].
  fold cx cy.
  destruct (direction (a * dx) (a * dy)) as [Hc Hs].
  rewrite atan2_scale in Hc, Hs by lra.
  assert (El : distance cx cy (cx + a * dx) (cy + a * dy)
               = sqrt ((a * dx) ^ 2 + (a * dy) ^ 2)).
  { unfold distance. f_equal. ring. }
  rewrite El.
  set (len := sqrt ((a * dx) ^ 2 + (a * dy) ^ 2)) in *.
  match goal with
  | |- GStrokeMatrix (_ ++ _ ++ [Translate ?u ?v])
       = GStrokeMatrix (_ ++ _ ++ [Translate ?u' ?v']) =>
      assert (Eu : u = u'); [|assert (Ev : v = v');
                               [|rewrite Eu, Ev; reflexivity]]
  end.
  - replace (cx + a * dx) with (cx + cos (JS.atan2 dy dx) * len) by lra.
    ring.
  - replace (cy + a * dy) with (cy + sin (JS.atan2 dy dx) * len) by lra.
    ring.
Qed.

Lemma texture_anchor_fixed_witness :
  exists d1,
    lineTo 0 (px (cursor sample_texture) + 1 * 3)
      (py (cursor sample_texture) + 1 * 4) false sample_texture = Some d1 /\
    nth 1 (texture_calls (px (cursor sample_texture) + 2 * 3)
             (py (cursor sample_texture) + 2 * 4) false d1) GClosePath
    = nth 1 (texture_calls (px (cursor sample_texture) + 1 * 3)
               (py (cursor sample_texture) + 1 * 4) false sample_texture)
        GClosePath.
Proof.
  apply (texture_anchor_fixed 0 sample_texture 3 4 1 2 false false).
  - reflexivity.
  - lra.
  - lra.
Defined.

(** ** Closed outlines *)

Lemma run_calls_returns (cs : list TracerCall) (d : DashLine) :
  useTexture d = true \/ vector_ready d ->
  exists bound, forall fuel, (bound <= fuel)%nat ->
    exists d', run_calls fuel cs d = Some d'.
Proof.
  intros [Ht|Hv].
  - exists 0%nat. intros fuel _. now apply run_calls_texture_returns.
  - destruct (run_calls_vector_returns cs d Hv) as [b Hb].
    exists b. intros fuel Hfuel.
    destruct (Hb fuel Hfuel) as (d' & H & _). now exists d'.
Qed.

(** A subpath whose last target is its first point. *)
Lemma closed_outline (p0 : Point) (targets : list (Point * bool))
    (d : DashLine) :
  useTexture d = true \/ vector_ready d ->
  last (map fst targets) p0 = p0 ->
  exists bound, forall fuel, (bound <= fuel)%nat ->
    exists d',
      run_calls fuel (CMoveTo (px p0) (py p0) :: lineTo_calls targets) d
        = Some d' /\
      start d' = p0 /\ cursor d' = start d' /\
      lineLength d' = path_length p0 (map fst targets).
Proof.
  intros Hd Hlast.
  destruct (run_calls_returns
              (CMoveTo (px p0) (py p0) :: lineTo_calls targets) d Hd)
    as [bound Hb].
  exists bound. intros fuel Hfuel. destruct (Hb fuel Hfuel) as [d' H].
  exists d'. split; [assumption|]. simpl in H.
  destruct (lineTo_calls_account fuel targets _ _ H) as (Hs & Hl & Hc).
  simpl in Hs, Hl, Hc.
  assert (E : mkPoint (px p0) (py p0) = p0) by now destruct p0.
  rewrite E in *. rewrite Hlast in Hc.
  repeat split; try congruence. rewrite Hl. lra.
Qed.

(** X10: [rect] passes each of the four corners through the matrix when
    there is one, and its outline is closed: on a texture tracer or a
    valid vector tracer the call returns with the cursor back on [start],
    the image of [(x, y)], having travelled the perimeter of the
    transformed rectangle; only its last [lineTo] carries the closing
    flag, and that call targets [start] itself. *)
Theorem rect_closes (x y width height : R) (matrix : option Matrix)
    (d : DashLine) :
  useTexture d = true \/ vector_ready d ->
  lineTo_targets (rect_calls x y width height matrix)
    = map (transformPoint matrix) (rect_corners x y width height) /\
  map is_open_call (rect_calls x y width height matrix)
    = [true; true; true; true; false] /\
  exists bound, forall fuel, (bound <= fuel)%nat ->
    exists d',
      rect fuel x y width height matrix d = Some d' /\
      start d' = transformPoint matrix (mkPoint x y) /\
      cursor d' = start d' /\
      lineLength d'
      = path_length (transformPoint matrix (mkPoint x y))
          (map (transformPoint matrix) (rect_corners x y width height)).
Proof.
  intros Hd. split; [now destruct matrix|]. split; [reflexivity|].
  set (T := transformPoint matrix).
  destruct (closed_outline (T (mkPoint x y))
              [(T (mkPoint (x + width) y), false);
               (T (mkPoint (x + width) (y + height)), false);
               (T (mkPoint x (y + height)), false);
               (T (mkPoint x y), true)] d Hd eq_refl) as [bound Hb].
  exists bound. intros fuel Hfuel.
  destruct (Hb fuel Hfuel) as (d' & H & Hs & Hc & Hl).
  exists d'. repeat split; assumption.
Qed.

Lemma rect_closes_witness :
  lineTo_targets (rect_calls 0 0 7 1 None)
    = map (transformPoint None) (rect_corners 0 0 7 1) /\
  map is_open_call (rect_calls 0 0 7 1 None)
    = [true; true; true; true; false] /\
  exists bound, forall fuel, (bound <= fuel)%nat ->
    exists d',
      rect fuel 0 0 7 1 None (sample 0) = Some d' /\
      start d' = transformPoint None (mkPoint 0 0) /\
      cursor d' = start d' /\
      lineLength d'
      = path_length (transformPoint None (mkPoint 0 0))
          (map (transformPoint None) (rect_corners 0 0 7 1)).
Proof.
  apply (rect_closes 0 0 7 1 None (sample 0)).
  right. apply sample_ready. lra.
Defined.

(** ** [circle] and the closing flag *)

Lemma circle_loop_open x y radius interval points first todo i angle :
  forallb is_open_call
    (circle_loop x y radius interval points first todo i angle) = true.
Proof.
  revert i angle. induction todo as [|todo IH]; intros i angle;
    [reflexivity|]. simpl. apply IH.
Qed.

(** X11: [circle] never asks for the closing seam: it makes one [moveTo]
    and then [points] calls of [lineTo], none of them with the closing
    flag, although the last one, when there is one, targets the first
    point itself. *)
Theorem circle_never_closes (x y radius : R) (points : nat)
    (matrix : option Matrix) :
  forallb is_open_call (circle_calls x y radius points matrix) = true /\
  length (circle_calls x y radius points matrix) = S points /\
  (points = 0%nat \/
   last (circle_calls x y radius points matrix) (CMoveTo 0 0)
   = CLineTo (px (circle_first x y radius matrix))
             (py (circle_first x y radius matrix)) false).
Proof.
  split; [|split].
  - unfold circle_calls. simpl. apply circle_loop_open.
  - apply circle_calls_length.
  - destruct points as [|n]; [now left|right].
    apply circle_closes_on_first. lia.
Qed.

(** ** [poly] *)

Lemma poly_numbers_points (matrix : option Matrix) (l : list Point) :
  poly_numbers_loop matrix (coordinates_of l)
  = Some (poly_points_loop matrix l).
Proof.
  induction l as [|q l IH]; [reflexivity|].
  change (coordinates_of (q :: l)) with (px q :: py q :: coordinates_of l).
  cbn [poly_numbers_loop poly_points_loop]. rewrite IH. cbn [option_map].
  assert (E : mkPoint (px q) (py q) = q) by now destruct q.
  rewrite E. destruct l; reflexivity.
Qed.

Lemma poly_numbers_odd (matrix : option Matrix) (l : list Point) (x : R) :
  poly_numbers_loop matrix (coordinates_of l ++ [x]) = None.
Proof.
  induction l as [|q l IH]; [reflexivity|].
  change (coordinates_of (q :: l) ++ [x])
    with (px q :: py q :: (coordinates_of l ++ [x])).
  cbn [poly_numbers_loop]. now rewrite IH.
Qed.

(** X12: [poly] throws a [TypeError] on an empty array, before any call
    on the tracer, and on nothing else; the two forms of its argument
    agree: coordinates in a row give the calls that the points they spell
    give, and one coordinate too many is a read past the array. *)
Theorem poly_forms_agree (matrix : option Matrix) (l : list Point) (x : R) :
  poly_calls (Numbers (coordinates_of l)) matrix
    = poly_calls (Points l) matrix /\
  (poly_calls (Points l) matrix = PolyThrows TypeError <-> l = []) /\
  (l = [] \/
   poly_calls (Numbers (coordinates_of l ++ [x])) matrix
   = PolyMissingCoordinate).
Proof.
  split; [|split].
  - destruct l as [|q l]; [reflexivity|].
    change (coordinates_of (q :: l)) with (px q :: py q :: coordinates_of l).
    cbn [poly_calls]. rewrite poly_numbers_points.
    assert (E : mkPoint (px q) (py q) = q) by now destruct q.
    now rewrite E.
  - destruct l; simpl; split; congruence.
  - destruct l as [|q l]; [now left|right].
    change (coordinates_of (q :: l) ++ [x])
      with (px q :: py q :: (coordinates_of l ++ [x])).
    cbn [poly_calls]. now rewrite poly_numbers_odd.
Qed.

Lemma poly_points_matrix (m : Matrix) (l : list Point) :
  poly_points_loop (Some m) l
  = poly_points_loop None (map (Matrix_apply m) l).
Proof.
  induction l as [|q l IH]; [reflexivity|].
  cbn [poly_points_loop map transformPoint]. rewrite IH.
  destruct l; reflexivity.
Qed.

Lemma poly_points_flags (matrix : option Matrix) (l : list Point) :
  lineTo_targets (poly_points_loop matrix l)
    = map (transformPoint matrix) l /\
  map is_open_call (poly_points_loop matrix l)
    = match l with
      | [] => []
      | _ :: rest => repeat true (length rest) ++ [false]
      end.
Proof.
  induction l as [|q l [IH1 IH2]]; [now split|].
  cbn [poly_points_loop lineTo_targets flat_map map app].
  fold (lineTo_targets (poly_points_loop matrix l)). rewrite IH1.
  split; [now destruct (transformPoint matrix q)|].
  rewrite IH2. destruct l; reflexivity.
Qed.

(** X13: [poly] applies the matrix point by point: with a matrix it makes
    the calls it makes without one on the transformed points.  It moves
    to the first point and lines to each of the others in order, and the
    closing flag is on the last of them and on no other. *)
Theorem poly_matrix_pointwise (m : Matrix) (q : Point) (l : list Point) :
  poly_calls (Points (q :: l)) (Some m)
    = poly_calls (Points (map (Matrix_apply m) (q :: l))) None /\
  exists calls,
    poly_calls (Points (q :: l)) (Some m)
      = PolyCalls (CMoveTo (px (Matrix_apply m q)) (py (Matrix_apply m q))
                   :: calls) /\
    lineTo_targets calls = map (Matrix_apply m) l /\
    map is_open_call calls
    = match l with
      | [] => []
      | _ :: rest => repeat true (length rest) ++ [false]
      end.
Proof.
  split.
  - cbn [poly_calls map transformPoint]. now rewrite poly_points_matrix.
  - eexists. split; [reflexivity|].
    apply (poly_points_flags (Some m) l).
Qed.

(** ** [ellipse] *)

Lemma ellipse_loop_mono x y rx ry interval matrix (fuel : nat) :
  forall i calls,
    ellipse_loop fuel x y rx ry interval matrix i = Some calls ->
    ellipse_loop (S fuel) x y rx ry interval matrix i = Some calls.
Proof.
  induction fuel as [|fuel IH]; intros i calls H.
  - simpl in *. destruct (Rlt_dec i (PI * 2)); [discriminate|assumption].
  - remember (S fuel) as n eqn:En. simpl. rewrite En in H. simpl in H.
    destruct (Rlt_dec i (PI * 2)); [|assumption].
    destruct (ellipse_loop fuel x y rx ry interval matrix (i + interval))
      as [rest|] eqn:E; [|discriminate].
    subst n. now rewrite (IH _ _ E).
Qed.

Lemma ellipse_loop_fuel x y rx ry interval matrix (fuel fuel' : nat) i
    calls :
  (fuel <= fuel')%nat ->
  ellipse_loop fuel x y rx ry interval matrix i = Some calls ->
  ellipse_loop fuel' x y rx ry interval matrix i = Some calls.
Proof.
  induction 1 as [|fuel' _ IH]; intros H; [assumption|].
  apply ellipse_loop_mono. now apply IH.
Qed.

Lemma ellipse_loop_returns x y rx ry interval matrix (n : nat) :
  0 < interval ->
  forall i, PI * 2 - i <= INR n * interval ->
    exists calls, ellipse_loop n x y rx ry interval matrix i = Some calls.
Proof.
  intros Hiv. induction n as [|n IH]; intros i Hi.
  - simpl in *. destruct (Rlt_dec i (PI * 2)); [lra|]. now exists [].
  - simpl. destruct (Rlt_dec i (PI * 2)); [|now exists []].
    destruct (IH (i + interval)) as [rest Hrest].
    + rewrite S_INR in Hi. lra.
    + rewrite Hrest. eexists. reflexivity.
Qed.

(** After the first iteration every sample is a [lineTo] without the
    flag, at a parameter inside the turn. *)
Lemma ellipse_loop_shape x y rx ry interval matrix (fuel : nat) :
  0 < interval ->
  forall i calls, 0 < i ->
    ellipse_loop fuel x y rx ry interval matrix i = Some calls ->
    exists samples,
      calls = lineTo_calls
                (map (fun t => (ellipse_point x y rx ry matrix t, false))
                   samples) /\
      Forall (fun t => 0 < t < PI * 2) samples.
Proof.
  intros Hiv. induction fuel as [|fuel IH]; intros i calls Hi H.
  - simpl in H. destruct (Rlt_dec i (PI * 2)); [discriminate|].
    injection H as <-. exists []. now split.
  - simpl in H. destruct (Rlt_dec i (PI * 2)) as [Hlt|Hge].
    + destruct (ellipse_loop fuel x y rx ry interval matrix (i + interval))
        as [rest|] eqn:E; [|discriminate].
      injection H as <-.
      assert (Hi' : 0 < i + interval) by lra.
      destruct (IH _ _ Hi' E) as (samples & -> & Hall).
      exists (i :: samples). split.
      * destruct (Req_dec_T i 0); [lra|]. reflexivity.
      * constructor; [lra|assumption].
    + injection H as <-. exists []. now split.
Qed.

Lemma ellipse_interval_positive (n : nat) : 0 < PI * 2 / INR (S n).
Proof.
  apply Rdiv_lt_0_compat.
  - pose proof PI_RGT_0. lra.
  - apply lt_0_INR. lia.
Qed.

Lemma ellipse_calls_shape (x y rx ry : R) (n : nat) (matrix : option Matrix) :
  exists bound samples,
    Forall (fun t => 0 < t < PI * 2) samples /\
    forall fuel, (bound <= fuel)%nat ->
      ellipse_calls fuel x y rx ry (S n) matrix
      = Some (CMoveTo (px (ellipse_point x y rx ry matrix 0))
                (py (ellipse_point x y rx ry matrix 0))
              :: lineTo_calls
                   (map (fun t => (ellipse_point x y rx ry matrix t, false))
                      samples ++
                    [(ellipse_point x y rx ry matrix 0, true)])).
Proof.
  pose proof (ellipse_interval_positive n) as Hiv.
  set (iv := PI * 2 / INR (S n)) in *.
  destruct (INR_unbounded (PI * 2 / iv)) as [k Hk].
  assert (Hkn : PI * 2 - (0 + iv) <= INR k * iv).
  { apply Rmult_lt_compat_r with (r := iv) in Hk; [|assumption].
    replace (PI * 2 / iv * iv) with (PI * 2) in Hk by (field; lra). lra. }
  destruct (ellipse_loop_returns x y rx ry iv matrix k Hiv (0 + iv) Hkn)
    as [rest Hrest].
  assert (Hiv0 : 0 < 0 + iv) by lra.
  destruct (ellipse_loop_shape x y rx ry iv matrix k Hiv (0 + iv) rest
              Hiv0 Hrest) as (samples & -> & Hall).
  exists (S k), samples. split; [assumption|]. intros fuel Hfuel.
  unfold ellipse_calls. fold iv.
  destruct fuel as [|fuel]; [lia|].
  simpl ellipse_loop.
  destruct (Rlt_dec 0 (PI * 2)) as [_|N];
    [|pose proof PI_RGT_0; lra].
  rewrite (ellipse_loop_fuel x y rx ry iv matrix k fuel _ _
             ltac:(lia) Hrest).
  destruct (Req_dec_T 0 0) as [_|N]; [|lra].
  cbn [option_map]. unfold lineTo_calls.
  rewrite map_app. reflexivity.
Qed.

Lemma ellipse_first_point (x y rx ry : R) (matrix : option Matrix) :
  ellipse_point x y rx ry matrix 0
  = transformPoint matrix (mkPoint x (y - ry)).
Proof.
  unfold ellipse_point. rewrite sin_0, cos_0. do 2 f_equal; ring.
Qed.

(** X14: for a whole number [points >= 1] the sampling loop of [ellipse]
    ends; [ellipse] moves to the image of [(x, y - radiusY)], lines to
    samples at parameters strictly inside the turn, each passed through
    the matrix, none with the closing flag, and ends with a closing
    [lineTo] to the first point itself.  Without a matrix every sample
    lies on the ellipse. *)
Theorem ellipse_shape (x y rx ry : R) (n : nat) (matrix : option Matrix) :
  (exists bound samples,
     Forall (fun t => 0 < t < PI * 2) samples /\
     forall fuel, (bound <= fuel)%nat ->
       ellipse_calls fuel x y rx ry (S n) matrix
       = Some (CMoveTo (px (ellipse_point x y rx ry matrix 0))
                 (py (ellipse_point x y rx ry matrix 0))
               :: lineTo_calls
                    (map (fun t => (ellipse_point x y rx ry matrix t, false))
                       samples ++
                     [(ellipse_point x y rx ry matrix 0, true)]))) /\
  ellipse_point x y rx ry matrix 0
    = transformPoint matrix (mkPoint x (y - ry)) /\
  forall t,
    ry ^ 2 * (px (ellipse_point x y rx ry None t) - x) ^ 2
    + rx ^ 2 * (py (ellipse_point x y rx ry None t) - y) ^ 2
    = rx ^ 2 * ry ^ 2.
Proof.
  split; [apply ellipse_calls_shape|]. split; [apply ellipse_first_point|].
  intros t. unfold ellipse_point, transformPoint. cbn [px py].
  assert (H : sin t * sin t + cos t * cos t = 1).
  { pose proof (sin2_cos2 t) as H0. unfold Rsqr in H0. exact H0. }
  transitivity (rx ^ 2 * ry ^ 2 * (sin t * sin t + cos t * cos t));
    [ring|rewrite H; ring].
Qed.

(** X15: the outline of [ellipse] is closed: on a texture tracer or a
    valid vector tracer, for [points >= 1], the call returns with the
    cursor back on [start], the image of [(x, y - radiusY)]. *)
Theorem ellipse_closes (x y rx ry : R) (n : nat) (matrix : option Matrix)
    (d : DashLine) :
  useTexture d = true \/ vector_ready d ->
  exists bound, forall fuel, (bound <= fuel)%nat ->
    exists d',
      ellipse fuel x y rx ry (S n) matrix d = Some d' /\
      start d' = transformPoint matrix (mkPoint x (y - ry)) /\
      cursor d' = start d'.
Proof.
  intros Hd.
  destruct (ellipse_calls_shape x y rx ry n matrix)
    as (b1 & samples & _ & Hcalls).
  set (p0 := ellipse_point x y rx ry matrix 0) in *.
  set (targets := map (fun t => (ellipse_point x y rx ry matrix t, false))
                    samples ++ [(p0, true)]) in *.
  assert (Hlast : last (map fst targets) p0 = p0).
  { unfold targets. rewrite map_app. simpl. apply last_last. }
  destruct (closed_outline p0 targets d Hd Hlast) as [b2 Hb2].
  exists (Nat.max b1 b2). intros fuel Hfuel.
  destruct (Hb2 fuel ltac:(lia)) as (d' & H & Hs & Hc & _).
  exists d'. unfold ellipse. rewrite (Hcalls fuel ltac:(lia)).
  split; [assumption|]. split; [|assumption].
  rewrite Hs. apply ellipse_first_point.
Qed.

Lemma ellipse_closes_witness :
  exists bound, forall fuel, (bound <= fuel)%nat ->
    exists d',
      ellipse fuel 0 0 3 2 (S 7) None (sample 0) = Some d' /\
      start d' = transformPoint None (mkPoint 0 (0 - 2)) /\
      cursor d' = start d'.
Proof.
  apply (ellipse_closes 0 0 3 2 7 None (sample 0)).
  right. apply sample_ready. lra.
Defined.

(** ** Arcs and rounded rectangles *)

Lemma arc_loop_length cx cy r a step matrix todo i :
  length (arc_loop cx cy r a step matrix todo i) = todo.
Proof.
  revert i. induction todo as [|todo IH]; intros i; [reflexivity|].
  simpl. now rewrite IH.
Qed.

Lemma arc_loop_open cx cy r a step matrix todo i :
  forallb is_open_call (arc_loop cx cy r a step matrix todo i) = true.
Proof.
  revert i. induction todo as [|todo IH]; intros i; [reflexivity|].
  simpl. apply IH.
Qed.

Lemma arc_loop_on_circle cx cy r a step todo i :
  Forall (fun p => distance cx cy (px p) (py p) = Rabs r)
    (lineTo_targets (arc_loop cx cy r a step None todo i)).
Proof.
  revert i. induction todo as [|todo IH]; intros i; [constructor|].
  cbn [arc_loop lineTo_targets flat_map app].
  constructor; [|apply IH].
  unfold getPointOnArc, distance. cbn [px py].
  set (t := (a + INR i * step) * PI / 180).
  replace ((cx + cos t * r - cx) ^ 2 + (cy + sin t * r - cy) ^ 2)
    with (Rsqr r * (Rsqr (sin t) + Rsqr (cos t))) by (unfold Rsqr; ring).
  rewrite sin2_cos2, Rmult_1_r. apply sqrt_Rsqr_abs.
Qed.

Lemma arc_last cx cy r startAngle endAngle matrix dflt :
  last (drawDashedArc_calls cx cy r startAngle endAngle matrix) dflt
  = CLineTo (px (getPointOnArc cx cy r endAngle matrix))
            (py (getPointOnArc cx cy r endAngle matrix)) false.
Proof.
  unfold drawDashedArc_calls. cbn [arc_loop last].
  replace (startAngle + INR 10 * ((endAngle - startAngle) / INR 10))
    with endAngle by (simpl; field).
  reflexivity.
Qed.

(** X16: [drawDashedArc] makes ten [lineTo] calls, none with the closing
    flag; the last one targets the point of the arc at [endAngle], and
    without a matrix every target lies on the circle of the given centre
    and radius. *)
Theorem arc_samples (cx cy r startAngle endAngle : R)
    (matrix : option Matrix) :
  length (drawDashedArc_calls cx cy r startAngle endAngle matrix) = 10%nat /\
  forallb is_open_call
    (drawDashedArc_calls cx cy r startAngle endAngle matrix) = true /\
  last (drawDashedArc_calls cx cy r startAngle endAngle matrix) (CMoveTo 0 0)
  = CLineTo (px (getPointOnArc cx cy r endAngle matrix))
            (py (getPointOnArc cx cy r endAngle matrix)) false /\
  Forall (fun p => distance cx cy (px p) (py p) = Rabs r)
    (lineTo_targets (drawDashedArc_calls cx cy r startAngle endAngle None)).
Proof.
  split; [apply arc_loop_length|]. split; [apply arc_loop_open|].
  split; [apply arc_last|apply arc_loop_on_circle].
Qed.

Lemma clampRadius_bounds (width height : R) (cornerRadius : option R) :
  clampRadius width height cornerRadius <= or_default cornerRadius 10 /\
  clampRadius width height cornerRadius <= width / 2 /\
  clampRadius width height cornerRadius <= height / 2.
Proof.
  unfold clampRadius, Rmin.
  destruct (Rle_dec width height);
    destruct (Rle_dec (or_default cornerRadius 10) _); lra.
Qed.

(** The point an arc ends on, for the four quarter turns [roundRect]
    draws. *)
Lemma arc_end_0 cx cy r matrix :
  getPointOnArc cx cy r 0 matrix
  = transformPoint matrix (mkPoint (cx + r) cy).
Proof.
  unfold getPointOnArc, transformPoint.
  replace (0 * PI / 180) with 0 by field. rewrite cos_0, sin_0.
  replace (cx + 1 * r) with (cx + r) by ring.
  replace (cy + 0 * r) with cy by ring. reflexivity.
Qed.

Lemma arc_end_90 cx cy r matrix :
  getPointOnArc cx cy r 90 matrix
  = transformPoint matrix (mkPoint cx (cy + r)).
Proof.
  unfold getPointOnArc, transformPoint.
  replace (90 * PI / 180) with (PI / 2) by field. rewrite cos_PI2, sin_PI2.
  replace (cx + 0 * r) with cx by ring.
  replace (cy + 1 * r) with (cy + r) by ring. reflexivity.
Qed.

Lemma arc_end_180 cx cy r matrix :
  getPointOnArc cx cy r 180 matrix
  = transformPoint matrix (mkPoint (cx - r) cy).
Proof.
  unfold getPointOnArc, transformPoint.
  replace (180 * PI / 180) with PI by field. rewrite cos_PI, sin_PI.
  replace (cx + -1 * r) with (cx - r) by ring.
  replace (cy + 0 * r) with cy by ring. reflexivity.
Qed.

Lemma arc_end_270 cx cy r matrix :
  getPointOnArc cx cy r 270 matrix
  = transformPoint matrix (mkPoint cx (cy - r)).
Proof.
  unfold getPointOnArc, transformPoint.
  replace (270 * PI / 180) with (3 * (PI / 2)) by field.
  rewrite cos_3PI2, sin_3PI2.
  replace (cx + 0 * r) with cx by ring.
  replace (cy + -1 * r) with (cy - r) by ring. reflexivity.
Qed.

(** X17: [roundRect] makes 46 calls on the tracer, one [moveTo], four
    edges, four arcs of ten segments and a closing [lineTo], the only one
    with the closing flag; the radius it uses never exceeds the requested
    one nor half the width nor half the height; and each arc ends exactly
    where the next edge starts: on the images of [(x + width, y + r)],
    [(x + width - r, y + height)], [(x, y + height - r)] and, for the
    fourth, of [(x + r, y)], the point the outline started from. *)
Theorem roundRect_shape (x y width height : R) (cornerRadius : option R)
    (matrix : option Matrix) :
  let r := clampRadius width height cornerRadius in
  let calls := roundRect_calls x y width height cornerRadius matrix in
  let target := fun p => CLineTo (px (transformPoint matrix p))
                           (py (transformPoint matrix p)) false in
  length calls = 46%nat /\
  map is_open_call calls = repeat true 45 ++ [false] /\
  (r <= or_default cornerRadius 10 /\ r <= width / 2 /\ r <= height / 2) /\
  nth 0 calls (CMoveTo 0 0)
    = CMoveTo (px (transformPoint matrix (mkPoint (x + r) y)))
              (py (transformPoint matrix (mkPoint (x + r) y))) /\
  nth 11 calls (CMoveTo 0 0) = target (mkPoint (x + width) (y + r)) /\
  nth 22 calls (CMoveTo 0 0) = target (mkPoint (x + width - r) (y + height)) /\
  nth 33 calls (CMoveTo 0 0) = target (mkPoint x (y + height - r)) /\
  nth 44 calls (CMoveTo 0 0) = target (mkPoint (x + r) y) /\
  nth 45 calls (CMoveTo 0 0)
    = CLineTo (px (transformPoint matrix (mkPoint (x + r) y)))
              (py (transformPoint matrix (mkPoint (x + r) y))) true.
Proof.
  intros r calls target.
  split; [reflexivity|]. split; [reflexivity|].
  split; [apply clampRadius_bounds|]. split; [reflexivity|].
  assert (E : forall cx cy a b dflt,
            nth 9 (drawDashedArc_calls cx cy r a b matrix) dflt
            = CLineTo (px (getPointOnArc cx cy r b matrix))
                      (py (getPointOnArc cx cy r b matrix)) false).
  { intros cx cy a b dflt.
    rewrite <- (arc_last cx cy r a b matrix dflt). reflexivity. }
  unfold calls, roundRect_calls. fold r.
  repeat split.
  - change (nth 11 _ _)
      with (nth 9 (drawDashedArc_calls (x + width - r) (y + r) r (-90) 0
                     matrix) (CMoveTo 0 0)).
    rewrite E, arc_end_0. unfold target.
    replace (x + width - r + r) with (x + width) by ring. reflexivity.
  - change (nth 22 _ _)
      with (nth 9 (drawDashedArc_calls (x + width - r) (y + height - r) r
                     0 90 matrix) (CMoveTo 0 0)).
    rewrite E, arc_end_90. unfold target.
    replace (y + height - r + r) with (y + height) by ring. reflexivity.
  - change (nth 33 _ _)
      with (nth 9 (drawDashedArc_calls (x + r) (y + height - r) r
                     90 180 matrix) (CMoveTo 0 0)).
    rewrite E, arc_end_180. unfold target.
    replace (x + r - r) with x by ring. reflexivity.
  - change (nth 44 _ _)
      with (nth 9 (drawDashedArc_calls (x + r) (y + r) r
                     180 270 matrix) (CMoveTo 0 0)).
    rewrite E, arc_end_270. unfold target.
    replace (y + r - r) with y by ring. reflexivity.
Qed.

Lemma lineTo_calls_of (cs : list TracerCall) :
  Forall (fun c => exists x y cp, c = CLineTo x y cp) cs ->
  exists targets,
    cs = lineTo_calls targets /\ map fst targets = lineTo_targets cs.
Proof.
  induction 1 as [|c cs (x & y & cp & ->) _ (targets & -> & E)].
  - now exists [].
  - exists ((mkPoint x y, cp) :: targets). split; [reflexivity|].
    simpl. now rewrite E.
Qed.

Lemma lineTo_targets_last (l : list TracerCall) (x y : R) (cp : bool) :
  lineTo_targets (l ++ [CLineTo x y cp]) = lineTo_targets l ++ [mkPoint x y].
Proof.
  unfold lineTo_targets. now rewrite flat_map_app.
Qed.

Lemma arc_loop_lineTo cx cy r a step matrix todo i :
  Forall (fun c => exists x y cp, c = CLineTo x y cp)
    (arc_loop cx cy r a step matrix todo i).
Proof.
  revert i. induction todo as [|todo IH]; intros i; simpl; constructor.
  - now eexists _, _, _.
  - apply IH.
Qed.

(** X18: the outline of [roundRect] is closed: on a texture tracer or a
    valid vector tracer the call returns with the cursor back on [start],
    the image of [(x + r, y)], [r] being the clamped radius. *)
Theorem roundRect_closes (x y width height : R) (cornerRadius : option R)
    (matrix : option Matrix) (d : DashLine) :
  useTexture d = true \/ vector_ready d ->
  exists bound, forall fuel, (bound <= fuel)%nat ->
    exists d',
      roundRect fuel x y width height cornerRadius matrix d = Some d' /\
      start d'
      = transformPoint matrix
          (mkPoint (x + clampRadius width height cornerRadius) y) /\
      cursor d' = start d'.
Proof.
  intros Hd. unfold roundRect, roundRect_calls.
  set (r := clampRadius width height cornerRadius).
  set (p0 := transformPoint matrix (mkPoint (x + r) y)).
  cbv zeta. cbn [app].
  match goal with
  | |- context [CMoveTo (px p0) (py p0) :: ?rest] => set (cs := rest)
  end.
  assert (Hall : Forall (fun c => exists x y cp, c = CLineTo x y cp) cs).
  { unfold cs.
    repeat first
      [ apply Forall_cons; [now eexists _, _, _|]
      | apply Forall_app; split; [apply arc_loop_lineTo|]
      | apply Forall_nil ]. }
  destruct (lineTo_calls_of cs Hall) as (targets & Ecs & Etargets).
  assert (Hlast : last (map fst targets) p0 = p0).
  { rewrite Etargets. unfold cs.
    rewrite !app_comm_cons, !app_assoc.
    rewrite lineTo_targets_last, last_last. now destruct p0. }
  destruct (closed_outline p0 targets d Hd Hlast) as [bound Hb].
  exists bound. intros fuel Hfuel.
  destruct (Hb fuel Hfuel) as (d' & H & Hs & Hc & _).
  exists d'. rewrite Ecs. repeat split; assumption.
Qed.

Lemma roundRect_closes_witness :
  exists bound, forall fuel, (bound <= fuel)%nat ->
    exists d',
      roundRect fuel 0 0 40 30 (Some 8) None (sample 0) = Some d' /\
      start d'
      = transformPoint None (mkPoint (0 + clampRadius 40 30 (Some 8)) 0) /\
      cursor d' = start d'.
Proof.
  apply (roundRect_closes 0 0 40 30 (Some 8) None (sample 0)).
  right. apply sample_ready. lra.
Defined.

(** A subpath run to its end. *)
Lemma outline_runs (p0 : Point) (targets : list (Point * bool))
    (d : DashLine) :
  useTexture d = true \/ vector_ready d ->
  exists bound, forall fuel, (bound <= fuel)%nat ->
    exists d',
      run_calls fuel (CMoveTo (px p0) (py p0) :: lineTo_calls targets) d
        = Some d' /\
      start d' = p0 /\ cursor d' = last (map fst targets) p0 /\
      lineLength d' = path_length p0 (map fst targets).
Proof.
  intros Hd.
  destruct (run_calls_returns
              (CMoveTo (px p0) (py p0) :: lineTo_calls targets) d Hd)
    as [bound Hb].
  exists bound. intros fuel Hfuel. destruct (Hb fuel Hfuel) as [d' H].
  exists d'. split; [assumption|]. simpl in H.
  destruct (lineTo_calls_account fuel targets _ _ H) as (Hs & Hl & Hc).
  simpl in Hs, Hl, Hc.
  assert (E : mkPoint (px p0) (py p0) = p0) by now destruct p0.
  rewrite E in *. repeat split; try congruence. rewrite Hl. lra.
Qed.

Lemma poly_points_lineTo (matrix : option Matrix) (l : list Point) :
  Forall (fun c => exists x y cp, c = CLineTo x y cp)
    (poly_points_loop matrix l).
Proof.
  induction l as [|q l IH]; simpl; constructor.
  - now eexists _, _, _.
  - apply IH.
Qed.

Lemma last_map_point (f : Point -> Point) (l : list Point) (q : Point) :
  last (map f l) (f q) = f (last l q).
Proof.
  induction l as [|a l IH]; [reflexivity|].
  destruct l as [|b l]; [reflexivity|].
  change (last (map f (a :: b :: l)) (f q)) with (last (map f (b :: l)) (f q)).
  change (last (a :: b :: l) q) with (last (b :: l) q). exact IH.
Qed.

(** X19: [poly] does not close the polygon.  On a texture tracer or a
    valid vector tracer it returns with [start] on the image of the first
    point and the cursor on the image of the last one, having travelled
    the open polyline through the images of the points: its closing flag
    goes with the segment into the last point, and no segment leads back
    to the first. *)
Theorem poly_ends_on_last_point (matrix : option Matrix) (q : Point)
    (l : list Point) (d : DashLine) :
  useTexture d = true \/ vector_ready d ->
  exists bound, forall fuel, (bound <= fuel)%nat ->
    exists d',
      poly fuel (Points (q :: l)) matrix d = Normal (Some d') /\
      start d' = transformPoint matrix q /\
      cursor d' = transformPoint matrix (last l q) /\
      lineLength d'
      = path_length (transformPoint matrix q)
          (map (transformPoint matrix) l).
Proof.
  intros Hd. unfold poly, poly_calls.
  destruct (lineTo_calls_of _ (poly_points_lineTo matrix l))
    as (targets & Ecs & Etargets).
  rewrite (proj1 (poly_points_flags matrix l)) in Etargets.
  destruct (outline_runs (transformPoint matrix q) targets d Hd)
    as [bound Hb].
  exists bound. intros fuel Hfuel.
  destruct (Hb fuel Hfuel) as (d' & H & Hs & Hc & Hl).
  exists d'. rewrite Ecs, H. rewrite Etargets in Hc, Hl.
  rewrite last_map_point in Hc. repeat split; assumption.
Qed.

Lemma poly_ends_on_last_point_witness :
  exists bound, forall fuel, (bound <= fuel)%nat ->
    exists d',
      poly fuel (Points [mkPoint 0 0; mkPoint 30 0; mkPoint 30 40]) None
        (sample 0) = Normal (Some d') /\
      start d' = transformPoint None (mkPoint 0 0) /\
      cursor d'
      = transformPoint None
          (last [mkPoint 30 0; mkPoint 30 40] (mkPoint 0 0)) /\
      lineLength d'
      = path_length (transformPoint None (mkPoint 0 0))
          (map (transformPoint None) [mkPoint 30 0; mkPoint 30 40]).
Proof.
  apply (poly_ends_on_last_point None (mkPoint 0 0)
           [mkPoint 30 0; mkPoint 30 40] (sample 0)).
  right. apply sample_ready. lra.
Defined.

(** ** The texture *)

Lemma list_pair_ind (P : list R -> Prop) :
  P [] -> (forall a, P [a]) -> (forall a b l, P l -> P (a :: b :: l)) ->
  forall l, P l.
Proof.
  intros H0 H1 H2 l.
  assert (H : P l /\ forall a, P (a :: l)); [|apply H].
  induction l as [|b l [IHl IHc]]; split; auto.
Qed.

Lemma sum_from (l : list R) (a : R) :
  fold_left Rplus l a = a + fold_right Rplus 0 l.
Proof.
  revert a. induction l as [|b l IH]; intros a; simpl; [lra|].
  rewrite IH. lra.
Qed.

(** The pen of [getTexture] only moves to the right: nothing is painted
    behind it. *)
Lemma inked_behind (y t : R) (rest : list R) :
  forall pen, all_positive rest -> t < pen ->
  inked pen (texture_path y pen rest) t = false.
Proof.
  induction rest as [|on|on off rest IH] using list_pair_ind;
    intros pen Hpos Hlt.
  - reflexivity.
  - simpl. destruct (Rle_dec pen t); [lra|reflexivity].
  - inversion Hpos as [|? ? Hon Hpos']; subst.
    inversion Hpos' as [|? ? Hoff Hpos'']; subst.
    simpl. destruct (Rle_dec pen t); [lra|].
    apply IH; [assumption|lra].
Qed.

Lemma inked_locate (y t : R) (rest : list R) :
  forall (x : R) (i : nat),
  Nat.even i = true -> all_positive rest ->
  x <= t < x + fold_right Rplus 0 rest ->
  inked x (texture_path y x rest) t
  = Nat.even (fst (locate_from 1 (Some t) rest i x)).
Proof.
  induction rest as [|on|on off rest IH] using list_pair_ind;
    intros x i Hi Hpos Ht.
  - simpl in Ht. lra.
  - simpl in Ht. simpl.
    destruct (Rle_dec x t); [|lra]. destruct (Rlt_dec t (x + on)); [|lra].
    destruct (Rlt_dec t (x + on * 1)); [|lra]. simpl. now rewrite Hi.
  - inversion Hpos as [|? ? Hon Hpos']; subst.
    inversion Hpos' as [|? ? Hoff Hpos'']; subst.
    simpl in Ht.
    cbn [texture_path inked locate_from JS.ltb JS.val].
    destruct (Rle_dec x t); [|lra].
    destruct (Rlt_dec t (x + on)) as [H1|H1];
      destruct (Rlt_dec t (x + on * 1)) as [H1'|H1']; try lra.
    + simpl. now rewrite Hi.
    + destruct (Rlt_dec t (x + on * 1 + off * 1)) as [H2|H2].
      * cbn [fst orb]. rewrite inked_behind by (assumption || lra).
        rewrite Nat.even_succ, <- Nat.negb_even, Hi. reflexivity.
      * cbn [orb].
        replace (x + on * 1 + off * 1) with (x + on + off) by ring.
        apply IH; [exact Hi|assumption|lra].
Qed.

(** X20: the bitmap [getTexture] paints carries the pattern as the vector
    mode draws it: at every abscissa [t] of one period, the stroked path
    covers [t] exactly when the lookup of [lineTo], at scale 1 and without
    offset, finds the distance [t] on an even entry of the pattern. *)
Theorem texture_carries_pattern (o : MergedOptions) (t : R) :
  all_positive (opt_dash o) -> 0 <= t < period (opt_dash o) ->
  inked 0 (tex_path (paintTexture o)) t
  = Nat.even (fst (locate (opt_dash o) (period (opt_dash o)) 1 t 0)).
Proof.
  intros Hpos Ht. unfold paintTexture, locate, place_of.
  cbn [tex_path inked].
  assert (Hsum : period (opt_dash o) = fold_right Rplus 0 (opt_dash o)).
  { destruct (opt_dash o) as [|a l]; [reflexivity|].
    unfold period. cbn [JS.reduce_sum JS.val]. rewrite sum_from.
    reflexivity. }
  rewrite (rem_unique (t + 0) (period (opt_dash o) * 1) t 0)
    by (simpl; lra).
  apply inked_locate; [reflexivity|assumption|lra].
Qed.

Lemma texture_carries_pattern_witness :
  inked 0 (tex_path (paintTexture (mergeOptions noOptions))) 12
  = Nat.even (fst (locate (opt_dash (mergeOptions noOptions))
                     (period (opt_dash (mergeOptions noOptions))) 1 12 0)).
Proof.
  apply (texture_carries_pattern (mergeOptions noOptions) 12).
  - repeat constructor; lra.
  - unfold period. simpl. lra.
Defined.

Lemma cache_get_front (key : list R) (t : Texture) (cache : TextureCache) :
  cache_get key ((key, t) :: cache) = Some t.
Proof.
  simpl. destruct (list_eq_dec Req_dec_T key key); [reflexivity|congruence].
Qed.

(** X21: the texture cache is keyed by the pattern alone.  Once a request
    has been answered with a texture, a later request for the same pattern
    gets that same texture and leaves the cache as it is, whatever width
    and alpha its options carry and whether or not a canvas context is
    available. *)
Theorem texture_reused_by_pattern (context : bool) (cache : TextureCache)
    (o o' : MergedOptions) :
  opt_dash o' = opt_dash o ->
  getTexture context (snd (getTexture true cache o)) o'
  = getTexture true cache o.
Proof.
  intros E. unfold getTexture at 2 3.
  destruct (cache_get (opt_dash o) cache) as [t|] eqn:Hget;
    cbn [snd]; unfold getTexture; rewrite E.
  - now rewrite Hget.
  - now rewrite cache_get_front.
Qed.

Lemma texture_reused_by_pattern_witness :
  getTexture false
    (snd (getTexture true [] (mergeOptions noOptions)))
    (mergeOptions
       (mkOptions None (Some 5) None (Some (1 / 2)) None None None None None
          None))
  = getTexture true [] (mergeOptions noOptions).
Proof.
  apply (texture_reused_by_pattern false [] (mergeOptions noOptions)).
  reflexivity.
Defined.
